(** * PulseView: trace tree item owners

    A shallow embedding of [pv/views/trace/tracetreeitemowner.cpp].

    Items are shared objects ([shared_ptr<TraceTreeItem>]): an item is
    reachable from its owner's list, from a lookup table and from local
    variables at the same time, and [set_owner] / [set_layout_v_offset]
    mutate it in place.  The embedding therefore keeps all items in one
    store indexed by pointers, and every operation passes the store along.

    A C++ [int] is a [Z]; signed overflow is undefined behaviour, so the
    arithmetic is that of [Z] and statements that depend on the range say
    so.  [/] on [int] truncates towards zero: [Z.quot].

    An operation returns [None] when the call does not return normally (an
    [assert] fails, a null pointer is dereferenced) or when the recursion
    budget of the model is exhausted.  The functions that follow the
    nesting of the groups take that budget as their first argument [n]; a
    budget above the depth of the tree is enough, and the statements say
    how much. *)

From stdpp Require Import base numbers option list sorting gmap strings pretty.

Local Open Scope Z_scope.
Set Warnings "-register-all".

(** ** Data model *)

Definition INT_MAX : Z := 2147483647.
Definition INT_MIN : Z := -2147483648.

(** The value of a [shared_ptr<TraceTreeItem>]. *)
Abbreviation item_ptr := positive.

(** A [TraceTreeItemOwner*]: the view at the root, or a group, which is
    an item and an owner at once. *)
Inductive owner_ptr :=
| OwnerView
| OwnerGroup (g : item_ptr).

Global Instance owner_ptr_eq_dec : EqDecision owner_ptr.
Proof. solve_decision. Defined.

(** What the dynamic type of an item adds: a trace (a leaf) has a name and
    reports its own extents; a trace group has an item list and reports
    the extents of its children. *)
Inductive item_kind :=
| Trace (name : string) (extents : Z * Z)
| TraceGroup (items_ : list item_ptr).

(** Modelled from the spec: the class [TraceTreeItem] is declared in
    [tracetreeitem.hpp], which is not part of this file; an item has the
    members that the code reads and writes here: the owner it refers back
    to, whether it is enabled, whether it is being dragged, and the offset
    that the layout gave it.  A setter stores its argument. *)
Record TraceTreeItem := mkItem {
  owner : option owner_ptr;
  enabled : bool;
  dragging : bool;
  layout_v_offset : Z;
  kind : item_kind
}.

(** The state that the operations pass along: the item list of the view,
    the items behind the pointers, and the notifications sent so far. *)
Record world := mkWorld {
  view_items : list item_ptr;
  heap : gmap item_ptr TraceTreeItem;
  signals : list (owner_ptr * bool * bool)
}.

Definition set_owner (o : option owner_ptr) (it : TraceTreeItem) : TraceTreeItem :=
  mkItem o (enabled it) (dragging it) (layout_v_offset it) (kind it).

Definition set_layout_v_offset (v : Z) (it : TraceTreeItem) : TraceTreeItem :=
  mkItem (owner it) (enabled it) (dragging it) v (kind it).

Definition set_kind (k : item_kind) (it : TraceTreeItem) : TraceTreeItem :=
  mkItem (owner it) (enabled it) (dragging it) (layout_v_offset it) k.

Definition with_heap (h : gmap item_ptr TraceTreeItem) (w : world) : world :=
  mkWorld (view_items w) h (signals w).

(** [t->f(...)] for a setter [f]: the object behind [t] is updated in
    place; a null pointer does not return. *)
Definition update_item (t : item_ptr) (f : TraceTreeItem → TraceTreeItem)
    (w : world) : option world :=
  it ← heap w !! t;
  Some (with_heap (<[t := f it]> (heap w)) w).

(** The member [items_] of an owner. *)
Definition items_of (o : owner_ptr) (w : world) : option (list item_ptr) :=
  match o with
  | OwnerView => Some (view_items w)
  | OwnerGroup g =>
      it ← heap w !! g;
      match kind it with
      | TraceGroup l => Some l
      | Trace _ _ => None
      end
  end.

Definition set_items (o : owner_ptr) (l : list item_ptr) (w : world) : option world :=
  match o with
  | OwnerView => Some (mkWorld l (heap w) (signals w))
  | OwnerGroup g =>
      it ← heap w !! g;
      match kind it with
      | TraceGroup _ => Some (with_heap (<[g := set_kind (TraceGroup l) it]> (heap w)) w)
      | Trace _ _ => None
      end
  end.

(** Modelled from the spec: [extents_changed(horz, vert)] is a virtual
    function of the owner that is not defined in this file; it tells the
    observers that extents and layout are to be recomputed, and carries
    the two flags only.  The notification is recorded. *)
Definition extents_changed (o : owner_ptr) (horz vert : bool) (w : world) : world :=
  mkWorld (view_items w) (heap w) (signals w ++ [(o, horz, vert)]).

(** ** Child-list operations *)

(** [child_items()] returns [items_]. *)
Definition child_items (o : owner_ptr) (w : world) : option (list item_ptr) :=
  items_of o w.

(** [trace_tree_child_items()]: a copy of [items_]; the assertion wants
    every member to point to a [TraceTreeItem]. *)
Definition trace_tree_child_items (o : owner_ptr) (w : world) : option (list item_ptr) :=
  l ← items_of o w;
  guard (Forall (λ i, is_Some (heap w !! i)) l);;
  Some l.

(** The loop of [clear_child_items] over the copied child list. *)
Fixpoint clear_loop (o : owner_ptr) (ts : list item_ptr) (w : world) : option world :=
  match ts with
  | [] => Some w
  | t :: ts =>
      it ← heap w !! t;
      guard (owner it = Some o);;
      w ← update_item t (set_owner None) w;
      clear_loop o ts w
  end.

Definition clear_child_items (o : owner_ptr) (w : world) : option world :=
  ts ← trace_tree_child_items o w;
  w ← clear_loop o ts w;
  set_items o [] w.

Definition add_child_item (o : owner_ptr) (item : item_ptr) (w : world) : option world :=
  it ← heap w !! item;
  guard (owner it = None);;
  w ← update_item item (set_owner (Some o)) w;
  l ← items_of o w;
  w ← set_items o (l ++ [item]) w;
  Some (extents_changed o true true w).

(** [find] followed by [erase]: the first entry equal to [x] goes;
    [None] when [find] returns [end()]. *)
Fixpoint erase_first (x : item_ptr) (l : list item_ptr) : option (list item_ptr) :=
  match l with
  | [] => None
  | y :: l => if decide (y = x) then Some l else (y ::.) <$> erase_first x l
  end.

Definition remove_child_item (o : owner_ptr) (item : item_ptr) (w : world) : option world :=
  it ← heap w !! item;
  guard (owner it = Some o);;
  w ← update_item item (set_owner None) w;
  l ← items_of o w;
  l ← erase_first item l;
  w ← set_items o l w;
  Some (extents_changed o true true w).

(** The back-reference of an item, as the caller reads it. *)
Definition owner_of (t : item_ptr) (w : world) : option owner_ptr :=
  it ← heap w !! t; owner it.

(** A range-based [for] over a vector whose body may fail: the state [s]
    is passed from one element to the next. *)
Fixpoint for_each {A S : Type} (body : S → A → option S) (l : list A) (s : S) : option S :=
  match l with
  | [] => Some s
  | x :: l => s ← body s x; for_each body l s
  end.

(** ** Flattening *)

(** One iteration of the loop of [trace_tree_leaf_items]; [branch_leaves]
    is the recursive call on a child that is an owner. *)
Definition leaf_items_step (branch_leaves : item_ptr → option (list item_ptr))
    (w : world) (leaves : list item_ptr) (i : item_ptr) : option (list item_ptr) :=
  it ← heap w !! i;
  match kind it with
  | TraceGroup _ => bl ← branch_leaves i; Some (leaves ++ bl)
  | Trace _ _ => Some (leaves ++ [i])
  end.

Fixpoint trace_tree_leaf_items (n : nat) (o : owner_ptr) (w : world) : option (list item_ptr) :=
  match n with
  | O => None
  | S n =>
      ts ← trace_tree_child_items o w;
      for_each (leaf_items_step (λ g, trace_tree_leaf_items n (OwnerGroup g) w) w) ts []
  end.

(** ** Vertical extents *)

(** One iteration of the loop of [v_extents]; the accumulator is
    [(has_children, extents)] and [child_v_extents] is the virtual call
    [t->v_extents()]. *)
Definition v_extents_step (child_v_extents : item_ptr → option (Z * Z)) (w : world)
    (acc : bool * (Z * Z)) (t : item_ptr) : option (bool * (Z * Z)) :=
  it ← heap w !! t;
  if negb (enabled it) then Some acc
  else
    let child_offset := layout_v_offset it in
    child_extents ← child_v_extents t;
    Some (true, (Z.min (child_extents.1 + child_offset) acc.2.1,
                 Z.max (child_extents.2 + child_offset) acc.2.2)).

Definition v_extents_with (child_v_extents : item_ptr → option (Z * Z))
    (o : owner_ptr) (w : world) : option (Z * Z) :=
  ts ← trace_tree_child_items o w;
  '(has_children, extents) ←
    for_each (v_extents_step child_v_extents w) ts (false, (INT_MAX, INT_MIN));
  Some (if has_children : bool then extents else (0, 0)).

(** The virtual [TraceTreeItem::v_extents].  A trace reports its own
    extents.

    Modelled from the spec: [TraceGroup::v_extents] is not in this file;
    a group returns the recursively aggregated extent of its children,
    that is [TraceTreeItemOwner::v_extents] of the group. *)
Fixpoint item_v_extents (n : nat) (w : world) (t : item_ptr) : option (Z * Z) :=
  match n with
  | O => None
  | S n =>
      it ← heap w !! t;
      match kind it with
      | Trace _ e => Some e
      | TraceGroup _ => v_extents_with (item_v_extents n w) (OwnerGroup t) w
      end
  end.

Definition v_extents (n : nat) (o : owner_ptr) (w : world) : option (Z * Z) :=
  v_extents_with (item_v_extents n w) o w.

(** ** Restacking *)

(** [std::stable_sort] with a comparator [lt]: an element moves in front
    of the elements that are strictly greater, and of no other. *)
Fixpoint stable_insert {A : Type} (lt : A → A → bool) (x : A) (l : list A) : list A :=
  match l with
  | [] => [x]
  | y :: l' => if lt y x then y :: stable_insert lt x l' else x :: l
  end.

Definition stable_sort {A : Type} (lt : A → A → bool) (l : list A) : list A :=
  foldr (stable_insert lt) [] l.

(** The quantity the comparator of [restack_items] computes for an item:
    the centre line of its extents, at its current offset. *)
Definition center_line (n : nat) (w : world) (t : item_ptr) : option Z :=
  it ← heap w !! t;
  ext ← item_v_extents n w t;
  Some (layout_v_offset it + (ext.1 + ext.2) `quot` 2).

Definition center_lt (a b : Z * item_ptr) : bool := bool_decide (a.1 < b.1).

(** One iteration of the second loop of [restack_items]. *)
Definition restack_step (n : nat) (st : world * Z) (r : item_ptr) : option (world * Z) :=
  let '(w, total_offset) := st in
  it ← heap w !! r;
  extents ← item_v_extents n w r;
  if bool_decide (extents.1 = 0 ∧ extents.2 = 0) then Some (w, total_offset)
  else
    let total_offset :=
      if enabled it then total_offset + - extents.1 else total_offset in
    w ← (if negb (dragging it)
         then update_item r (set_layout_v_offset total_offset) w
         else Some w);
    let total_offset :=
      if enabled it then total_offset + extents.2 else total_offset in
    Some (w, total_offset).

(** The order in which [restack_items] visits the children.  The
    comparator only reads, and nothing is written while the vector is
    sorted, so the centre line of an item is the same at every comparison:
    it is computed once and the pairs are sorted. *)
Definition restack_order (n : nat) (o : owner_ptr) (w : world) : option (list item_ptr) :=
  items ← trace_tree_child_items o w;
  keys ← mapM (center_line n w) items;
  Some (stable_sort center_lt (zip keys items)).*2.

Definition restack_items (n : nat) (o : owner_ptr) (w : world) : option world :=
  items ← restack_order n o w;
  '(w, _) ← for_each (restack_step n) items (w, 0);
  Some w.

(** ** The settings store

    [QSettings] of Qt, as far as the code uses it: values under keys, a
    key being the path of the groups entered with [beginGroup] followed
    by the name; a value is a [QVariant] that holds an [int] or a
    [QString]. *)

Inductive QVariant :=
| QInvalid
| QInt (i : Z)
| QStr (s : string).

Record QSettings := mkSettings {
  group : list string;
  values : gmap (list string) QVariant
}.

Definition beginGroup (prefix : string) (s : QSettings) : QSettings :=
  mkSettings (group s ++ [prefix]) (values s).

Definition endGroup (s : QSettings) : QSettings :=
  mkSettings (removelast (group s)) (values s).

Definition setValue (key : string) (v : QVariant) (s : QSettings) : QSettings :=
  mkSettings (group s) (<[group s ++ [key] := v]> (values s)).

Definition contains (key : string) (s : QSettings) : bool :=
  bool_decide (is_Some (values s !! (group s ++ [key]))).

Definition value (key : string) (s : QSettings) : QVariant :=
  default QInvalid (values s !! (group s ++ [key])).

Definition digit_of (c : Ascii.ascii) : option Z :=
  let n := Z.of_N (Ascii.N_of_ascii c) in
  if bool_decide (48 ≤ n ≤ 57) then Some (n - 48) else None.

Fixpoint digits_to_Z (s : string) (acc : Z) : option Z :=
  match s with
  | EmptyString => Some acc
  | String c s => d ← digit_of c; digits_to_Z s (10 * acc + d)
  end.

(** [QString::toInt]: a decimal number with an optional sign, 0 when the
    text is no number or does not fit an [int]. *)
Definition QString_toInt (s : string) : Z :=
  let parsed :=
    match s with
    | EmptyString => None
    | String c r =>
        if bool_decide (c = Ascii.ascii_of_nat 45) then
          (if bool_decide (r = EmptyString) then None else Z.opp <$> digits_to_Z r 0)
        else if bool_decide (c = Ascii.ascii_of_nat 43) then
          (if bool_decide (r = EmptyString) then None else digits_to_Z r 0)
        else digits_to_Z s 0
    end in
  match parsed with
  | Some z => if bool_decide (INT_MIN ≤ z ≤ INT_MAX) then z else 0
  | None => 0
  end.

Definition toInt (v : QVariant) : Z :=
  match v with
  | QInvalid => 0
  | QInt i => i
  | QStr s => QString_toInt s
  end.

Definition toString (v : QVariant) : string :=
  match v with
  | QInvalid => EmptyString
  | QInt i => pretty i
  | QStr s => s
  end.

(** [QString::number(i)] *)
Definition QString_number (i : Z) : string := pretty i.

(** ** Saving the tree *)

(** One iteration of the loop of [save_trace_tree]; [child_save] is the
    virtual call [child->save_trace_tree(settings)]. *)
Definition save_step (child_save : item_ptr → QSettings → option QSettings)
    (st : QSettings * Z) (child : item_ptr) : option (QSettings * Z) :=
  let '(settings, i) := st in
  let settings := beginGroup (QString_number i) settings in
  settings ← child_save child settings;
  Some (endGroup settings, i + 1).

Definition save_trace_tree_with (child_save : item_ptr → QSettings → option QSettings)
    (o : owner_ptr) (w : world) (settings : QSettings) : option QSettings :=
  ts ← trace_tree_child_items o w;
  '(settings, i) ← for_each (save_step child_save) ts (settings, 0);
  Some (setValue "items" (QInt i) settings).

(** The virtual [TraceTreeItem::save_trace_tree].

    Modelled from the spec: the overrides of the trace and of the group
    are not in this file; a leaf records its name (under the key
    ["trace"], which [restore_trace_tree] reads), a group saves its own
    subtree. *)
Fixpoint item_save_trace_tree (n : nat) (w : world) (t : item_ptr)
    (settings : QSettings) : option QSettings :=
  match n with
  | O => None
  | S n =>
      it ← heap w !! t;
      match kind it with
      | Trace name _ => Some (setValue "trace" (QStr name) settings)
      | TraceGroup _ =>
          save_trace_tree_with (item_save_trace_tree n w) (OwnerGroup t) w settings
      end
  end.

Definition save_trace_tree (n : nat) (o : owner_ptr) (w : world)
    (settings : QSettings) : option QSettings :=
  save_trace_tree_with (item_save_trace_tree n w) o w settings.

(** ** Restoring the tree *)

(** Modelled from the spec: the constructor of [TraceGroup] is not in this
    file; a new group is empty, and it has no owner; here it is enabled,
    not dragged and at offset 0. *)
Definition new_TraceGroup : TraceTreeItem :=
  mkItem None true false 0 (TraceGroup []).

(** [make_shared<TraceGroup>()]: a pointer that is not in use. *)
Definition make_shared_TraceGroup (w : world) : item_ptr * world :=
  let g := fresh (dom (heap w)) in
  (g, with_heap (<[g := new_TraceGroup]> (heap w)) w).

(** The body of the loop of [restore_trace_tree] for the index [i];
    [restore] is [restore_trace_tree] itself, called on the new group.

    Modelled from the spec: the override of [restore_trace_tree] of a
    trace is not in this file; a leaf restores settings of its own, which
    are no part of the tree.  When the table hands out a group, the call
    is that of the owner. *)
Definition restore_section
    (restore : owner_ptr → QSettings * world → option (QSettings * world))
    (items : gmap string item_ptr) (o : owner_ptr) (i : Z)
    (st : QSettings * world) : option (QSettings * world) :=
  let '(settings, w) := st in
  let settings := beginGroup (QString_number i) settings in
  '(settings, w) ←
    (if contains "items" settings then
       let '(new_group, w) := make_shared_TraceGroup w in
       '(settings, w) ← restore (OwnerGroup new_group) (settings, w);
       l ← child_items (OwnerGroup new_group) w;
       w ← (if bool_decide (l = []) then Some w else add_child_item o new_group w);
       Some (settings, w)
     else if contains "trace" settings then
       let name := toString (value "trace" settings) in
       match items !! name with
       | Some trace =>
           w ← add_child_item o trace w;
           it ← heap w !! trace;
           match kind it with
           | Trace _ _ => Some (settings, w)
           | TraceGroup _ => restore (OwnerGroup trace) (settings, w)
           end
       | None => Some (settings, w)
       end
     else Some (settings, w));
  Some (endGroup settings, w).

(** The [for] loop of [restore_trace_tree] from the index [i] on.  The
    store is only read, so the bound [settings.value("items").toInt()]
    is the same at every test, and [k] counts the iterations left. *)
Fixpoint restore_loop
    (body : Z → QSettings * world → option (QSettings * world))
    (k : nat) (i : Z) (st : QSettings * world) : option (QSettings * world) :=
  match k with
  | O => Some st
  | S k => st ← body i st; restore_loop body k (i + 1) st
  end.

Fixpoint restore_trace_tree (n : nat) (items : gmap string item_ptr) (o : owner_ptr)
    (st : QSettings * world) : option (QSettings * world) :=
  match n with
  | O => None
  | S n =>
      guard (contains "items" st.1 = true);;
      let count := toInt (value "items" st.1) in
      '(settings, w) ←
        restore_loop (restore_section (restore_trace_tree n items) items o)
          (Z.to_nat count) 0 st;
      w ← restack_items n o w;
      Some (settings, w)
  end.

(** ** Well-formed states *)

(** The invariant of the data model for one owner: no item is listed
    twice, every listed item refers back to the owner, and every item
    that refers to the owner is listed. *)
Definition owner_invariant (o : owner_ptr) (w : world) : Prop :=
  match items_of o w with
  | Some l =>
      NoDup l ∧
      Forall (λ x, owner_of x w = Some o) l ∧
      map_Forall (λ x it, owner it = Some o → x ∈ l) (heap w)
  | None => False
  end.

Global Instance owner_invariant_dec o w : Decision (owner_invariant o w).
Proof. unfold owner_invariant. destruct (items_of o w); apply _. Defined.

(** The part of the store below an owner, as a forest: a leaf with its
    name, a group with its children. *)
Inductive tree :=
| Leaf (t : item_ptr) (name : string)
| Node (g : item_ptr) (children : list tree).

Definition root (tr : tree) : item_ptr :=
  match tr with
  | Leaf t _ => t
  | Node g _ => g
  end.

Fixpoint ptrs (tr : tree) : list item_ptr :=
  match tr with
  | Leaf t _ => [t]
  | Node g children => g :: concat (map ptrs children)
  end.

Fixpoint depth (tr : tree) : nat :=
  match tr with
  | Leaf _ _ => 0%nat
  | Node _ children => S (max_list (map depth children))
  end.

Inductive models (w : world) : tree → Prop :=
| models_leaf t it name e :
    heap w !! t = Some it →
    kind it = Trace name e →
    models w (Leaf t name)
| models_node g it children :
    heap w !! g = Some it →
    kind it = TraceGroup (root <$> children) →
    Forall (models w) children →
    models w (Node g children).

(** The children of [o] are the roots of the forest [ts], no item occurs
    twice in it, and a group is not below itself. *)
Definition owner_tree (o : owner_ptr) (w : world) (ts : list tree) : Prop :=
  items_of o w = Some (root <$> ts) ∧
  Forall (models w) ts ∧
  NoDup (concat (map ptrs ts)) ∧
  (∀ g, o = OwnerGroup g → g ∉ concat (map ptrs ts)).

(** The items strictly below the root of a tree. *)
Definition below (tr : tree) : list item_ptr :=
  match tr with
  | Leaf _ _ => []
  | Node _ children => concat (map ptrs children)
  end.

(** [w'] is [w] except for the offsets of the items in [R]. *)
Definition offsets_moved (R : list item_ptr) (w w' : world) : Prop :=
  view_items w' = view_items w ∧ signals w' = signals w ∧
  ∀ p, match heap w !! p with
       | Some it => ∃ v, heap w' !! p = Some (set_layout_v_offset v it) ∧
                         (p ∉ R → v = layout_v_offset it)
       | None => heap w' !! p = None
       end.

(** The recursion budget that the forest [ts] needs. *)
Definition enough (n : nat) (ts : list tree) : Prop :=
  Forall (λ tr, (depth tr < n)%nat) ts.

(** ** Reading the children, for the statements *)

Definition is_enabled (w : world) (t : item_ptr) : Prop :=
  enabled <$> heap w !! t = Some true.

Global Instance is_enabled_dec w t : Decision (is_enabled w t).
Proof. unfold is_enabled. apply _. Defined.

(** The extents of a child, moved by its offset. *)
Definition translated_extents (n : nat) (w : world) (t : item_ptr) : option (Z * Z) :=
  it ← heap w !! t;
  e ← item_v_extents n w t;
  Some (e.1 + layout_v_offset it, e.2 + layout_v_offset it).

Definition enabled_child_extents (n : nat) (w : world) (ts : list item_ptr) :
    option (list (Z * Z)) :=
  mapM (translated_extents n w) (filter (is_enabled w) ts).

Definition in_int_range (z : Z) : Prop := INT_MIN ≤ z ≤ INT_MAX.

(** The running minimum and maximum over a list of extents. *)
Definition fold_extents (tex : list (Z * Z)) (acc : Z * Z) : Z * Z :=
  foldl (λ a e, (Z.min e.1 a.1, Z.max e.2 a.2)) acc tex.

(** ** Restacking, on the children alone

    What [restack_items] reads of a child, and what it does to the
    offsets, without the store. *)

Record child_state := mkChild {
  cs_ptr : item_ptr;
  cs_offset : Z;
  cs_extents : Z * Z;
  cs_enabled : bool;
  cs_dragging : bool
}.

Definition child_state_of (n : nat) (w : world) (t : item_ptr) : option child_state :=
  it ← heap w !! t;
  e ← item_v_extents n w t;
  Some (mkChild t (layout_v_offset it) e (enabled it) (dragging it)).

Definition cs_center (c : child_state) : Z :=
  cs_offset c + ((cs_extents c).1 + (cs_extents c).2) `quot` 2.

Definition cs_before (a b : child_state) : bool :=
  bool_decide (cs_center a < cs_center b).

Definition cs_zero (c : child_state) : Prop :=
  (cs_extents c).1 = 0 ∧ (cs_extents c).2 = 0.

Definition cs_set_offset (v : Z) (c : child_state) : child_state :=
  mkChild (cs_ptr c) v (cs_extents c) (cs_enabled c) (cs_dragging c).

(** The second loop of [restack_items]: the children in the order of the
    visit, each with the offset it has afterwards. *)
Fixpoint cs_walk (cs : list child_state) (total_offset : Z) : list child_state :=
  match cs with
  | [] => []
  | c :: cs =>
      if bool_decide (cs_zero c) then c :: cs_walk cs total_offset
      else
        let total_offset :=
          if cs_enabled c then total_offset + - (cs_extents c).1 else total_offset in
        let c' := if negb (cs_dragging c) then cs_set_offset total_offset c else c in
        let total_offset :=
          if cs_enabled c then total_offset + (cs_extents c).2 else total_offset in
        c' :: cs_walk cs total_offset
  end.

(** The value of [total_offset] after the loop. *)
Fixpoint cs_total (cs : list child_state) (total_offset : Z) : Z :=
  match cs with
  | [] => total_offset
  | c :: cs =>
      if bool_decide (cs_zero c) then cs_total cs total_offset
      else if cs_enabled c
           then cs_total cs (total_offset + - (cs_extents c).1 + (cs_extents c).2)
           else cs_total cs total_offset
  end.

Definition cs_restack (cs : list child_state) : list child_state :=
  cs_walk (stable_sort cs_before cs) 0.

(** The offsets of [cs] written to the store. *)
Definition write_offsets (cs : list child_state) (w : world) : world :=
  with_heap
    (foldl (λ h c, alter (set_layout_v_offset (cs_offset c)) (cs_ptr c) h) (heap w) cs)
    w.

(** [cs] is what [restack_items] reads of the items [cs_ptr <$> cs]. *)
Definition reads (n : nat) (w : world) (cs : list child_state) : Prop :=
  Forall (λ c, child_state_of n w (cs_ptr c) = Some c) cs.

(** A child that takes part in the layout: its extents are not (0, 0). *)
Definition cs_nonzero (c : child_state) : Prop := ¬ cs_zero c.

Global Instance cs_zero_dec c : Decision (cs_zero c).
Proof. unfold cs_zero. apply _. Defined.

Global Instance cs_nonzero_dec c : Decision (cs_nonzero c).
Proof. unfold cs_nonzero. apply _. Defined.

(** A child that the walk places freely: when its extents are not
    (0, 0), it is enabled, not dragged, and at least 2 high. *)
Definition cs_plain (c : child_state) : Prop :=
  cs_nonzero c →
  cs_enabled c = true ∧ cs_dragging c = false ∧
  (cs_extents c).1 + 2 ≤ (cs_extents c).2.

Definition cs_center_le (a b : child_state) : Prop := cs_center a ≤ cs_center b.
Definition cs_center_lt (a b : child_state) : Prop := cs_center a < cs_center b.

(** ** Saving and restoring, for the statements *)

(** A tree up to the identity of its groups. *)
Inductive shape :=
| SLeaf (t : item_ptr)
| SGroup (children : list shape).

Fixpoint shape_of_tree (tr : tree) : shape :=
  match tr with
  | Leaf t _ => SLeaf t
  | Node _ children => SGroup (map shape_of_tree children)
  end.

Fixpoint shape_leaves (sh : shape) : list item_ptr :=
  match sh with
  | SLeaf t => [t]
  | SGroup children => concat (map shape_leaves children)
  end.

Fixpoint shape_depth (sh : shape) : nat :=
  match sh with
  | SLeaf _ => 0%nat
  | SGroup children => S (max_list (map shape_depth children))
  end.

(** What is left of a saved tree: a leaf is the item that the table has
    for its name, and it goes when the table has none; a group goes when
    nothing is left in it. *)
Fixpoint prune (items : gmap string item_ptr) (tr : tree) : option shape :=
  match tr with
  | Leaf _ name => SLeaf <$> items !! name
  | Node _ children =>
      match omap (prune items) children with
      | [] => None
      | l => Some (SGroup l)
      end
  end.

Definition kept_leaves (items : gmap string item_ptr) (ts : list tree) : list item_ptr :=
  concat (map shape_leaves (omap (prune items) ts)).

Fixpoint forall_indexed {A : Type} (P : nat → A → Prop) (i : nat) (l : list A) : Prop :=
  match l with
  | [] => True
  | x :: l => P i x ∧ forall_indexed P (S i) l
  end.

(** The section [p] of the store holds the tree [tr]. *)
Fixpoint stores_tree (vals : gmap (list string) QVariant) (p : list string)
    (tr : tree) : Prop :=
  match tr with
  | Leaf _ name =>
      vals !! (p ++ ["items"]) = None ∧ vals !! (p ++ ["trace"]) = Some (QStr name)
  | Node _ children =>
      vals !! (p ++ ["items"]) = Some (QInt (Z.of_nat (length children))) ∧
      forall_indexed
        (λ i c, stores_tree vals (p ++ [QString_number (Z.of_nat i)]) c) 0 children
  end.

(** The section [p] holds the forest [ts], the first tree under the
    number [i]. *)
Definition stores_from (vals : gmap (list string) QVariant) (p : list string)
    (i : nat) (ts : list tree) : Prop :=
  forall_indexed (λ i c, stores_tree vals (p ++ [QString_number (Z.of_nat i)]) c) i ts.

Definition stores_forest (vals : gmap (list string) QVariant) (p : list string)
    (ts : list tree) : Prop :=
  vals !! (p ++ ["items"]) = Some (QInt (Z.of_nat (length ts))) ∧
  stores_from vals p 0 ts.

(** The key [k] lies in the section [p]. *)
Definition under (p k : list string) : Prop := ∃ r, r ≠ [] ∧ k = p ++ r.


(** A trace that no owner holds. *)
Definition loose_trace (w : world) (q : item_ptr) : Prop :=
  ∃ it name e, heap w !! q = Some it ∧ owner it = None ∧ kind it = Trace name e.

(** The recursion budget that saving and restoring the forest [ts]
    need. *)
Definition enough_to_restore (n : nat) (ts : list tree) : Prop :=
  (0 < n)%nat ∧ Forall (λ tr, (depth tr + 1 < n)%nat) ts.

(** What restoring into the owner [o] leaves alone: an item outside of
    [K] that is not the owner is what it was, no item goes away, the
    owner is what it was but for its item list, and the list of the view
    is what it was when the owner is not the view. *)
Definition restore_frame (K : list item_ptr) (o : owner_ptr) (w w' : world) : Prop :=
  (∀ q it, heap w !! q = Some it → q ∉ K → OwnerGroup q ≠ o → heap w' !! q = Some it) ∧
  (∀ q, is_Some (heap w !! q) → is_Some (heap w' !! q)) ∧
  (∀ g it l0, o = OwnerGroup g → heap w !! g = Some it → kind it = TraceGroup l0 →
              ∃ l, heap w' !! g = Some (set_kind (TraceGroup l) it)) ∧
  (o ≠ OwnerView → view_items w' = view_items w).

(** What [restore_trace_tree] with the budget [n] does with a saved
    forest, for an owner without children. *)
Definition restore_spec (n : nat) (items : gmap string item_ptr) : Prop :=
  ∀ o s w ts,
    enough_to_restore n ts →
    stores_forest (values s) (group s) ts →
    items_of o w = Some [] →
    Forall (loose_trace w) (kept_leaves items ts) →
    NoDup (kept_leaves items ts) →
    ∃ w' ts',
      restore_trace_tree n items o (s, w) = Some (s, w') ∧
      owner_tree o w' ts' ∧
      shape_of_tree <$> ts' = omap (prune items) ts ∧
      restore_frame (kept_leaves items ts) o w w' ∧
      (∀ p, p ∈ concat (map ptrs ts') → p ∈ kept_leaves items ts ∨ heap w !! p = None).



(** ** Further statements *)

(** The traces of a tree, from left to right. *)
Fixpoint tree_leaves (tr : tree) : list item_ptr :=
  match tr with
  | Leaf t _ => [t]
  | Node _ children => concat (map tree_leaves children)
  end.

(** The item behind [t] is a trace. *)
Definition is_trace (w : world) (t : item_ptr) : Prop :=
  ∃ it name e, heap w !! t = Some it ∧ kind it = Trace name e.

(** The room that the child [t] takes in the stack of [restack_items]:
    the height of its extents when it is enabled and its extents are not
    (0, 0), and nothing otherwise. *)
Definition room (n : nat) (w : world) (t : item_ptr) : Z :=
  match child_state_of n w t with
  | Some c =>
      if bool_decide (cs_zero c) then 0
      else if cs_enabled c then (cs_extents c).2 - (cs_extents c).1 else 0
  | None => 0
  end.

(** The room that the children [l] take together. *)
Definition rooms (n : nat) (w : world) (l : list item_ptr) : Z :=
  foldr (λ t acc, room n w t + acc) 0 l.

(** The upper and the lower edge of a child, at its offset. *)
Definition cs_top (c : child_state) : Z := cs_offset c + (cs_extents c).1.
Definition cs_bottom (c : child_state) : Z := cs_offset c + (cs_extents c).2.

(** A child that, when it is enabled, goes where the walk puts it and
    takes room: it is not being dragged, its extents are not (0, 0), and
    they are not inside out. *)
Definition cs_stacked (c : child_state) : Prop :=
  cs_enabled c = true →
  cs_dragging c = false ∧ cs_nonzero c ∧ (cs_extents c).1 ≤ (cs_extents c).2.

(** The section [p] of the store has the entries that saving the tree
    [tr] writes; other keys may be there as well. *)
Fixpoint has_tree (vals : gmap (list string) QVariant) (p : list string)
    (tr : tree) : Prop :=
  match tr with
  | Leaf _ name => vals !! (p ++ ["trace"]) = Some (QStr name)
  | Node _ children =>
      vals !! (p ++ ["items"]) = Some (QInt (Z.of_nat (length children))) ∧
      forall_indexed
        (λ i c, has_tree vals (p ++ [QString_number (Z.of_nat i)]) c) 0 children
  end.

Definition has_from (vals : gmap (list string) QVariant) (p : list string)
    (i : nat) (ts : list tree) : Prop :=
  forall_indexed (λ i c, has_tree vals (p ++ [QString_number (Z.of_nat i)]) c) i ts.

Definition has_forest (vals : gmap (list string) QVariant) (p : list string)
    (ts : list tree) : Prop :=
  vals !! (p ++ ["items"]) = Some (QInt (Z.of_nat (length ts))) ∧
  has_from vals p 0 ts.

(** ** The range of [int]

    The values of type [int] that [restack_items] reads of its children
    and computes itself, for the statements that hold as long as they
    fit an [int].  What [v_extents] of a child computes inside is not
    among them: the statements take the extents as the child reports
    them. *)

Global Instance in_int_range_dec z : Decision (in_int_range z).
Proof. unfold in_int_range. apply _. Defined.

(** The comparator, for one child: the offset and the extents it reads,
    [ext.first + ext.second], and the key
    [layout_v_offset + (ext.first + ext.second) / 2]. *)
Definition center_ints (c : child_state) : list Z :=
  [ cs_offset c; (cs_extents c).1; (cs_extents c).2;
    (cs_extents c).1 + (cs_extents c).2;
    cs_offset c + ((cs_extents c).1 + (cs_extents c).2) `quot` 2 ].

(** The second loop, from the running total [total_offset] on: for an
    enabled child whose extents are not (0, 0), [-extents.first] and the
    running total after each of the two additions.  Nothing is computed
    for the other children. *)
Fixpoint cs_walk_ints (cs : list child_state) (total_offset : Z) : list Z :=
  match cs with
  | [] => []
  | c :: cs =>
      if bool_decide (cs_zero c) then cs_walk_ints cs total_offset
      else if cs_enabled c then
        [ - (cs_extents c).1;
          total_offset + - (cs_extents c).1;
          total_offset + - (cs_extents c).1 + (cs_extents c).2 ]
        ++ cs_walk_ints cs (total_offset + - (cs_extents c).1 + (cs_extents c).2)
      else cs_walk_ints cs total_offset
  end.

Definition restack_ints (n : nat) (o : owner_ptr) (w : world) : option (list Z) :=
  items ← trace_tree_child_items o w;
  cs ← mapM (child_state_of n w) items;
  Some (concat (center_ints <$> cs) ++ cs_walk_ints (stable_sort cs_before cs) 0).

(** No [int] of a call of [restack_items] in the state [w] overflows. *)
Definition restack_in_range (n : nat) (o : owner_ptr) (w : world) : Prop :=
  match restack_ints n o w with
  | Some l => Forall in_int_range l
  | None => False
  end.

Global Instance restack_in_range_dec n o w : Decision (restack_in_range n o w).
Proof. unfold restack_in_range. destruct (restack_ints n o w); apply _. Defined.


(** ** Example states *)

Definition example_trace (name : string) (e : Z * Z) (o : option owner_ptr)
    (en dr : bool) (off : Z) : TraceTreeItem :=
  mkItem o en dr off (Trace name e).

(** The view holds the trace 1 and the group 2; the group holds the
    trace 3. *)
Definition example_nested : world :=
  mkWorld [1; 2]%positive
    (<[1%positive := example_trace "a" (-5, 10) (Some OwnerView) true false 0]>
     (<[2%positive := mkItem (Some OwnerView) true false 0 (TraceGroup [3%positive])]>
      (<[3%positive := example_trace "b" (-5, 10) (Some (OwnerGroup 2)) true false 0]>
       ∅)))
    [].

(** The trace 4 is held by no owner. *)
Definition example_loose : world :=
  with_heap (<[4%positive := example_trace "c" (-5, 10) None true false 0]>
               (heap example_nested)) example_nested.

Definition example_nested_forest : list tree :=
  [Leaf 1 "a"; Node 2 [Leaf 3 "b"]].

(** Two traces in the view; the second one is being dragged. *)
Definition example_dragged : world :=
  mkWorld [1; 2]%positive
    (<[1%positive := example_trace "a" (0, 10) (Some OwnerView) true false 100]>
     (<[2%positive := example_trace "b" (0, 10) (Some OwnerView) true true 50]> ∅))
    [].

(** Two traces in the view; the second one is disabled. *)
Definition example_disabled : world :=
  mkWorld [1; 2]%positive
    (<[1%positive := example_trace "a" (0, 10) (Some OwnerView) true false 100]>
     (<[2%positive := example_trace "b" (0, 100) (Some OwnerView) false false 0]> ∅))
    [].

(** Two traces in the view, both enabled, none dragged, each 1 high. *)
Definition example_thin : world :=
  mkWorld [1; 2]%positive
    (<[1%positive := example_trace "a" (0, 1) (Some OwnerView) true false 10]>
     (<[2%positive := example_trace "b" (-1, 0) (Some OwnerView) true false 0]> ∅))
    [].

Definition example_flat_forest : list tree := [Leaf 1 "a"; Leaf 2 "b"].

(** A trace, an empty group and a trace in the view. *)
Definition example_empty_group : world :=
  mkWorld [1; 2; 3]%positive
    (<[1%positive := example_trace "a" (-5, 10) (Some OwnerView) true false 0]>
     (<[2%positive := mkItem (Some OwnerView) true false 7 (TraceGroup [])]>
      (<[3%positive := example_trace "b" (-5, 10) (Some OwnerView) true false 40]> ∅)))
    [].

Definition example_empty_group_forest : list tree :=
  [Leaf 1 "a"; Node 2 []; Leaf 3 "b"].

(** A store whose only section is the group ["0"], which is empty. *)
Definition example_settings_empty_group : QSettings :=
  setValue "items" (QInt 1)
    (endGroup (setValue "items" (QInt 0) (beginGroup "0" (mkSettings [] ∅)))).

(** A view without children, and no item at all. *)
Definition example_empty : world := mkWorld [] ∅ [].



(** The names of the traces of [example_nested]. *)
Definition example_nested_table : gmap string item_ptr :=
  <["a" := 1%positive]> (<["b" := 3%positive]> ∅).

(** [example_nested] after the view is cleared, and then its group. *)
Definition example_nested_cleared : world :=
  default example_nested
    (clear_child_items OwnerView example_nested
       ≫= clear_child_items (OwnerGroup 2)).

(** The trace 1 refers to the view, and the view does not list it. *)
Definition example_unlisted : world :=
  mkWorld []
    (<[1%positive := example_trace "a" (-5, 10) (Some OwnerView) true false 0]> ∅)
    [].

(** What [save_trace_tree] writes for [example_nested] into a store
    without keys. *)
Definition example_nested_saved : QSettings :=
  default (mkSettings [] ∅)
    (save_trace_tree 3 OwnerView example_nested (mkSettings [] ∅)).

(** A store whose only section names the trace ["c"], and a table
    that has the trace 4 of [example_loose] for that name. *)
Definition example_settings_trace : QSettings :=
  setValue "items" (QInt 1)
    (endGroup (setValue "trace" (QStr "c") (beginGroup "0" (mkSettings [] ∅)))).

Definition example_loose_table : gmap string item_ptr := <["c" := 4%positive]> ∅.

(** Three traces in the view.  The keys of the comparator are 105 for
    the trace 1, 5 for the trace 2 and, as [/] truncates
    ([-11 / 2 = -5]), 5 for the trace 3. *)
Definition example_reorder : world :=
  mkWorld [1; 2; 3]%positive
    (<[1%positive := example_trace "a" (0, 10) (Some OwnerView) true false 100]>
     (<[2%positive := example_trace "b" (0, 10) (Some OwnerView) true false 0]>
      (<[3%positive := example_trace "c" (-17, 6) (Some OwnerView) true false 10]> ∅)))
    [].

Definition example_reorder_forest : list tree :=
  [Leaf 1 "a"; Leaf 2 "b"; Leaf 3 "c"].

(** Three traces in the view, each 2^30 high: the running total of
    [restack_items] passes [INT_MAX] at the second. *)
Definition example_tall : world :=
  mkWorld [1; 2; 3]%positive
    (<[1%positive := example_trace "a" (0, 1073741824) (Some OwnerView) true false 0]>
     (<[2%positive := example_trace "b" (0, 1073741824) (Some OwnerView) true false 0]>
      (<[3%positive := example_trace "c" (0, 1073741824) (Some OwnerView) true false 0]> ∅)))
    [].

(** ** Tactics for the example states *)

Ltac solve_models :=
  repeat first
    [ eapply models_leaf; [vm_compute; reflexivity | reflexivity]
    | eapply models_node; [vm_compute; reflexivity | reflexivity | ]
    | apply Forall_nil_2
    | apply Forall_cons_2 ].

Ltac solve_owner_tree :=
  split_and!;
    [ reflexivity | solve_models | compute_done | intros ?; discriminate ].

(** * Properties *)

(** ** Reading and writing the store *)

Lemma for_each_app {A S : Type} (body : S → A → option S) l1 l2 s :
  for_each body (l1 ++ l2) s = for_each body l1 s ≫= for_each body l2.
Proof.
  revert s. induction l1 as [|x l1 IH]; intros s; simpl; [done|].
  destruct (body s x); simpl; [apply IH|done].
Qed.

Lemma for_each_ext {A S : Type} (f g : S → A → option S) l s :
  (∀ s x, x ∈ l → f s x = g s x) → for_each f l s = for_each g l s.
Proof.
  revert s. induction l as [|x l IH]; intros s Hfg; simpl; [done|].
  rewrite Hfg by left. destruct (g s x); simpl; [|done].
  apply IH. intros ???. apply Hfg. by right.
Qed.

Lemma update_item_Some t f w it :
  heap w !! t = Some it →
  update_item t f w = Some (with_heap (<[t := f it]> (heap w)) w).
Proof. intros H. unfold update_item. by rewrite H. Qed.

Lemma items_of_insert_same_kind o w t it it' :
  heap w !! t = Some it → kind it' = kind it →
  items_of o (with_heap (<[t := it']> (heap w)) w) = items_of o w.
Proof.
  intros Ht Hk. destruct o as [|g]; simpl; [done|].
  destruct (decide (t = g)) as [->|Hne].
  - rewrite lookup_insert_eq, Ht. simpl. by rewrite Hk.
  - by rewrite lookup_insert_ne.
Qed.

Lemma set_items_Some o w l l' :
  items_of o w = Some l →
  ∃ w', set_items o l' w = Some w' ∧ items_of o w' = Some l' ∧
        signals w' = signals w ∧
        (∀ t, owner_of t w' = owner_of t w) ∧
        (∀ t, is_Some (heap w' !! t) ↔ is_Some (heap w !! t)) ∧
        (∀ t, OwnerGroup t ≠ o → heap w' !! t = heap w !! t) ∧
        (∀ t, layout_v_offset <$> heap w' !! t = layout_v_offset <$> heap w !! t).
Proof.
  destruct o as [|g]; simpl.
  - intros _. eexists; split_and!; done.
  - destruct (heap w !! g) as [it|] eqn:Hg; simpl; [|done].
    destruct (kind it) eqn:Hk; [done|]. intros _.
    eexists; split_and!; [done|..]; simpl.
    + by rewrite lookup_insert_eq.
    + done.
    + intros t. unfold owner_of; simpl. destruct (decide (g = t)) as [->|].
      * by rewrite lookup_insert_eq, Hg.
      * by rewrite lookup_insert_ne.
    + intros t. destruct (decide (g = t)) as [->|].
      * rewrite lookup_insert_eq, Hg. split; eauto.
      * by rewrite lookup_insert_ne.
    + intros t Ht. rewrite lookup_insert_ne; [done|congruence].
    + intros t. destruct (decide (g = t)) as [->|].
      * by rewrite lookup_insert_eq, Hg.
      * by rewrite lookup_insert_ne.
Qed.

Lemma erase_first_split x l :
  x ∈ l →
  ∃ l1 l2, l = l1 ++ x :: l2 ∧ (x ∉ l1) ∧ erase_first x l = Some (l1 ++ l2).
Proof.
  induction l as [|y l IH]; [by intros ?%elem_of_nil|].
  intros Hx. simpl. destruct (decide (y = x)) as [->|Hne].
  - exists [], l. split_and!; [done| |done]. apply not_elem_of_nil.
  - apply elem_of_cons in Hx as [?|Hx]; [congruence|].
    destruct (IH Hx) as (l1 & l2 & -> & Hl1 & ->).
    exists (y :: l1), l2. split_and!; [done| |done].
    rewrite elem_of_cons. by intros [?|?].
Qed.

Lemma items_of_extents_changed o o' h v w :
  items_of o (extents_changed o' h v w) = items_of o w.
Proof. by destruct o. Qed.

Lemma owner_of_extents_changed t o' h v w :
  owner_of t (extents_changed o' h v w) = owner_of t w.
Proof. done. Qed.

Lemma owner_of_Some t w o :
  owner_of t w = Some o ↔ ∃ it, heap w !! t = Some it ∧ owner it = Some o.
Proof.
  unfold owner_of. destruct (heap w !! t) as [it|]; simpl.
  - split; [by exists it|]. by intros (? & [= <-] & ?).
  - split; [done|]. by intros (? & ? & ?).
Qed.

(** ** Child-list operations *)

Lemma add_child_item_spec o w x it l :
  heap w !! x = Some it → owner it = None → items_of o w = Some l →
  ∃ w', add_child_item o x w = Some w' ∧
        child_items o w' = Some (l ++ [x]) ∧
        owner_of x w' = Some o ∧
        (∀ t, t ≠ x → owner_of t w' = owner_of t w) ∧
        (∀ t, is_Some (heap w' !! t) ↔ is_Some (heap w !! t)) ∧
        (∀ t, t ≠ x → OwnerGroup t ≠ o → heap w' !! t = heap w !! t).
Proof.
  intros Hx Hown Hl. unfold add_child_item. rewrite Hx. simpl.
  rewrite option_guard_True by done.
  rewrite (update_item_Some _ _ _ _ Hx). simpl.
  set (w1 := with_heap _ w).
  assert (items_of o w1 = Some l) as Hl1.
  { unfold w1. by rewrite (items_of_insert_same_kind o w x it). }
  rewrite Hl1. simpl.
  destruct (set_items_Some o w1 l (l ++ [x]) Hl1)
    as (w2 & -> & Hl2 & _ & Hown2 & Hdom2 & Hfr2 & _). simpl.
  eexists. split; [done|]. unfold child_items.
  rewrite items_of_extents_changed, owner_of_extents_changed. split_and!.
  - done.
  - rewrite Hown2. unfold owner_of, w1. simpl. by rewrite lookup_insert_eq.
  - intros t Ht. rewrite owner_of_extents_changed, Hown2.
    unfold owner_of, w1. simpl. by rewrite lookup_insert_ne.
  - intros t. simpl. rewrite Hdom2. unfold w1. simpl.
    destruct (decide (x = t)) as [->|].
    + rewrite lookup_insert_eq, Hx. split; eauto.
    + by rewrite lookup_insert_ne.
  - intros t Ht Hto. simpl. rewrite Hfr2 by done. unfold w1. simpl.
    by rewrite lookup_insert_ne.
Qed.

Lemma owner_invariant_not_listed o w l x :
  items_of o w = Some l → owner_invariant o w → owner_of x w = None → x ∉ l.
Proof.
  intros Hl Hinv Hnone Hin. unfold owner_invariant in Hinv. rewrite Hl in Hinv.
  destruct Hinv as (_ & Hall & _). rewrite Forall_forall in Hall.
  specialize (Hall _ Hin). congruence.
Qed.

(** C8. For a state that satisfies the invariant of the data model: an
    item without owner that is added appears exactly once among the
    children and refers to the owner; an item of the owner that is
    removed is no longer among the children and refers to no owner. *)
Theorem add_remove_child_item o w x :
  owner_invariant o w →
  (is_Some (heap w !! x) → owner_of x w = None →
   ∃ w' l', add_child_item o x w = Some w' ∧
            child_items o w' = Some l' ∧
            count_occ Pos.eq_dec l' x = 1%nat ∧
            owner_of x w' = Some o) ∧
  (owner_of x w = Some o →
   ∃ w' l', remove_child_item o x w = Some w' ∧
            child_items o w' = Some l' ∧
            (x ∉ l') ∧
            is_Some (heap w' !! x) ∧ owner_of x w' = None).
Proof.
  intros Hinv. pose proof Hinv as Hinv'. unfold owner_invariant in Hinv.
  destruct (items_of o w) as [l|] eqn:Hl; [|done].
  destruct Hinv as (Hnd & Hall & Hback). split.
  - intros [it Hx] Hnone.
    assert (owner it = None) as Hown.
    { unfold owner_of in Hnone. by rewrite Hx in Hnone. }
    destruct (add_child_item_spec o w x it l Hx Hown Hl) as (w' & Hadd & Hch & Ho & _).
    exists w', (l ++ [x]). split_and!; [done..| |done].
    rewrite count_occ_app. simpl. destruct (Pos.eq_dec x x); [|done].
    assert (count_occ Pos.eq_dec l x = 0%nat) as ->; [|done].
    apply count_occ_not_In. rewrite <-list_elem_of_In.
    by eapply owner_invariant_not_listed.
  - intros Hown. apply owner_of_Some in Hown as (it & Hx & Hown).
    assert (x ∈ l) as Hin by (by eapply Hback).
    destruct (erase_first_split x l Hin) as (l1 & l2 & Heq & Hl1 & Herase).
    unfold remove_child_item. rewrite Hx. simpl.
    rewrite option_guard_True by done.
    rewrite (update_item_Some _ _ _ _ Hx). simpl.
    set (w1 := with_heap _ w).
    assert (items_of o w1 = Some l) as Hl1'.
    { unfold w1. by rewrite (items_of_insert_same_kind o w x it). }
    rewrite Hl1'. simpl. rewrite Herase. simpl.
    destruct (set_items_Some o w1 l (l1 ++ l2) Hl1')
      as (w2 & -> & Hl2 & _ & Hown2 & Hdom2 & _ & _). simpl.
    eexists _, (l1 ++ l2). split; [done|]. unfold child_items.
    rewrite items_of_extents_changed, owner_of_extents_changed. split_and!.
    + done.
    + subst l. apply NoDup_app in Hnd as (_ & Hdisj & [Hx2 _]%NoDup_cons).
      rewrite elem_of_app. intros [?|?]; [done|done].
    + simpl. apply Hdom2. unfold w1. simpl. rewrite lookup_insert_eq. eauto.
    + rewrite Hown2. unfold owner_of, w1. simpl. by rewrite lookup_insert_eq.
Qed.

Lemma items_of_same_kinds o w w' l :
  view_items w' = view_items w →
  (∀ p it, heap w !! p = Some it → ∃ it', heap w' !! p = Some it' ∧ kind it' = kind it) →
  items_of o w = Some l → items_of o w' = Some l.
Proof.
  intros Hv Hh. destruct o as [|g]; simpl; [by rewrite Hv|].
  destruct (heap w !! g) as [it|] eqn:Hg; simpl; [|done].
  destruct (Hh _ _ Hg) as (it' & Hit' & Hk). rewrite Hit'. simpl. by rewrite Hk.
Qed.

Lemma clear_loop_spec o ts : ∀ w,
  NoDup ts → Forall (λ x, owner_of x w = Some o) ts →
  ∃ w', clear_loop o ts w = Some w' ∧
        view_items w' = view_items w ∧ signals w' = signals w ∧
        (∀ x, x ∈ ts → ∃ it, heap w !! x = Some it ∧
                              heap w' !! x = Some (set_owner None it)) ∧
        (∀ x, x ∉ ts → heap w' !! x = heap w !! x).
Proof.
  induction ts as [|t ts IH]; intros w Hnd Hall; simpl.
  { exists w. split_and!; try done. by intros x ?%elem_of_nil. }
  apply NoDup_cons in Hnd as [Ht Hnd]. apply Forall_cons in Hall as [Hto Hall].
  apply owner_of_Some in Hto as (it & Hx & Hown). rewrite Hx. simpl.
  rewrite option_guard_True by done.
  rewrite (update_item_Some _ _ _ _ Hx). simpl.
  set (w1 := with_heap _ w).
  destruct (IH w1 Hnd) as (w' & -> & Hv & Hs & Hin & Hout).
  { rewrite Forall_forall in Hall |- *. intros x Hxin.
    rewrite <-(Hall x Hxin). unfold owner_of, w1. simpl.
    rewrite lookup_insert_ne; [done|]. intros ->. done. }
  exists w'. split_and!; [done..| |].
  - intros x [->|Hxin]%elem_of_cons.
    + exists it. split; [done|]. rewrite (Hout _ Ht). unfold w1. simpl.
      by rewrite lookup_insert_eq.
    + destruct (Hin _ Hxin) as (it' & Hit' & Hw'). exists it'. split; [|done].
      unfold w1 in Hit'. simpl in Hit'. rewrite lookup_insert_ne in Hit'; [done|].
      intros ->. done.
  - intros x [Hne Hxin]%not_elem_of_cons. rewrite (Hout _ Hxin). unfold w1. simpl.
    by rewrite lookup_insert_ne.
Qed.

(** C4, as the code has it. For a state in which the owner lists no item
    twice and every listed item refers back to it: [clear_child_items]
    leaves the owner without children and every direct child without
    owner; the back-reference of every other item, the items inside a
    child group among them, is what it was. *)
Theorem clear_child_items_direct o w l :
  items_of o w = Some l → NoDup l → Forall (λ x, owner_of x w = Some o) l →
  ∃ w', clear_child_items o w = Some w' ∧
        child_items o w' = Some [] ∧
        (∀ x, x ∈ l → is_Some (heap w' !! x) ∧ owner_of x w' = None) ∧
        (∀ x, x ∉ l → owner_of x w' = owner_of x w).
Proof.
  intros Hl Hnd Hall. unfold clear_child_items, trace_tree_child_items.
  rewrite Hl. simpl. rewrite option_guard_True; simpl.
  2:{ eapply Forall_impl; [exact Hall|]. intros x (it & -> & _)%owner_of_Some. eauto. }
  destruct (clear_loop_spec o l w Hnd Hall) as (w1 & -> & Hv & Hs & Hin & Hout). simpl.
  assert (items_of o w1 = Some l) as Hl1.
  { apply (items_of_same_kinds o w w1 l Hv); [|done]. intros p it Hp.
    destruct (decide (p ∈ l)) as [Hpin|Hpout].
    - destruct (Hin _ Hpin) as (it' & Hit' & ->). eexists; split; [done|].
      simpl. congruence.
    - rewrite (Hout _ Hpout). eauto. }
  destruct (set_items_Some o w1 l [] Hl1) as (w2 & -> & Hl2 & _ & Hown2 & Hdom2 & _ & _).
  exists w2. split_and!; [done|done|..].
  - intros x Hx. destruct (Hin _ Hx) as (it & _ & Hw1). split.
    + apply Hdom2. eauto.
    + rewrite Hown2. unfold owner_of. by rewrite Hw1.
  - intros x Hx. rewrite Hown2. unfold owner_of. by rewrite (Hout _ Hx).
Qed.

(** C4 as stated does not hold: the trace 3 inside the group 2 is among
    the flattened items of the view, and it still refers to the group
    after the view is cleared. *)
Lemma clear_child_items_not_recursive :
  ¬ (∀ n o w w' leaves,
       trace_tree_leaf_items n o w = Some leaves →
       clear_child_items o w = Some w' →
       ∀ t, t ∈ leaves → owner_of t w' = None).
Proof.
  intros H.
  specialize (H 2%nat OwnerView example_nested
                (default example_nested (clear_child_items OwnerView example_nested))
                [1; 3]%positive).
  specialize (H eq_refl eq_refl 3%positive).
  assert (3%positive ∈ [1; 3]%positive) as Hin by (right; left).
  specialize (H Hin). vm_compute in H. discriminate H.
Qed.

Lemma clear_child_items_direct_witness :
  ∃ w', clear_child_items OwnerView example_nested = Some w' ∧
        child_items OwnerView w' = Some [] ∧
        (∀ x, x ∈ [1; 2]%positive → is_Some (heap w' !! x) ∧ owner_of x w' = None) ∧
        (∀ x, x ∉ [1; 2]%positive → owner_of x w' = owner_of x example_nested).
Proof.
  apply (clear_child_items_direct OwnerView example_nested [1; 2]%positive).
  - reflexivity.
  - compute_done.
  - compute_done.
Defined.

Lemma add_remove_child_item_witness :
  owner_invariant OwnerView example_loose ∧
  (∃ w' l', add_child_item OwnerView 4%positive example_loose = Some w' ∧
            child_items OwnerView w' = Some l' ∧
            count_occ Pos.eq_dec l' 4%positive = 1%nat ∧
            owner_of 4%positive w' = Some OwnerView) ∧
  (∃ w' l', remove_child_item OwnerView 1%positive example_loose = Some w' ∧
            child_items OwnerView w' = Some l' ∧
            (1%positive ∉ l') ∧
            is_Some (heap w' !! 1%positive) ∧ owner_of 1%positive w' = None).
Proof.
  assert (owner_invariant OwnerView example_loose) as Hinv.
  { compute_done. }
  split; [exact Hinv|]. split.
  - apply (add_remove_child_item OwnerView example_loose 4%positive Hinv).
    + vm_compute. eauto.
    + reflexivity.
  - apply (add_remove_child_item OwnerView example_loose 1%positive Hinv).
    reflexivity.
Defined.

(** ** Vertical extents *)

Lemma v_extents_step_lookup child w acc t it :
  heap w !! t = Some it →
  v_extents_step child w acc t
  = if negb (enabled it) then Some acc
    else e ← child t;
         Some (true, (Z.min (e.1 + layout_v_offset it) acc.2.1,
                      Z.max (e.2 + layout_v_offset it) acc.2.2)).
Proof. intros H. unfold v_extents_step. by rewrite H. Qed.

Lemma v_extents_loop child w ts : ∀ tex b acc,
  Forall (λ i, is_Some (heap w !! i)) ts →
  mapM (λ t, it ← heap w !! t; e ← child t;
             Some (e.1 + layout_v_offset it, e.2 + layout_v_offset it))
       (filter (is_enabled w) ts) = Some tex →
  for_each (v_extents_step child w) ts (b, acc)
  = Some (b || bool_decide (tex ≠ []), fold_extents tex acc).
Proof.
  induction ts as [|t ts IH]; intros tex b acc Hall Hm.
  { simpl in Hm. injection Hm as <-. simpl. by rewrite orb_false_r. }
  apply Forall_cons in Hall as [[it Hit] Hall]. cbn [for_each].
  rewrite (v_extents_step_lookup _ _ _ _ _ Hit).
  rewrite filter_cons in Hm.
  destruct (decide (is_enabled w t)) as [He|He];
    unfold is_enabled in He; rewrite Hit in He; simpl in He.
  - assert (enabled it = true) as -> by congruence. simpl.
    simpl in Hm. rewrite Hit in Hm. simpl in Hm.
    destruct (child t) as [e|]; simpl in Hm |- *; [|done].
    destruct (mapM _ _) as [tex'|] eqn:Hm'; simpl in Hm; [|done].
    injection Hm as <-. rewrite (IH tex' _ _ Hall eq_refl). simpl.
    by rewrite orb_true_r.
  - assert (enabled it = false) as -> by (destruct (enabled it); congruence).
    simpl. by apply IH.
Qed.

Lemma fold_extents_bounds tex : ∀ acc,
  ((fold_extents tex acc).1 ≤ acc.1 ∧ acc.2 ≤ (fold_extents tex acc).2) ∧
  (∀ e, e ∈ tex → (fold_extents tex acc).1 ≤ e.1 ∧ e.2 ≤ (fold_extents tex acc).2) ∧
  ((fold_extents tex acc).1 = acc.1 ∨ ∃ e, e ∈ tex ∧ (fold_extents tex acc).1 = e.1) ∧
  ((fold_extents tex acc).2 = acc.2 ∨ ∃ e, e ∈ tex ∧ (fold_extents tex acc).2 = e.2).
Proof.
  induction tex as [|e tex IH]; intros acc.
  { unfold fold_extents. simpl. split_and!; [lia|lia| |by left|by left].
    by intros e ?%elem_of_nil. }
  destruct (IH (Z.min e.1 acc.1, Z.max e.2 acc.2)) as ((H1 & H2) & H3 & H4 & H5).
  change (fold_extents (e :: tex) acc)
    with (fold_extents tex (Z.min e.1 acc.1, Z.max e.2 acc.2)).
  set (r := fold_extents tex _) in *. simpl in *. split_and!; [lia|lia|..].
  - intros e' [->|Hin]%elem_of_cons; [lia|]. by apply H3.
  - destruct H4 as [H4|(e' & ? & ?)].
    + destruct (Z.min_spec e.1 acc.1) as [[? Hm]|[? Hm]]; rewrite Hm in H4.
      * right. exists e. split; [left|done].
      * by left.
    + right. exists e'. split; [by right|done].
  - destruct H5 as [H5|(e' & ? & ?)].
    + destruct (Z.max_spec e.2 acc.2) as [[? Hm]|[? Hm]]; rewrite Hm in H5.
      * by left.
      * right. exists e. split; [left|done].
    + right. exists e'. split; [by right|done].
Qed.

(** C3. The extents of an owner are (0, 0) when no child is enabled;
    otherwise their lower end is the least, and their upper end the
    greatest, of the ends of the extents of the enabled children, each
    moved by the offset of its child.  The moved ends are [int]s. *)
Theorem v_extents_spec n o w ts tex :
  trace_tree_child_items o w = Some ts →
  enabled_child_extents n w ts = Some tex →
  Forall (λ e, in_int_range e.1 ∧ in_int_range e.2) tex →
  ∃ r, v_extents n o w = Some r ∧
       (tex = [] → r = (0, 0)) ∧
       (tex ≠ [] →
        (∃ e, e ∈ tex ∧ r.1 = e.1) ∧ (∀ e, e ∈ tex → r.1 ≤ e.1) ∧
        (∃ e, e ∈ tex ∧ r.2 = e.2) ∧ (∀ e, e ∈ tex → e.2 ≤ r.2)).
Proof.
  intros Hts Htex Hrange. unfold v_extents, v_extents_with. rewrite Hts. simpl.
  assert (Forall (λ i, is_Some (heap w !! i)) ts) as Hall.
  { unfold trace_tree_child_items in Hts.
    destruct (items_of o w) as [l|]; simpl in Hts; [|done].
    case_guard; simplify_eq/=. done. }
  rewrite (v_extents_loop _ w ts tex false _ Hall Htex). simpl.
  destruct tex as [|e0 tex'].
  { rewrite bool_decide_false by naive_solver. eexists; split; [done|]. split; done. }
  rewrite bool_decide_true by done.
  exists (fold_extents (e0 :: tex') (INT_MAX, INT_MIN)). split; [done|].
  split; [done|]. intros _.
  destruct (fold_extents_bounds (e0 :: tex') (INT_MAX, INT_MIN))
    as (_ & Hb & Hlo & Hhi).
  apply Forall_cons in Hrange as [[[? ?] [? ?]] _].
  pose proof (Hb e0 (list_elem_of_here _ _)) as [? ?].
  set (r := fold_extents _ _) in *. simpl in Hlo, Hhi.
  split_and!.
  - destruct Hlo as [Hlo|?]; [|done]. exists e0. split; [left|lia].
  - intros e He. by apply Hb.
  - destruct Hhi as [Hhi|?]; [|done]. exists e0. split; [left|lia].
  - intros e He. by apply Hb.
Qed.

Lemma v_extents_spec_witness :
  ∃ r, v_extents 2 OwnerView example_nested = Some r ∧
       ([(-5, 10); (-5, 10)] = [] → r = (0, 0)) ∧
       ([(-5, 10); (-5, 10)] ≠ [] →
        (∃ e, e ∈ [(-5, 10); (-5, 10)] ∧ r.1 = e.1) ∧
        (∀ e, e ∈ [(-5, 10); (-5, 10)] → r.1 ≤ e.1) ∧
        (∃ e, e ∈ [(-5, 10); (-5, 10)] ∧ r.2 = e.2) ∧
        (∀ e, e ∈ [(-5, 10); (-5, 10)] → e.2 ≤ r.2)).
Proof.
  apply (v_extents_spec 2 OwnerView example_nested [1; 2]%positive
           [(-5, 10); (-5, 10)]).
  - vm_compute. reflexivity.
  - vm_compute. reflexivity.
  - compute_done.
Defined.

(** ** The stable sort *)

Section stable_sort.
Context {A : Type} (key : A → Z).

Let before (a b : A) : bool := bool_decide (key a < key b).
Let key_le (a b : A) : Prop := key a ≤ key b.

Lemma stable_insert_Permutation x l : stable_insert before x l ≡ₚ x :: l.
Proof.
  induction l as [|y l IH]; simpl; [done|].
  destruct (before y x); [|done]. rewrite IH. apply Permutation_swap.
Qed.

Lemma stable_sort_Permutation l : stable_sort before l ≡ₚ l.
Proof.
  induction l as [|x l IH]; simpl; [done|].
  rewrite stable_insert_Permutation. by rewrite IH.
Qed.

Lemma stable_insert_front x l :
  Forall (key_le x) l → stable_insert before x l = x :: l.
Proof.
  destruct l as [|y l]; simpl; [done|]. intros [Hy _]%Forall_cons.
  unfold before. rewrite bool_decide_false; [done|]. unfold key_le in Hy. lia.
Qed.

Lemma stable_insert_sorted x l :
  StronglySorted key_le l → StronglySorted key_le (stable_insert before x l).
Proof.
  induction 1 as [|y l Hl IH Hy]; simpl; [repeat constructor|].
  unfold before at 1. case_bool_decide as Hlt.
  - constructor; [done|].
    rewrite stable_insert_Permutation. constructor; [unfold key_le; lia|done].
  - constructor; [by constructor|]. constructor; [unfold key_le; lia|].
    eapply Forall_impl; [exact Hy|]. unfold key_le. intros; lia.
Qed.

Lemma stable_sort_sorted l : StronglySorted key_le (stable_sort before l).
Proof.
  induction l as [|x l IH]; simpl; [constructor|]. by apply stable_insert_sorted.
Qed.

Lemma stable_sort_of_sorted l :
  StronglySorted key_le l → stable_sort before l = l.
Proof.
  induction 1 as [|x l Hl IH Hx]; simpl; [done|].
  rewrite IH. by apply stable_insert_front.
Qed.

(** Sorting and filtering commute: the sort moves no element across
    another one of the same or of a smaller key. *)
Lemma filter_stable_insert (P : A → Prop) `{∀ a, Decision (P a)} x l :
  StronglySorted key_le l →
  filter P (stable_insert before x l)
  = if decide (P x) then stable_insert before x (filter P l) else filter P l.
Proof.
  induction 1 as [|y l Hl IH Hy]; simpl.
  { rewrite filter_cons. by destruct (decide (P x)). }
  unfold before at 1. case_bool_decide as Hlt.
  - rewrite !filter_cons, IH.
    destruct (decide (P x)), (decide (P y)); simpl; try done.
    unfold before at 2. by rewrite bool_decide_true.
  - rewrite (filter_cons _ x). destruct (decide (P x)); [|done].
    symmetry. apply stable_insert_front.
    apply Forall_forall. intros z [_ Hz]%list_elem_of_filter.
    apply elem_of_cons in Hz as [->|Hz]; [unfold key_le; lia|].
    rewrite Forall_forall in Hy. specialize (Hy z Hz). unfold key_le in *. lia.
Qed.

Lemma filter_stable_sort (P : A → Prop) `{∀ a, Decision (P a)} l :
  filter P (stable_sort before l) = stable_sort before (filter P l).
Proof.
  induction l as [|x l IH]; simpl; [done|].
  rewrite filter_stable_insert by apply stable_sort_sorted.
  rewrite filter_cons. destruct (decide (P x)); simpl; by rewrite IH.
Qed.

(** Stability: the elements of one key keep their order. *)
Lemma stable_sort_stable k l :
  filter (λ a, key a = k) (stable_sort before l) = filter (λ a, key a = k) l.
Proof.
  rewrite filter_stable_sort. apply stable_sort_of_sorted.
  induction l as [|x l IH]; [constructor|].
  rewrite filter_cons. case_decide as Hk; [|done].
  constructor; [done|]. apply Forall_forall.
  intros z [Hzk _]%list_elem_of_filter. unfold key_le. lia.
Qed.
End stable_sort.

Lemma stable_insert_fmap {A B : Type} (f : A → B) (lta : A → A → bool)
    (ltb : B → B → bool) x s :
  (∀ a b, ltb (f a) (f b) = lta a b) →
  stable_insert ltb (f x) (f <$> s) = f <$> stable_insert lta x s.
Proof.
  intros Hf. induction s as [|y s IHs]; csimpl; [done|].
  rewrite Hf. destruct (lta y x); csimpl; [by rewrite IHs|done].
Qed.

Lemma stable_sort_cons {A : Type} (lt : A → A → bool) x l :
  stable_sort lt (x :: l) = stable_insert lt x (stable_sort lt l).
Proof. done. Qed.

Lemma stable_sort_fmap {A B : Type} (f : A → B) (lta : A → A → bool)
    (ltb : B → B → bool) l :
  (∀ a b, ltb (f a) (f b) = lta a b) →
  stable_sort ltb (f <$> l) = f <$> stable_sort lta l.
Proof.
  intros Hf. induction l as [|x l IH]; [done|].
  rewrite fmap_cons, !stable_sort_cons, IH. by apply stable_insert_fmap.
Qed.

(** ** Trees in the store *)

Lemma tree_ind_strong (P : tree → Prop) :
  (∀ t name, P (Leaf t name)) →
  (∀ g children, Forall P children → P (Node g children)) →
  ∀ tr, P tr.
Proof.
  intros Hleaf Hnode. fix IH 1. intros [t name|g children]; [apply Hleaf|].
  apply Hnode. induction children as [|c children IHc]; constructor; [apply IH|apply IHc].
Qed.

Lemma ptrs_root_below tr : ptrs tr = root tr :: below tr.
Proof. by destruct tr. Qed.

Lemma elem_of_concat_ptrs (ts : list tree) tr p :
  tr ∈ ts → p ∈ ptrs tr → p ∈ concat (map ptrs ts).
Proof.
  intros Htr Hp. apply list_elem_of_In, in_concat. exists (ptrs tr).
  split; [|by apply list_elem_of_In]. apply in_map. by apply list_elem_of_In.
Qed.

Lemma models_root_Some w tr : models w tr → is_Some (heap w !! root tr).
Proof. destruct 1; simpl; eauto. Qed.

Lemma set_layout_v_offset_id it : set_layout_v_offset (layout_v_offset it) it = it.
Proof. by destruct it. Qed.

Lemma offsets_moved_refl R w : offsets_moved R w w.
Proof.
  split_and!; [done..|]. intros p. destruct (heap w !! p) as [it|] eqn:Hp; [|done].
  exists (layout_v_offset it). by rewrite set_layout_v_offset_id.
Qed.

Lemma offsets_moved_lookup R w w' p it :
  offsets_moved R w w' → heap w !! p = Some it →
  ∃ v, heap w' !! p = Some (set_layout_v_offset v it) ∧
       (p ∉ R → v = layout_v_offset it).
Proof. intros (_ & _ & H) Hp. specialize (H p). by rewrite Hp in H. Qed.

Lemma offsets_moved_lookup_out R w w' p :
  offsets_moved R w w' → p ∉ R → heap w' !! p = heap w !! p.
Proof.
  intros (_ & _ & H) Hp. specialize (H p). destruct (heap w !! p) as [it|]; [|done].
  destruct H as (v & -> & Hv). rewrite (Hv Hp). by rewrite set_layout_v_offset_id.
Qed.

Lemma offsets_moved_is_Some R w w' p :
  offsets_moved R w w' → is_Some (heap w' !! p) ↔ is_Some (heap w !! p).
Proof.
  intros (_ & _ & H). specialize (H p). destruct (heap w !! p) as [it|].
  - destruct H as (v & -> & _). split; eauto.
  - rewrite H. done.
Qed.

Lemma offsets_moved_items_of R w w' o :
  offsets_moved R w w' → items_of o w' = items_of o w.
Proof.
  intros Hm. destruct o as [|g]; simpl; [by destruct Hm as (-> & _)|].
  destruct (heap w !! g) as [it|] eqn:Hg.
  - destruct (offsets_moved_lookup _ _ _ _ _ Hm Hg) as (v & -> & _). done.
  - destruct Hm as (_ & _ & H). specialize (H g). rewrite Hg in H. by rewrite H.
Qed.

Lemma offsets_moved_child_items R w w' o :
  offsets_moved R w w' → trace_tree_child_items o w' = trace_tree_child_items o w.
Proof.
  intros Hm. unfold trace_tree_child_items.
  rewrite (offsets_moved_items_of _ _ _ _ Hm).
  destruct (items_of o w) as [l|]; simpl; [|done].
  apply option_guard_iff.
  split; intros H; (eapply Forall_impl; [exact H|]); intros p;
    by apply (offsets_moved_is_Some R w w').
Qed.

Lemma offsets_moved_update R w w' r it v :
  offsets_moved R w w' → r ∈ R → heap w' !! r = Some it →
  offsets_moved R w (with_heap (<[r := set_layout_v_offset v it]> (heap w')) w').
Proof.
  intros Hm Hr Hit. pose proof Hm as (Hv & Hs & H). split_and!; [done..|].
  intros p. specialize (H p). simpl. destruct (decide (r = p)) as [->|Hne].
  - rewrite lookup_insert_eq. destruct (heap w !! p) as [it0|]; [|congruence].
    destruct H as (v0 & Hw' & _). exists v. split; [|done].
    rewrite Hit in Hw'. injection Hw' as ->. done.
  - by rewrite lookup_insert_ne.
Qed.

(** The extents of an item depend on the offsets of the items below it,
    and on no other offset. *)
Lemma item_v_extents_moved R w w' tr :
  offsets_moved R w w' → models w tr →
  (∀ p, p ∈ below tr → p ∉ R) →
  ∀ n, item_v_extents n w' (root tr) = item_v_extents n w (root tr).
Proof.
  intros Hm. induction tr as [t name|g children IH] using tree_ind_strong;
    intros Hmod Hbelow [|n]; simpl; [done| |done|].
  - inversion Hmod as [? it ? e Hit Hk|]; subst.
    destruct (offsets_moved_lookup _ _ _ _ _ Hm Hit) as (v & -> & _).
    rewrite Hit. simpl. by rewrite Hk.
  - inversion Hmod as [|? it ? Hit Hk Hch]; subst.
    destruct (offsets_moved_lookup _ _ _ _ _ Hm Hit) as (v & -> & _).
    rewrite Hit. simpl. rewrite Hk. unfold v_extents_with.
    rewrite (offsets_moved_child_items _ _ _ _ Hm).
    destruct (trace_tree_child_items (OwnerGroup g) w) as [l|] eqn:Hl; simpl; [|done].
    assert (l = root <$> children) as ->.
    { unfold trace_tree_child_items in Hl. simpl in Hl. rewrite Hit in Hl.
      simpl in Hl. rewrite Hk in Hl. simpl in Hl. by case_guard; simplify_eq/=. }
    f_equal. apply for_each_ext. intros acc x Hx.
    apply list_elem_of_fmap in Hx as (c & -> & Hc).
    assert (root c ∈ below (Node g children)) as Hroot.
    { simpl. apply (elem_of_concat_ptrs _ c); [done|].
      rewrite ptrs_root_below. left. }
    unfold v_extents_step.
    rewrite (offsets_moved_lookup_out _ _ _ _ Hm (Hbelow _ Hroot)).
    destruct (heap w !! root c) as [itc|]; simpl; [|done].
    destruct (negb (enabled itc)); [done|].
    rewrite Forall_forall in IH, Hch. rewrite (IH c Hc (Hch c Hc)); [done|].
    intros p Hp. apply Hbelow. simpl. apply (elem_of_concat_ptrs _ c); [done|].
    rewrite ptrs_root_below. by right.
Qed.

Lemma for_each_is_Some {A S : Type} (body : S → A → option S) l s :
  (∀ s x, x ∈ l → is_Some (body s x)) → is_Some (for_each body l s).
Proof.
  revert s. induction l as [|x l IH]; intros s Hb; simpl; [eauto|].
  destruct (Hb s x) as [s' ->]; [left|]. simpl. apply IH.
  intros ???. apply Hb. by right.
Qed.

Lemma models_child_items w g children :
  models w (Node g children) →
  trace_tree_child_items (OwnerGroup g) w = Some (root <$> children).
Proof.
  inversion 1 as [|? it ? Hit Hk Hch]; subst.
  unfold trace_tree_child_items. simpl. rewrite Hit. simpl. rewrite Hk. simpl.
  rewrite option_guard_True; [done|]. apply Forall_fmap.
  eapply Forall_impl; [exact Hch|]. intros c. apply models_root_Some.
Qed.

(** With a budget above its depth, the extents of a tree are computed. *)
Lemma item_v_extents_total w tr :
  models w tr → ∀ n, (depth tr < n)%nat → is_Some (item_v_extents n w (root tr)).
Proof.
  induction tr as [t name|g children IH] using tree_ind_strong;
    intros Hmod [|n] Hn; simpl in *; [lia| |lia|].
  - inversion Hmod as [? it ? e Hit Hk|]; subst. rewrite Hit. simpl. rewrite Hk. eauto.
  - pose proof (models_child_items _ _ _ Hmod) as Hl.
    inversion Hmod as [|? it ? Hit Hk Hch]; subst.
    rewrite Hit. simpl. rewrite Hk. unfold v_extents_with. rewrite Hl. simpl.
    destruct (for_each_is_Some (v_extents_step (item_v_extents n w) w)
                (root <$> children) (false, (INT_MAX, INT_MIN))) as [[b e] ->].
    2:{ simpl. eauto. }
    intros acc x Hx. apply list_elem_of_fmap in Hx as (c & -> & Hc).
    rewrite Forall_forall in IH, Hch.
    destruct (models_root_Some _ _ (Hch c Hc)) as [itc Hitc].
    unfold v_extents_step. rewrite Hitc. simpl.
    destruct (negb (enabled itc)); [eauto|].
    destruct (IH c Hc (Hch c Hc) n) as [e ->]; [|simpl; eauto].
    assert (depth c ≤ max_list (map depth children))%nat; [|lia].
    apply max_list_elem_of_le. apply list_elem_of_In, in_map. by apply list_elem_of_In.
Qed.

Lemma root_in_concat_ptrs (ts : list tree) tr :
  tr ∈ ts → root tr ∈ concat (map ptrs ts).
Proof.
  intros Htr. apply (elem_of_concat_ptrs _ tr); [done|].
  rewrite ptrs_root_below. left.
Qed.

(** A tree is in the store by the items of the tree. *)
Lemma models_agree w w' tr :
  models w tr → (∀ p, p ∈ ptrs tr → heap w' !! p = heap w !! p) → models w' tr.
Proof.
  induction tr as [t name|g children IH] using tree_ind_strong; intros Hmod Hsame.
  - inversion Hmod as [? it ? e Hit Hk|]; subst.
    econstructor; [|done]. rewrite Hsame; [done|simpl; left].
  - inversion Hmod as [|? it ? Hit Hk Hch]; subst.
    econstructor; [rewrite Hsame; [done|simpl; left]|done|].
    rewrite Forall_forall in IH, Hch |- *. intros c Hc.
    apply IH; [done|by apply Hch|]. intros p Hp. apply Hsame. simpl. right.
    by apply (elem_of_concat_ptrs _ c).
Qed.

(** The extents of a tree are computed from the items of the tree. *)
Lemma item_v_extents_agree w w' tr :
  models w tr →
  (∀ p, p ∈ ptrs tr → heap w' !! p = heap w !! p) →
  ∀ n, item_v_extents n w' (root tr) = item_v_extents n w (root tr).
Proof.
  induction tr as [t name|g children IH] using tree_ind_strong;
    intros Hmod Hsame [|n]; simpl; [done| |done|].
  - inversion Hmod as [? it ? e Hit Hk|]; subst.
    rewrite Hsame by (simpl; left). rewrite Hit. simpl. by rewrite Hk.
  - pose proof (models_child_items _ _ _ Hmod) as Hl.
    inversion Hmod as [|? it ? Hit Hk Hch]; subst.
    assert (heap w' !! g = Some it) as Hit'.
    { rewrite Hsame; [done|simpl; left]. }
    assert (models w' (Node g children)) as Hmod' by (by apply (models_agree w)).
    rewrite Hit, Hit'. simpl. rewrite Hk. unfold v_extents_with.
    rewrite Hl, (models_child_items _ _ _ Hmod'). simpl.
    f_equal. apply for_each_ext. intros acc x Hx.
    apply list_elem_of_fmap in Hx as (c & -> & Hc).
    unfold v_extents_step. rewrite Hsame.
    2:{ simpl. right. by apply root_in_concat_ptrs. }
    destruct (heap w !! root c) as [itc|]; simpl; [|done].
    destruct (negb (enabled itc)); [done|].
    rewrite Forall_forall in IH, Hch. rewrite (IH c Hc (Hch c Hc)); [done|].
    intros p Hp. apply Hsame. simpl. right. by apply (elem_of_concat_ptrs _ c).
Qed.

(** ** Restacking: from the store to the children *)

Lemma offsets_moved_trans R w1 w2 w3 :
  offsets_moved R w1 w2 → offsets_moved R w2 w3 → offsets_moved R w1 w3.
Proof.
  intros (Hv1 & Hs1 & H1) (Hv2 & Hs2 & H2). split_and!; [congruence..|].
  intros p. specialize (H1 p). specialize (H2 p).
  destruct (heap w1 !! p) as [it|].
  - destruct H1 as (v1 & Hw2 & Hout1). rewrite Hw2 in H2.
    destruct H2 as (v2 & Hw3 & Hout2). exists v2. split; [by rewrite Hw3|].
    intros Hp. rewrite (Hout2 Hp). simpl. by apply Hout1.
  - by rewrite H1 in H2.
Qed.

Lemma offsets_moved_models R w w' tr :
  offsets_moved R w w' → models w tr → models w' tr.
Proof.
  intros Hm. induction tr as [t name|g children IH] using tree_ind_strong.
  - inversion 1 as [? it ? e Hit Hk|]; subst.
    destruct (offsets_moved_lookup _ _ _ _ _ Hm Hit) as (v & Hit' & _).
    by econstructor.
  - inversion 1 as [|? it ? Hit Hk Hch]; subst.
    destruct (offsets_moved_lookup _ _ _ _ _ Hm Hit) as (v & Hit' & _).
    econstructor; [done|done|].
    rewrite Forall_forall in IH, Hch |- *. intros c Hc. by apply IH, Hch.
Qed.

Lemma offsets_moved_owner_tree R w w' o ts :
  offsets_moved R w w' → owner_tree o w ts → owner_tree o w' ts.
Proof.
  intros Hm (Hl & Hmod & Hnd & Hg). split_and!; [|..|done|done].
  - by rewrite (offsets_moved_items_of _ _ _ _ Hm).
  - eapply Forall_impl; [exact Hmod|]. intros tr.
    by apply (offsets_moved_models R w w').
Qed.

Lemma owner_tree_children o w ts :
  owner_tree o w ts → trace_tree_child_items o w = Some (root <$> ts).
Proof.
  intros (Hl & Hmod & _). unfold trace_tree_child_items. rewrite Hl. simpl.
  rewrite option_guard_True; [done|]. apply Forall_fmap.
  eapply Forall_impl; [exact Hmod|]. intros c. apply models_root_Some.
Qed.

Lemma concat_ptrs_app (l1 l2 : list tree) :
  concat (map ptrs (l1 ++ l2)) = concat (map ptrs l1) ++ concat (map ptrs l2).
Proof. by rewrite map_app, concat_app. Qed.

Lemma forest_below_not_root (ts : list tree) tr p :
  NoDup (concat (map ptrs ts)) → tr ∈ ts → p ∈ below tr → p ∉ root <$> ts.
Proof.
  intros Hnd Htr Hp Hroot.
  apply list_elem_of_fmap in Hroot as (tr' & -> & Htr').
  apply list_elem_of_split in Htr as (l1 & l2 & ->).
  rewrite concat_ptrs_app in Hnd. simpl in Hnd.
  rewrite ptrs_root_below in Hnd.
  apply NoDup_app in Hnd as (Hnd1 & Hdisj1 & Hnd2).
  change ((root tr :: below tr) ++ concat (map ptrs l2))
    with (root tr :: (below tr ++ concat (map ptrs l2))) in *.
  apply NoDup_cons in Hnd2 as (Hr & Hnd2).
  apply NoDup_app in Hnd2 as (_ & Hdisj2 & _).
  apply elem_of_app in Htr' as [Hin|Hin].
  - apply (Hdisj1 (root tr')); [by apply root_in_concat_ptrs|].
    right. apply elem_of_app. by left.
  - apply elem_of_cons in Hin as [->|Hin].
    + apply Hr. apply elem_of_app. by left.
    + apply (Hdisj2 (root tr')); [done|]. by apply root_in_concat_ptrs.
Qed.

Lemma forest_roots_NoDup (ts : list tree) :
  NoDup (concat (map ptrs ts)) → NoDup (root <$> ts).
Proof.
  induction ts as [|tr ts IH]; simpl; [constructor|].
  rewrite ptrs_root_below. intros Hnd.
  change ((root tr :: below tr) ++ concat (map ptrs ts))
    with (root tr :: (below tr ++ concat (map ptrs ts))) in Hnd.
  apply NoDup_cons in Hnd as (Hr & Hnd).
  apply NoDup_app in Hnd as (_ & _ & Hnd). constructor; [|by apply IH].
  intros Hin. apply Hr. apply elem_of_app. right.
  apply list_elem_of_fmap in Hin as (tr' & -> & Htr').
  by apply root_in_concat_ptrs.
Qed.

(** The extents of a child of a well-formed owner do not change when the
    offsets of the children change. *)
Lemma owner_tree_extents_stable n o w ts w' t :
  owner_tree o w ts → offsets_moved (root <$> ts) w w' → t ∈ root <$> ts →
  item_v_extents n w' t = item_v_extents n w t.
Proof.
  intros (_ & Hmod & Hnd & _) Hm Ht.
  apply list_elem_of_fmap in Ht as (tr & -> & Htr).
  rewrite Forall_forall in Hmod.
  apply (item_v_extents_moved _ _ _ _ Hm (Hmod _ Htr)).
  intros p Hp. by apply (forest_below_not_root ts tr).
Qed.

Lemma owner_tree_reads n o w ts :
  owner_tree o w ts → enough n ts →
  ∃ cs, reads n w cs ∧ cs_ptr <$> cs = root <$> ts.
Proof.
  intros (_ & Hmod & _). unfold enough, reads.
  induction ts as [|tr ts IH]; intros Hn.
  { exists []. split; [constructor|done]. }
  apply Forall_cons in Hmod as [Htr Hmod]. apply Forall_cons in Hn as [Hd Hn].
  destruct (IH Hmod Hn) as (cs & Hcs & Hptr).
  destruct (models_root_Some _ _ Htr) as [it Hit].
  destruct (item_v_extents_total _ _ Htr n Hd) as [e He].
  exists (mkChild (root tr) (layout_v_offset it) e (enabled it) (dragging it) :: cs).
  split; [|by rewrite !fmap_cons, Hptr].
  constructor; [|done]. unfold child_state_of. simpl. rewrite Hit. simpl.
  by rewrite He.
Qed.

Lemma with_heap_id w : with_heap (heap w) w = w.
Proof. by destruct w. Qed.

Lemma alter_eq_insert (f : TraceTreeItem → TraceTreeItem)
    (h : gmap item_ptr TraceTreeItem) r it :
  h !! r = Some it → alter f r h = <[r := f it]> h.
Proof.
  intros Hr. apply map_eq. intros j. rewrite lookup_alter, lookup_insert.
  case_decide; subst; [by rewrite Hr|done].
Qed.

Lemma write_offsets_app l1 l2 w :
  write_offsets (l1 ++ l2) w = write_offsets l2 (write_offsets l1 w).
Proof. unfold write_offsets. simpl. by rewrite foldl_app. Qed.

Lemma cs_walk_cons c cs T :
  cs_walk (c :: cs) T = cs_walk [c] T ++ cs_walk cs (cs_total [c] T).
Proof.
  simpl. case_bool_decide; [done|].
  by destruct (cs_enabled c), (cs_dragging c).
Qed.

Lemma cs_total_cons c cs T : cs_total (c :: cs) T = cs_total cs (cs_total [c] T).
Proof. simpl. case_bool_decide; [done|]. by destruct (cs_enabled c). Qed.

Lemma child_state_of_Some n w t c :
  child_state_of n w t = Some c ↔
  ∃ it e, heap w !! t = Some it ∧ item_v_extents n w t = Some e ∧
          c = mkChild t (layout_v_offset it) e (enabled it) (dragging it).
Proof.
  unfold child_state_of. destruct (heap w !! t) as [it|]; simpl;
    [|split; [done|by intros (? & ? & ? & _)]].
  destruct (item_v_extents n w t) as [e|]; simpl;
    [|split; [done|by intros (? & ? & _ & ? & _)]].
  split.
  - intros [= <-]. by exists it, e.
  - by intros (? & ? & [= <-] & [= <-] & ->).
Qed.

(** One iteration of the loop, on the state of the child it visits. *)
Lemma restack_step_cs n w T c :
  child_state_of n w (cs_ptr c) = Some c →
  restack_step n (w, T) (cs_ptr c)
  = Some (write_offsets (cs_walk [c] T) w, cs_total [c] T).
Proof.
  intros (it & e & Hit & He & ->)%child_state_of_Some. simpl in *.
  unfold restack_step. rewrite Hit. simpl. rewrite He. simpl.
  unfold cs_zero. simpl.
  assert (∀ v, v = layout_v_offset it →
            write_offsets [mkChild (cs_ptr c) v e (enabled it) (dragging it)] w = w)
    as Hsame.
  { intros v ->. unfold write_offsets. simpl. rewrite alter_id; [apply with_heap_id|].
    intros x Hx. rewrite Hit in Hx. injection Hx as <-.
    apply set_layout_v_offset_id. }
  case_bool_decide; [by rewrite Hsame|].
  destruct (dragging it) eqn:Hdr; simpl.
  - rewrite Hsame by done. by destruct (enabled it).
  - rewrite (update_item_Some _ _ _ _ Hit). simpl. unfold write_offsets. simpl.
    rewrite (alter_eq_insert _ _ _ _ Hit). by destruct (enabled it).
Qed.

Lemma write_offsets_single_moved R w c it :
  cs_ptr c ∈ R → heap w !! cs_ptr c = Some it →
  offsets_moved R w (write_offsets [c] w).
Proof.
  intros Hr Hit. unfold write_offsets. simpl.
  rewrite (alter_eq_insert _ _ _ _ Hit).
  apply offsets_moved_update; [apply offsets_moved_refl|done..].
Qed.

Lemma cs_walk_single_ptr c T :
  ∃ c', cs_walk [c] T = [c'] ∧ cs_ptr c' = cs_ptr c ∧
        cs_extents c' = cs_extents c ∧ cs_enabled c' = cs_enabled c ∧
        cs_dragging c' = cs_dragging c.
Proof.
  simpl. case_bool_decide; [by exists c|].
  destruct (cs_dragging c) eqn:Hdr; simpl; (eexists; split; [done|]); by simpl.
Qed.

(** The loop of [restack_items] over the children [cs], started at the
    running total [T] in a state [w] that differs from [w0] in offsets of
    children only. *)
Lemma restack_loop_cs n R w0
    (Hstable : ∀ t w', t ∈ R → offsets_moved R w0 w' →
                       item_v_extents n w' t = item_v_extents n w0 t) :
  ∀ cs w T,
    offsets_moved R w0 w → reads n w cs →
    NoDup (cs_ptr <$> cs) → Forall (λ c, cs_ptr c ∈ R) cs →
    for_each (restack_step n) (cs_ptr <$> cs) (w, T)
    = Some (write_offsets (cs_walk cs T) w, cs_total cs T).
Proof.
  induction cs as [|c cs IH]; intros w T Hm Hreads Hnd HR.
  { simpl. unfold write_offsets. simpl. by rewrite with_heap_id. }
  apply Forall_cons in Hreads as [Hc Hreads]. apply Forall_cons in HR as [Hr HR].
  rewrite fmap_cons in Hnd |- *. apply NoDup_cons in Hnd as [Hnotin Hnd].
  cbn [for_each]. rewrite (restack_step_cs _ _ _ _ Hc). cbn [mbind option_bind].
  rewrite (cs_walk_cons c cs T), (cs_total_cons c cs T), write_offsets_app.
  set (w1 := write_offsets (cs_walk [c] T) w).
  assert (offsets_moved R w w1) as Hm1.
  { destruct (cs_walk_single_ptr c T) as (c' & Hw & Hp & _).
    apply child_state_of_Some in Hc as (it & e & Hit & _).
    unfold w1. rewrite Hw. apply (write_offsets_single_moved R w c' it); by rewrite Hp. }
  apply IH; [by eapply offsets_moved_trans|..|done|done].
  unfold reads in *. rewrite Forall_forall in Hreads, HR |- *. intros c2 Hc2.
  specialize (Hreads _ Hc2).
  apply child_state_of_Some in Hreads as (it2 & e2 & Hit2 & He2 & Heq).
  apply child_state_of_Some. exists it2, e2. split_and!; [|..|done].
  - rewrite <-Hit2. unfold w1, write_offsets.
    destruct (cs_walk_single_ptr c T) as (c' & -> & Hp & _). simpl.
    rewrite lookup_alter_ne; [done|]. rewrite Hp. intros Heq'. apply Hnotin.
    rewrite Heq'. apply list_elem_of_fmap. by exists c2.
  - rewrite (Hstable _ w1); [|by apply HR|by eapply offsets_moved_trans].
    rewrite <-He2. symmetry. apply Hstable; [by apply HR|done].
Qed.

Lemma center_line_child_state n w t :
  center_line n w t = cs_center <$> child_state_of n w t.
Proof.
  unfold center_line, child_state_of. destruct (heap w !! t) as [it|]; simpl; [|done].
  by destruct (item_v_extents n w t).
Qed.

Lemma reads_center_lines n w cs :
  reads n w cs → mapM (center_line n w) (cs_ptr <$> cs) = Some (cs_center <$> cs).
Proof.
  intros Hreads. apply mapM_Some, Forall2_fmap, Forall_Forall2_diag.
  eapply Forall_impl; [exact Hreads|]. intros c Hc. simpl.
  by rewrite center_line_child_state, Hc.
Qed.

Lemma zip_center_ptr (cs : list child_state) :
  zip (cs_center <$> cs) (cs_ptr <$> cs) = (λ c, (cs_center c, cs_ptr c)) <$> cs.
Proof. induction cs as [|c cs IH]; csimpl; [done|]. by rewrite IH. Qed.

(** The order of the visit is the stable sort of the children by their
    centre lines. *)
Lemma restack_order_cs n o w ts cs :
  owner_tree o w ts → reads n w cs → cs_ptr <$> cs = root <$> ts →
  restack_order n o w = Some (cs_ptr <$> stable_sort cs_before cs).
Proof.
  intros Hot Hreads Hptr. unfold restack_order.
  rewrite (owner_tree_children _ _ _ Hot). simpl. rewrite <-Hptr.
  rewrite (reads_center_lines _ _ _ Hreads). simpl. rewrite zip_center_ptr.
  rewrite (stable_sort_fmap _ cs_before center_lt) by done.
  by rewrite <-list_fmap_compose.
Qed.

Lemma cs_set_offset_id c : cs_set_offset (cs_offset c) c = c.
Proof. by destruct c. Qed.

Lemma cs_walk_same_but_offsets cs : ∀ T,
  Forall2 (λ c c', c' = cs_set_offset (cs_offset c') c) cs (cs_walk cs T).
Proof.
  induction cs as [|c cs IH]; intros T; simpl; [constructor|].
  case_bool_decide; [constructor; [by rewrite cs_set_offset_id|apply IH]|].
  constructor; [|apply IH]. destruct (cs_dragging c); simpl; [|done].
  by rewrite cs_set_offset_id.
Qed.

Lemma same_but_offsets_ptrs cs cs' :
  Forall2 (λ c c', c' = cs_set_offset (cs_offset c') c) cs cs' →
  cs_ptr <$> cs' = cs_ptr <$> cs.
Proof. induction 1 as [|c c' ?? Hc _ IH]; csimpl; [done|]. by rewrite IH, Hc. Qed.

Lemma cs_walk_ptrs cs T : cs_ptr <$> cs_walk cs T = cs_ptr <$> cs.
Proof. apply same_but_offsets_ptrs, cs_walk_same_but_offsets. Qed.

Lemma write_offsets_cons c cs w :
  write_offsets (c :: cs) w = write_offsets cs (write_offsets [c] w).
Proof. apply (write_offsets_app [c] cs). Qed.

Lemma write_offsets_moved R cs : ∀ w,
  Forall (λ c, cs_ptr c ∈ R) cs → offsets_moved R w (write_offsets cs w).
Proof.
  induction cs as [|c cs IH]; intros w HR.
  { unfold write_offsets. simpl. rewrite with_heap_id. apply offsets_moved_refl. }
  apply Forall_cons in HR as [Hr HR]. rewrite write_offsets_cons.
  eapply offsets_moved_trans; [|by apply IH].
  destruct (heap w !! cs_ptr c) as [it|] eqn:Hit.
  - by apply (write_offsets_single_moved R w c it).
  - unfold write_offsets. simpl. rewrite alter_id' by done. rewrite with_heap_id.
    apply offsets_moved_refl.
Qed.

Lemma write_offsets_lookup_out cs : ∀ w p,
  p ∉ cs_ptr <$> cs → heap (write_offsets cs w) !! p = heap w !! p.
Proof.
  induction cs as [|c cs IH]; intros w p Hp; [done|].
  rewrite fmap_cons in Hp. apply not_elem_of_cons in Hp as [Hne Hp].
  rewrite write_offsets_cons, IH by done. unfold write_offsets. simpl.
  by rewrite lookup_alter_ne.
Qed.

Lemma write_offsets_lookup_in cs : ∀ w c,
  NoDup (cs_ptr <$> cs) → c ∈ cs →
  heap (write_offsets cs w) !! cs_ptr c
  = set_layout_v_offset (cs_offset c) <$> heap w !! cs_ptr c.
Proof.
  induction cs as [|c0 cs IH]; intros w c Hnd Hc; [by apply elem_of_nil in Hc|].
  rewrite fmap_cons in Hnd. apply NoDup_cons in Hnd as [Hnotin Hnd].
  rewrite write_offsets_cons. apply elem_of_cons in Hc as [->|Hc].
  - rewrite write_offsets_lookup_out by done. unfold write_offsets. simpl.
    by rewrite lookup_alter_eq.
  - rewrite IH by done. unfold write_offsets. simpl.
    rewrite lookup_alter_ne; [done|]. intros Heq. apply Hnotin. rewrite Heq.
    apply list_elem_of_fmap. by exists c.
Qed.

(** After the offsets [cs'] are written, the children read as [cs']. *)
Lemma write_offsets_reads n R w cs cs'
    (Hstable : ∀ t w', t ∈ R → offsets_moved R w w' →
                       item_v_extents n w' t = item_v_extents n w t) :
  reads n w cs →
  Forall2 (λ c c', c' = cs_set_offset (cs_offset c') c) cs cs' →
  NoDup (cs_ptr <$> cs) → Forall (λ c, cs_ptr c ∈ R) cs →
  reads n (write_offsets cs' w) cs'.
Proof.
  intros Hreads Hsame Hnd HR.
  pose proof (same_but_offsets_ptrs _ _ Hsame) as Hptrs.
  assert (offsets_moved R w (write_offsets cs' w)) as Hm.
  { apply write_offsets_moved. apply Forall_forall. intros c' Hc'.
    assert (cs_ptr c' ∈ cs_ptr <$> cs) as Hin.
    { rewrite <-Hptrs. apply list_elem_of_fmap. by exists c'. }
    apply list_elem_of_fmap in Hin as (c & -> & Hc).
    rewrite Forall_forall in HR. by apply HR. }
  unfold reads. apply Forall_forall. intros c' Hc'.
  apply list_elem_of_lookup in Hc' as [i Hi].
  destruct (Forall2_lookup_r _ _ _ _ _ Hsame Hi) as (c & Hci & Hcc').
  assert (c ∈ cs) as Hc by (apply list_elem_of_lookup; eauto).
  assert (c' ∈ cs') as Hc' by (apply list_elem_of_lookup; eauto).
  unfold reads in Hreads. rewrite Forall_forall in Hreads, HR.
  pose proof (Hreads c Hc) as (it & e & Hit & He & Heq)%child_state_of_Some.
  assert (cs_ptr c' = cs_ptr c) as Hp by (by rewrite Hcc').
  apply child_state_of_Some. exists (set_layout_v_offset (cs_offset c') it), e.
  split_and!.
  - rewrite write_offsets_lookup_in; [|by rewrite Hptrs|done].
    rewrite Hp, Hit. done.
  - rewrite Hp, Hstable; [done|by apply HR|done].
  - rewrite Hcc', Heq. done.
Qed.

(** ** Restacking *)

Lemma cs_sorted_Permutation cs : stable_sort cs_before cs ≡ₚ cs.
Proof. apply (stable_sort_Permutation cs_center). Qed.

Lemma reads_Permutation n w cs cs' : cs ≡ₚ cs' → reads n w cs → reads n w cs'.
Proof. unfold reads. by intros ->. Qed.

(** [restack_items] on a well-formed owner writes the offsets that the
    walk over the sorted children computes, and changes nothing else. *)
Lemma restack_items_cs n o w ts cs :
  owner_tree o w ts → reads n w cs → cs_ptr <$> cs = root <$> ts →
  for_each (restack_step n) (cs_ptr <$> stable_sort cs_before cs) (w, 0)
  = Some (write_offsets (cs_restack cs) w, cs_total (stable_sort cs_before cs) 0) ∧
  restack_items n o w = Some (write_offsets (cs_restack cs) w) ∧
  reads n (write_offsets (cs_restack cs) w) (cs_restack cs) ∧
  offsets_moved (root <$> ts) w (write_offsets (cs_restack cs) w).
Proof.
  intros Hot Hreads Hptr.
  pose proof (cs_sorted_Permutation cs) as Hperm.
  assert (NoDup (cs_ptr <$> stable_sort cs_before cs)) as Hnd.
  { rewrite Hperm, Hptr. destruct Hot as (_ & _ & Hnd & _).
    by apply forest_roots_NoDup. }
  assert (Forall (λ c, cs_ptr c ∈ root <$> ts) (stable_sort cs_before cs)) as HR.
  { rewrite Hperm, <-Hptr. apply Forall_forall. intros c Hc.
    apply list_elem_of_fmap. by exists c. }
  assert (reads n w (stable_sort cs_before cs)) as Hreads'.
  { by apply (reads_Permutation n w cs). }
  assert (∀ t w', t ∈ root <$> ts → offsets_moved (root <$> ts) w w' →
                  item_v_extents n w' t = item_v_extents n w t) as Hstable.
  { intros t w' Ht Hm. by apply (owner_tree_extents_stable n o w ts). }
  pose proof (restack_loop_cs n (root <$> ts) w Hstable _ w 0
                (offsets_moved_refl _ _) Hreads' Hnd HR) as Hloop.
  split_and!.
  - done.
  - unfold restack_items. rewrite (restack_order_cs n o w ts cs) by done.
    simpl. unfold cs_restack. by rewrite Hloop.
  - apply (write_offsets_reads n (root <$> ts) w (stable_sort cs_before cs));
      [done|done|apply cs_walk_same_but_offsets|done|done].
  - apply write_offsets_moved. unfold cs_restack.
    apply Forall_forall. intros c' Hc'.
    assert (cs_ptr c' ∈ cs_ptr <$> cs_walk (stable_sort cs_before cs) 0) as Hin.
    { apply list_elem_of_fmap. by exists c'. }
    rewrite cs_walk_ptrs in Hin. apply list_elem_of_fmap in Hin as (c & -> & Hc).
    rewrite Forall_forall in HR. by apply HR.
Qed.

Lemma reads_center_line n w cs c :
  reads n w cs → c ∈ cs → center_line n w (cs_ptr c) = Some (cs_center c).
Proof.
  unfold reads. rewrite Forall_forall. intros Hreads Hc.
  by rewrite center_line_child_state, (Hreads c Hc).
Qed.

Lemma reads_filter_center n w k cs :
  reads n w cs →
  filter (λ t, center_line n w t = Some k) (cs_ptr <$> cs)
  = cs_ptr <$> filter (λ c, cs_center c = k) cs.
Proof.
  induction 1 as [|c cs Hc _ IH]; [done|].
  rewrite fmap_cons, !filter_cons, IH, center_line_child_state, Hc. simpl.
  destruct (decide (cs_center c = k)) as [->|Hne].
  - by rewrite decide_True.
  - rewrite decide_False; [done|congruence].
Qed.

Lemma reads_sorted_centers n w l :
  reads n w l →
  StronglySorted (λ a b, cs_center a ≤ cs_center b) l →
  StronglySorted
    (λ a b, ∃ ka kb, center_line n w a = Some ka ∧
                     center_line n w b = Some kb ∧ ka ≤ kb) (cs_ptr <$> l).
Proof.
  intros Hreads Hsorted. induction Hsorted as [|c l Hl IH Hc]; csimpl; constructor.
  - apply IH. unfold reads in *. by apply Forall_cons in Hreads as [_ ?].
  - apply Forall_fmap, Forall_forall. intros c' Hc'. simpl.
    exists (cs_center c), (cs_center c'). split_and!.
    + apply (reads_center_line n w (c :: l)); [done|left].
    + apply (reads_center_line n w (c :: l)); [done|by right].
    + rewrite Forall_forall in Hc. by apply Hc.
Qed.

(** The order of the visit: a permutation of the child list, ascending
    in the centre line that each child has at the start of the call, the
    children of one centre line in the order of the child list. *)
Lemma restack_order_sorted n o w ts cs :
  owner_tree o w ts → reads n w cs → cs_ptr <$> cs = root <$> ts →
  restack_order n o w = Some (cs_ptr <$> stable_sort cs_before cs) ∧
  cs_ptr <$> stable_sort cs_before cs ≡ₚ root <$> ts ∧
  StronglySorted
    (λ a b, ∃ ka kb, center_line n w a = Some ka ∧
                     center_line n w b = Some kb ∧ ka ≤ kb)
    (cs_ptr <$> stable_sort cs_before cs) ∧
  (∀ k, filter (λ t, center_line n w t = Some k) (cs_ptr <$> stable_sort cs_before cs)
        = filter (λ t, center_line n w t = Some k) (root <$> ts)).
Proof.
  intros Hot Hreads Hptr.
  pose proof (cs_sorted_Permutation cs) as Hperm.
  pose proof (reads_Permutation n w _ _ (symmetry Hperm) Hreads) as Hreads'.
  split_and!.
  - by apply (restack_order_cs n o w ts cs).
  - by rewrite Hperm, Hptr.
  - apply reads_sorted_centers; [done|]. apply (stable_sort_sorted cs_center).
  - intros k. rewrite <-Hptr, !reads_filter_center by done. f_equal.
    apply (stable_sort_stable cs_center).
Qed.

Lemma reads_after_write n R w0 w cs1 cs2
    (Hstable : ∀ t w', t ∈ R → offsets_moved R w0 w' →
                       item_v_extents n w' t = item_v_extents n w0 t) :
  offsets_moved R w0 w → reads n w cs2 →
  (∀ c, c ∈ cs2 → cs_ptr c ∉ cs_ptr <$> cs1) →
  Forall (λ c, cs_ptr c ∈ R) cs1 → Forall (λ c, cs_ptr c ∈ R) cs2 →
  reads n (write_offsets cs1 w) cs2.
Proof.
  intros Hm Hreads Hdisj HR1 HR2. unfold reads in *.
  rewrite Forall_forall in Hreads, HR2 |- *. intros c Hc.
  pose proof (Hreads c Hc) as (it & e & Hit & He & Heq)%child_state_of_Some.
  apply child_state_of_Some. exists it, e. split_and!; [..|done].
  - by rewrite write_offsets_lookup_out by (by apply Hdisj).
  - rewrite (Hstable _ (write_offsets cs1 w)); [|by apply HR2|].
    + rewrite <-He. symmetry. apply Hstable; [by apply HR2|done].
    + eapply offsets_moved_trans; [done|]. by apply write_offsets_moved.
Qed.

(** C7. A disabled child of non-zero extent that is not dragged: when
    the loop reaches it with the running total [total], it gets [total]
    as its offset and the loop goes on with the same [total]; the offset
    is the one it has when [restack_items] returns. *)
Theorem restack_items_disabled n o w ts d it e :
  owner_tree o w ts → enough n ts → d ∈ root <$> ts →
  heap w !! d = Some it → item_v_extents n w d = Some e →
  enabled it = false → dragging it = false → ¬ (e.1 = 0 ∧ e.2 = 0) →
  ∃ pre post w1 w2 w' total total',
    restack_order n o w = Some (pre ++ d :: post) ∧
    for_each (restack_step n) pre (w, 0) = Some (w1, total) ∧
    restack_step n (w1, total) d = Some (w2, total) ∧
    layout_v_offset <$> heap w2 !! d = Some total ∧
    for_each (restack_step n) post (w2, total) = Some (w', total') ∧
    restack_items n o w = Some w' ∧
    layout_v_offset <$> heap w' !! d = Some total.
Proof.
  intros Hot Hn Hd Hit He Hen Hdr Hnz.
  destruct (owner_tree_reads n o w ts Hot Hn) as (cs & Hreads & Hptr).
  pose proof (cs_sorted_Permutation cs) as Hperm.
  pose proof (reads_Permutation n w _ _ (symmetry Hperm) Hreads) as HreadsS.
  pose proof (restack_order_cs n o w ts cs Hot Hreads Hptr) as Horder.
  assert (NoDup (cs_ptr <$> stable_sort cs_before cs)) as Hnd.
  { rewrite Hperm, Hptr. destruct Hot as (_ & _ & Hnd & _).
    by apply forest_roots_NoDup. }
  assert (Forall (λ c, cs_ptr c ∈ root <$> ts) (stable_sort cs_before cs)) as HR.
  { rewrite Hperm, <-Hptr. apply Forall_forall. intros c Hc.
    apply list_elem_of_fmap. by exists c. }
  assert (∀ t w', t ∈ root <$> ts → offsets_moved (root <$> ts) w w' →
                  item_v_extents n w' t = item_v_extents n w t) as Hstable.
  { intros t w' Ht Hm. by apply (owner_tree_extents_stable n o w ts). }
  assert (d ∈ cs_ptr <$> stable_sort cs_before cs) as Hd'.
  { by rewrite Hperm, Hptr. }
  apply list_elem_of_fmap in Hd' as (cd & -> & Hcd).
  apply list_elem_of_split in Hcd as (s1 & s2 & HS).
  revert HreadsS Horder Hnd HR. rewrite HS. intros HreadsS Horder Hnd HR.
  rewrite fmap_app, fmap_cons in Hnd, Horder.
  apply NoDup_app in Hnd as (Hnd1 & Hdisj & Hnd2).
  apply NoDup_cons in Hnd2 as (Hcd2 & Hnd2).
  apply Forall_app in HR as [HR1 HR2]. apply Forall_cons in HR2 as [HRd HR2].
  unfold reads in HreadsS. apply Forall_app in HreadsS as [Hr1 Hr2].
  pose proof Hr2 as Hr2'. apply Forall_cons in Hr2 as [Hrd Hr2].
  pose proof Hrd as (it' & e' & Hit' & He' & Hcdeq)%child_state_of_Some.
  rewrite Hit in Hit'. injection Hit' as <-. rewrite He in He'. injection He' as <-.
  assert (cs_enabled cd = false ∧ cs_dragging cd = false ∧ cs_extents cd = e)
    as (Hcen & Hcdr & Hce) by (by rewrite Hcdeq).
  (* the children before [d] *)
  pose proof (restack_loop_cs n (root <$> ts) w Hstable s1 w 0
                (offsets_moved_refl _ _) Hr1 Hnd1 HR1) as Hloop1.
  set (w1 := write_offsets (cs_walk s1 0) w) in *.
  set (T := cs_total s1 0) in *.
  assert (offsets_moved (root <$> ts) w w1) as Hm1.
  { apply write_offsets_moved. apply Forall_forall. intros c' Hc'.
    assert (cs_ptr c' ∈ cs_ptr <$> cs_walk s1 0) as Hin.
    { apply list_elem_of_fmap. by exists c'. }
    rewrite cs_walk_ptrs in Hin. apply list_elem_of_fmap in Hin as (c & -> & Hc).
    rewrite Forall_forall in HR1. by apply HR1. }
  assert (reads n w1 (cd :: s2)) as Hreads1.
  { apply (reads_after_write n (root <$> ts) w w (cs_walk s1 0) (cd :: s2) Hstable);
      [apply offsets_moved_refl|done| |..].
    - intros c Hc Hin. rewrite cs_walk_ptrs in Hin. apply (Hdisj _ Hin).
      rewrite <-fmap_cons. apply list_elem_of_fmap. by exists c.
    - apply Forall_forall. intros c' Hc'.
      assert (cs_ptr c' ∈ cs_ptr <$> cs_walk s1 0) as Hin.
      { apply list_elem_of_fmap. by exists c'. }
      rewrite cs_walk_ptrs in Hin. apply list_elem_of_fmap in Hin as (c & -> & Hc).
      rewrite Forall_forall in HR1. by apply HR1.
    - by constructor. }
  (* the whole rest of the loop, and its first iteration *)
  pose proof (restack_loop_cs n (root <$> ts) w Hstable (cd :: s2) w1 T
                Hm1 Hreads1 ltac:(by rewrite fmap_cons; constructor)
                ltac:(by constructor)) as Hloop2.
  rewrite fmap_cons in Hloop2. cbn [for_each] in Hloop2.
  apply Forall_cons in Hreads1 as [Hrd1 _].
  rewrite (restack_step_cs n w1 T cd Hrd1) in Hloop2. cbn [mbind option_bind] in Hloop2.
  assert (cs_walk [cd] T = [cs_set_offset T cd] ∧ cs_total [cd] T = T) as [HwT HtT].
  { simpl. unfold cs_zero. rewrite Hce, Hcen, Hcdr.
    rewrite bool_decide_false by done. done. }
  rewrite HwT, HtT in Hloop2.
  set (w2 := write_offsets [cs_set_offset T cd] w1) in *.
  assert (heap w1 !! cs_ptr cd = Some it) as Hitw1.
  { unfold w1. rewrite write_offsets_lookup_out; [done|].
    rewrite cs_walk_ptrs. intros Hin. apply (Hdisj _ Hin). left. }
  assert (layout_v_offset <$> heap w2 !! cs_ptr cd = Some T) as Hoff2.
  { unfold w2.
    rewrite (write_offsets_lookup_in [cs_set_offset T cd] w1 (cs_set_offset T cd) : _ → _ →
               heap _ !! cs_ptr cd = _); [|apply NoDup_singleton|left].
    change (cs_ptr (cs_set_offset T cd)) with (cs_ptr cd). by rewrite Hitw1. }
  eexists (cs_ptr <$> s1), (cs_ptr <$> s2), w1, w2, _, T, _. split_and!.
  - exact Horder.
  - exact Hloop1.
  - rewrite (restack_step_cs n w1 T cd Hrd1). by rewrite HwT, HtT.
  - exact Hoff2.
  - exact Hloop2.
  - unfold restack_items. rewrite Horder. cbn [mbind option_bind].
    rewrite for_each_app, Hloop1. cbn [mbind option_bind for_each].
    rewrite (restack_step_cs n w1 T cd Hrd1). cbn [mbind option_bind].
    rewrite HwT, HtT. fold w2. by rewrite Hloop2.
  - rewrite (cs_walk_cons cd s2 T), HwT, HtT. simpl app.
    rewrite write_offsets_cons. fold w2.
    rewrite write_offsets_lookup_out; [done|]. by rewrite cs_walk_ptrs.
Qed.

(** *** A child of zero extent *)

Lemma filter_fmap_comm {A B : Type} (f : A → B) (P : B → Prop) (Q : A → Prop)
    `{∀ b, Decision (P b)} `{∀ a, Decision (Q a)} (l : list A) :
  (∀ a, Q a ↔ P (f a)) → filter P (f <$> l) = f <$> filter Q l.
Proof.
  intros HPQ. induction l as [|x l IH]; [done|].
  rewrite fmap_cons, !filter_cons, IH.
  destruct (decide (P (f x))) as [HP|HP], (decide (Q x)) as [HQ|HQ];
    [done|by apply HPQ in HP|by apply HPQ in HQ|done].
Qed.

Lemma cs_walk_filter (P : child_state → Prop) `{∀ c, Decision (P c)} l :
  (∀ c v, P (cs_set_offset v c) ↔ P c) →
  (∀ c, c ∈ l → ¬ P c → cs_zero c) →
  ∀ T, cs_walk (filter P l) T = filter P (cs_walk l T).
Proof.
  intros HP. induction l as [|c l IH]; intros Hz T; [done|].
  assert (∀ c, c ∈ l → ¬ P c → cs_zero c) as Hz'.
  { intros c' Hc'. apply Hz. by right. }
  rewrite filter_cons. destruct (decide (P c)) as [HPc|HPc].
  - simpl. case_bool_decide.
    + rewrite filter_cons, decide_True by done. by rewrite IH.
    + rewrite filter_cons, decide_True, IH; [done..|].
      destruct (cs_dragging c); simpl; [done|]. by apply HP.
  - simpl. rewrite bool_decide_true by (apply Hz; [left|done]).
    rewrite filter_cons, decide_False by done. by apply IH.
Qed.

Lemma cs_walk_zero_unchanged l : ∀ T c,
  c ∈ cs_walk l T → cs_zero c → c ∈ l.
Proof.
  induction l as [|c0 l IH]; intros T c; simpl; [done|].
  case_bool_decide as Hz0.
  - intros [->|Hin]%elem_of_cons Hz; [left|right; by eapply IH].
  - intros [->|Hin]%elem_of_cons Hz; [|right; by eapply IH].
    exfalso. apply Hz0. by destruct (cs_dragging c0).
Qed.

Lemma forest_filter_NoDup (P : tree → Prop) `{∀ tr, Decision (P tr)} (ts : list tree) :
  NoDup (concat (map ptrs ts)) → NoDup (concat (map ptrs (filter P ts))).
Proof.
  induction ts as [|tr ts IH]; simpl; [done|].
  intros (Hnd1 & Hdisj & Hnd2)%NoDup_app. rewrite filter_cons.
  destruct (decide (P tr)) as [HP|HP]; [|by apply IH]. simpl.
  apply NoDup_app. split_and!; [done| |by apply IH].
  intros p Hp Hin. apply (Hdisj p Hp).
  apply list_elem_of_In, in_concat in Hin as (l & Hl & Hpl).
  apply in_map_iff in Hl as (tr' & <- & Htr').
  apply list_elem_of_In, list_elem_of_filter in Htr' as [_ Htr'].
  apply (elem_of_concat_ptrs _ tr'); [done|by apply list_elem_of_In].
Qed.

Lemma forest_filter_subset (P : tree → Prop) `{∀ tr, Decision (P tr)}
    (ts : list tree) p :
  p ∈ concat (map ptrs (filter P ts)) → p ∈ concat (map ptrs ts).
Proof.
  intros Hin. apply list_elem_of_In, in_concat in Hin as (l & Hl & Hpl).
  apply in_map_iff in Hl as (tr' & <- & Htr').
  apply list_elem_of_In, list_elem_of_filter in Htr' as [_ Htr'].
  apply (elem_of_concat_ptrs _ tr'); [done|by apply list_elem_of_In].
Qed.

(** The owner without the child [c]: the forest and the children read
    from it are those of [w] without [c]. *)
Lemma owner_tree_without n o w ts cs c w_abs :
  owner_tree o w ts → reads n w cs → cs_ptr <$> cs = root <$> ts →
  set_items o (filter (λ t, t ≠ c) (root <$> ts)) w = Some w_abs →
  let ts' := filter (λ tr, root tr ≠ c) ts in
  let cs' := filter (λ x, cs_ptr x ≠ c) cs in
  owner_tree o w_abs ts' ∧ reads n w_abs cs' ∧ cs_ptr <$> cs' = root <$> ts' ∧
  (∀ t, t ∈ root <$> ts → heap w_abs !! t = heap w !! t) ∧
  (∀ t, layout_v_offset <$> heap w_abs !! t = layout_v_offset <$> heap w !! t).
Proof.
  intros Hot Hreads Hptr Hset ts' cs'.
  pose proof Hot as (Hl & Hmod & Hnd & Hg).
  destruct (set_items_Some o w _ (filter (λ t, t ≠ c) (root <$> ts)) Hl)
    as (w2 & Hset2 & Hl2 & _ & _ & _ & Hfr & Hoff).
  rewrite Hset in Hset2. injection Hset2 as <-.
  assert (∀ p, p ∈ concat (map ptrs ts) → heap w_abs !! p = heap w !! p) as Hsame.
  { intros p Hp. apply Hfr. intros Heq. by apply (Hg p). }
  assert (∀ t, t ∈ root <$> ts → heap w_abs !! t = heap w !! t) as Hsame_root.
  { intros t (tr & -> & Htr)%list_elem_of_fmap. apply Hsame.
    by apply root_in_concat_ptrs. }
  assert (owner_tree o w_abs ts') as Hot'.
  { split_and!.
    - rewrite Hl2. unfold ts'. f_equal. by apply filter_fmap_comm.
    - apply Forall_forall. intros tr [_ Htr]%list_elem_of_filter.
      rewrite Forall_forall in Hmod. apply (models_agree w); [by apply Hmod|].
      intros p Hp. apply Hsame. by apply (elem_of_concat_ptrs _ tr).
    - by apply forest_filter_NoDup.
    - intros g -> Hin. apply (Hg g eq_refl). by eapply forest_filter_subset. }
  split_and!; [done| | |done|done].
  - unfold reads, cs' in *. apply Forall_forall.
    intros x [_ Hx]%list_elem_of_filter. rewrite Forall_forall in Hreads.
    pose proof (Hreads x Hx) as (it & e & Hit & He & Heq)%child_state_of_Some.
    assert (cs_ptr x ∈ root <$> ts) as Hroot.
    { rewrite <-Hptr. apply list_elem_of_fmap. by exists x. }
    apply child_state_of_Some. exists it, e. split_and!; [..|done].
    + by rewrite Hsame_root.
    + apply list_elem_of_fmap in Hroot as (tr & Hrt & Htr). rewrite Hrt, <-He, Hrt.
      rewrite Forall_forall in Hmod. apply (item_v_extents_agree w); [by apply Hmod|].
      intros p Hp. apply Hsame. by apply (elem_of_concat_ptrs _ tr).
  - unfold cs', ts'.
    transitivity (filter (λ t, t ≠ c) (cs_ptr <$> cs));
      [symmetry; by apply filter_fmap_comm|].
    rewrite Hptr. by apply filter_fmap_comm.
Qed.

Lemma cs_restack_without n w cs c :
  reads n w cs → item_v_extents n w c = Some (0, 0) →
  cs_restack (filter (λ x, cs_ptr x ≠ c) cs)
  = filter (λ x, cs_ptr x ≠ c) (cs_restack cs).
Proof.
  intros Hreads Hzero. unfold cs_restack.
  pose proof (filter_stable_sort cs_center (λ x, cs_ptr x ≠ c) cs) as Hcomm.
  change (stable_sort _ (filter _ cs))
    with (stable_sort cs_before (filter (λ x, cs_ptr x ≠ c) cs)) in Hcomm.
  rewrite <-Hcomm. apply cs_walk_filter; [done|].
  intros x Hx Hnot. apply dec_stable in Hnot.
  assert (x ∈ cs) as Hxcs.
  { pose proof (stable_sort_Permutation cs_center cs) as Hperm. by rewrite <-Hperm. }
  unfold reads in Hreads. rewrite Forall_forall in Hreads.
  pose proof (Hreads x Hxcs) as (it & e & Hit & He & Heq)%child_state_of_Some.
  rewrite Hnot, Hzero in He. injection He as <-. by rewrite Heq.
Qed.

(** C6. A child whose extents are (0, 0) keeps its offset, and the
    offsets after [restack_items] are those that [restack_items] leaves
    when the child is taken out of the child list first. *)
Theorem restack_items_zero_extent n o w ts c :
  owner_tree o w ts → enough n ts →
  c ∈ root <$> ts → item_v_extents n w c = Some (0, 0) →
  ∃ w' w_abs w'',
    restack_items n o w = Some w' ∧
    set_items o (filter (λ t, t ≠ c) (root <$> ts)) w = Some w_abs ∧
    restack_items n o w_abs = Some w'' ∧
    layout_v_offset <$> heap w' !! c = layout_v_offset <$> heap w !! c ∧
    ∀ t, layout_v_offset <$> heap w'' !! t = layout_v_offset <$> heap w' !! t.
Proof.
  intros Hot Hn Hc Hzero.
  destruct (owner_tree_reads n o w ts Hot Hn) as (cs & Hreads & Hptr).
  destruct (restack_items_cs n o w ts cs Hot Hreads Hptr) as (_ & Hrest & _ & _).
  destruct (set_items_Some o w _ (filter (λ t, t ≠ c) (root <$> ts)) (proj1 Hot))
    as (w_abs & Hset & _).
  destruct (owner_tree_without n o w ts cs c w_abs Hot Hreads Hptr Hset)
    as (Hot' & Hreads' & Hptr' & Hsame & Hoff).
  destruct (restack_items_cs n o w_abs _ _ Hot' Hreads' Hptr') as (_ & Hrest' & _ & _).
  rewrite (cs_restack_without n w cs c Hreads Hzero) in Hrest'.
  set (A := cs_restack cs) in *.
  set (P := λ x : child_state, cs_ptr x ≠ c) in *.
  assert (cs_ptr <$> A = cs_ptr <$> stable_sort cs_before cs) as HptrA
    by apply cs_walk_ptrs.
  pose proof (cs_sorted_Permutation cs) as Hperm.
  assert (NoDup (cs_ptr <$> A)) as HndA.
  { rewrite HptrA, Hperm, Hptr. destruct Hot as (_ & _ & Hnd & _).
    by apply forest_roots_NoDup. }
  assert (cs_ptr <$> filter P A = filter (λ t, t ≠ c) (cs_ptr <$> A)) as HptrF.
  { symmetry. by apply filter_fmap_comm. }
  assert (NoDup (cs_ptr <$> filter P A)) as HndF.
  { rewrite HptrF. by apply NoDup_filter. }
  assert (∀ a, a ∈ A → cs_ptr a = c →
            layout_v_offset <$> heap (write_offsets A w) !! c
            = layout_v_offset <$> heap w !! c) as Hkeep.
  { intros a Ha Hpa. rewrite <-Hpa. rewrite write_offsets_lookup_in by done.
    unfold reads in Hreads. rewrite Forall_forall in Hreads.
    assert (a ∈ cs) as Hacs.
    { rewrite <-Hperm. apply (cs_walk_zero_unchanged _ 0); [done|].
      pose proof (cs_walk_same_but_offsets (stable_sort cs_before cs) 0) as Hsame2.
      apply list_elem_of_lookup in Ha as [i Hi].
      destruct (Forall2_lookup_r _ _ _ _ _ Hsame2 Hi) as (b & Hbi & Hab).
      assert (b ∈ cs) as Hb.
      { rewrite <-Hperm. apply list_elem_of_lookup. eauto. }
      pose proof (Hreads b Hb) as (itb & eb & Hitb & Heb & Hbeq)%child_state_of_Some.
      assert (cs_ptr b = c) as Hpb by (by rewrite <-Hpa, Hab).
      rewrite Hpb, Hzero in Heb. injection Heb as <-.
      unfold cs_zero. rewrite Hab, Hbeq. done. }
    pose proof (Hreads a Hacs) as (it & e & Hit & He & Heq)%child_state_of_Some.
    rewrite Hit. rewrite Heq. simpl. done. }
  exists (write_offsets A w), w_abs, (write_offsets (filter P A) w_abs).
  split_and!; [done..| |].
  - assert (c ∈ cs_ptr <$> A) as Hin by (by rewrite HptrA, Hperm, Hptr).
    apply list_elem_of_fmap in Hin as (a & Hpa & Ha). by apply (Hkeep a).
  - intros t. destruct (decide (t ∈ cs_ptr <$> A)) as [Hin|Hout].
    + apply list_elem_of_fmap in Hin as (a & -> & Ha).
      destruct (decide (cs_ptr a = c)) as [Hpa|Hpa].
      * rewrite Hpa, (Hkeep a Ha Hpa).
        rewrite write_offsets_lookup_out; [apply Hoff|].
        rewrite HptrF. intros [? _]%list_elem_of_filter. done.
      * assert (a ∈ filter P A) as HaF by (by apply list_elem_of_filter).
        rewrite !write_offsets_lookup_in by done.
        rewrite Hsame; [done|]. rewrite <-Hptr, <-Hperm, <-HptrA.
        apply list_elem_of_fmap. by exists a.
    + rewrite !write_offsets_lookup_out; [apply Hoff|done|].
      rewrite HptrF. intros [_ ?]%list_elem_of_filter. done.
Qed.

(** ** Restacking twice *)

Lemma quot2_inside a b : a + 2 ≤ b → a < (a + b) `quot` 2 < b.
Proof.
  intros Hab. pose proof (Z.quot_rem' (a + b) 2) as Hqr.
  destruct (Z_le_gt_dec 0 (a + b)) as [Hs|Hs].
  - pose proof (Z.rem_bound_pos (a + b) 2 Hs ltac:(lia)). lia.
  - pose proof (Z.rem_bound_pos_neg (a + b) 2 ltac:(lia) ltac:(lia)). lia.
Qed.

Lemma cs_walk_nonzero l T :
  cs_walk (filter cs_nonzero l) T = filter cs_nonzero (cs_walk l T).
Proof.
  apply cs_walk_filter; [done|]. intros c _ Hc. by apply dec_stable in Hc.
Qed.

Lemma cs_walk_idemp l : ∀ T, cs_walk (cs_walk l T) T = cs_walk l T.
Proof.
  induction l as [|c l IH]; intros T; [done|]. simpl.
  case_bool_decide as Hz; simpl.
  - rewrite bool_decide_true by done. by rewrite IH.
  - destruct (cs_dragging c) eqn:Hdr; simpl.
    + rewrite bool_decide_false by done. rewrite Hdr. simpl. by rewrite IH.
    + rewrite bool_decide_false by done. simpl. rewrite Hdr. simpl.
      by rewrite IH.
Qed.

Lemma cs_walk_fixed l : ∀ T,
  filter cs_nonzero (cs_walk l T) = filter cs_nonzero l → cs_walk l T = l.
Proof.
  induction l as [|c l IH]; intros T; [done|]. simpl.
  case_bool_decide as Hz.
  - rewrite !filter_cons, !decide_False by (unfold cs_nonzero; tauto).
    intros Heq. f_equal. by apply IH.
  - rewrite !filter_cons. rewrite (decide_True (P := cs_nonzero c)) by done.
    rewrite decide_True.
    2:{ unfold cs_nonzero, cs_zero in *. by destruct (cs_dragging c). }
    intros Heq. injection Heq as Hc Hl. rewrite Hc. f_equal. by apply IH.
Qed.

(** The walk puts the centre lines of plain children in ascending order,
    no two alike. *)
Lemma cs_walk_centers l : ∀ T,
  Forall cs_plain l →
  Forall (λ c, T < cs_center c) (filter cs_nonzero (cs_walk l T)) ∧
  StronglySorted cs_center_lt (filter cs_nonzero (cs_walk l T)).
Proof.
  induction l as [|c l IH]; intros T Hplain; simpl.
  { split; constructor. }
  apply Forall_cons in Hplain as [Hc Hplain].
  case_bool_decide as Hz.
  - rewrite filter_cons, decide_False by (unfold cs_nonzero; tauto). by apply IH.
  - destruct (Hc Hz) as (Hen & Hdr & Hh). rewrite Hen, Hdr. simpl.
    rewrite filter_cons, decide_True by done.
    destruct (IH (T + - (cs_extents c).1 + (cs_extents c).2) Hplain) as [Hlow Hsort].
    pose proof (quot2_inside _ _ Hh) as Hq.
    assert (T < cs_center (cs_set_offset (T + - (cs_extents c).1) c)
            < T + - (cs_extents c).1 + (cs_extents c).2) as Hcenter.
    { unfold cs_center. simpl. lia. }
    split.
    + constructor; [lia|]. eapply Forall_impl; [exact Hlow|]. simpl. intros; lia.
    + constructor; [done|]. eapply Forall_impl; [exact Hlow|].
      unfold cs_center_lt. simpl. intros; lia.
Qed.

Lemma StronglySorted_center_inj l x y :
  StronglySorted cs_center_lt l → x ∈ l → y ∈ l → cs_center x = cs_center y → x = y.
Proof.
  induction 1 as [|z l Hl IH Hz]; [by intros ?%elem_of_nil|].
  rewrite Forall_forall in Hz. unfold cs_center_lt in Hz.
  intros [->|Hx]%elem_of_cons [->|Hy]%elem_of_cons Heq; [done| | |by apply IH].
  - specialize (Hz _ Hy). lia.
  - specialize (Hz _ Hx). lia.
Qed.

Lemma StronglySorted_filter_le (P : child_state → Prop) `{∀ c, Decision (P c)} l :
  StronglySorted cs_center_le l → StronglySorted cs_center_le (filter P l).
Proof.
  induction 1 as [|z l Hl IH Hz]; [constructor|].
  rewrite filter_cons. case_decide; [|done]. constructor; [done|].
  apply Forall_forall. intros c [_ Hc]%list_elem_of_filter.
  rewrite Forall_forall in Hz. by apply Hz.
Qed.

Lemma StronglySorted_lt_le l :
  StronglySorted cs_center_lt l → StronglySorted cs_center_le l.
Proof.
  induction 1 as [|z l Hl IH Hz]; constructor; [done|].
  eapply Forall_impl; [exact Hz|]. unfold cs_center_lt, cs_center_le. intros; lia.
Qed.

(** Two lists of children read from one state are permutations of each
    other when their pointers are. *)
Lemma reads_ptrs_Permutation n w a b :
  reads n w a → reads n w b → cs_ptr <$> a ≡ₚ cs_ptr <$> b → a ≡ₚ b.
Proof.
  intros Ha Hb Hperm.
  set (g := λ t, default (mkChild t 0 (0, 0) false false) (child_state_of n w t)).
  assert (∀ l, reads n w l → g <$> (cs_ptr <$> l) = l) as Hg.
  { intros l Hl. rewrite <-list_fmap_compose. rewrite <-(list_fmap_id l) at 2.
    apply list_fmap_ext. intros i c Hc. simpl. unfold g.
    unfold reads in Hl. rewrite Forall_forall in Hl.
    rewrite (Hl c); [done|]. apply list_elem_of_lookup. eauto. }
  rewrite <-(Hg a Ha), <-(Hg b Hb). by rewrite Hperm.
Qed.

Lemma write_offsets_reads_id n w l : reads n w l → write_offsets l w = w.
Proof.
  induction 1 as [|c l Hc _ IH]; unfold write_offsets in *; simpl.
  { apply with_heap_id. }
  apply child_state_of_Some in Hc as (it & e & Hit & He & Heq).
  rewrite alter_id; [done|]. intros x Hx. rewrite Hit in Hx. injection Hx as <-.
  rewrite Heq. simpl. apply set_layout_v_offset_id.
Qed.

Lemma reads_plain n w ts cs :
  reads n w cs → cs_ptr <$> cs = root <$> ts →
  (∀ t it e, t ∈ root <$> ts → heap w !! t = Some it →
             item_v_extents n w t = Some e → ¬ (e.1 = 0 ∧ e.2 = 0) →
             enabled it = true ∧ dragging it = false ∧ e.1 + 2 ≤ e.2) →
  Forall cs_plain cs.
Proof.
  intros Hreads Hptr Hcond. apply Forall_forall. intros c Hc.
  unfold reads in Hreads. rewrite Forall_forall in Hreads.
  pose proof (Hreads c Hc) as (it & e & Hit & He & Heq)%child_state_of_Some.
  intros Hnz. rewrite Heq in Hnz |- *. simpl. apply (Hcond (cs_ptr c) it e); [|done..].
  rewrite <-Hptr. apply list_elem_of_fmap. by exists c.
Qed.

(** Two calls in a row, on the children alone: the second call reads
    the children as the first call left them, visits those of non-zero
    extent in the order of the first call, and returns the state it was
    given. *)
Lemma restack_twice_cs n o w ts cs :
  owner_tree o w ts → enough n ts →
  reads n w cs → cs_ptr <$> cs = root <$> ts → Forall cs_plain cs →
  restack_items n o w = Some (write_offsets (cs_restack cs) w) ∧
  owner_tree o (write_offsets (cs_restack cs) w) ts ∧
  ∃ cs1, reads n (write_offsets (cs_restack cs) w) cs1 ∧
         cs_ptr <$> cs1 = root <$> ts ∧
         cs1 ≡ₚ cs_restack cs ∧
         filter cs_nonzero (cs_restack cs)
         = filter cs_nonzero (stable_sort cs_before cs1) ∧
         restack_items n o (write_offsets (cs_restack cs) w)
         = Some (write_offsets (cs_restack cs) w).
Proof.
  intros Hot Hn Hreads Hptr Hplain.
  destruct (restack_items_cs n o w ts cs Hot Hreads Hptr)
    as (_ & Hfirst & HreadsA & Hmoved).
  set (S := stable_sort cs_before cs) in *.
  assert (S ≡ₚ cs) as HpermS by apply cs_sorted_Permutation.
  assert (Forall cs_plain S) as HplainS by (by rewrite HpermS).
  set (A := cs_restack cs) in *. set (w' := write_offsets A w) in *.
  pose proof (offsets_moved_owner_tree _ _ _ _ _ Hmoved Hot) as Hot'.
  destruct (owner_tree_reads n o w' ts Hot' Hn) as (cs1 & Hreads1 & Hptr1).
  destruct (restack_items_cs n o w' ts cs1 Hot' Hreads1 Hptr1) as (_ & Hsecond & _).
  set (S1 := stable_sort cs_before cs1) in *.
  assert (S1 ≡ₚ cs1) as HpermS1 by apply cs_sorted_Permutation.
  assert (cs1 ≡ₚ A) as HpermA.
  { apply (reads_ptrs_Permutation n w'); [done..|].
    unfold A, cs_restack. fold S. by rewrite cs_walk_ptrs, HpermS, Hptr1, Hptr. }
  assert (filter cs_nonzero A = filter cs_nonzero S1) as Hsame.
  { apply (StronglySorted_unique_strong cs_center_le).
    - intros x1 x2 Hx1 Hx2 Hle1 Hle2.
      apply (StronglySorted_center_inj (filter cs_nonzero A)); [| done | |].
      + by apply (cs_walk_centers S 0).
      + by rewrite <-HpermA, <-HpermS1.
      + unfold cs_center_le in *. lia.
    - apply StronglySorted_lt_le. by apply (cs_walk_centers S 0).
    - apply StronglySorted_filter_le. apply (stable_sort_sorted cs_center).
    - by rewrite <-HpermA, <-HpermS1. }
  assert (cs_restack cs1 = S1) as Hfixed.
  { unfold cs_restack. fold S1. apply cs_walk_fixed.
    rewrite <-cs_walk_nonzero, <-Hsame, cs_walk_nonzero.
    unfold A, cs_restack. fold S. by rewrite cs_walk_idemp. }
  split; [done|]. split; [done|]. exists cs1. split_and!; [done..|].
  rewrite Hsecond, Hfixed. f_equal.
  apply (write_offsets_reads_id n). by apply (reads_Permutation n w' cs1).
Qed.

(** *** The range of the sums *)

Lemma restack_ints_cs n o w ts cs :
  owner_tree o w ts → reads n w cs → cs_ptr <$> cs = root <$> ts →
  restack_ints n o w
  = Some (concat (center_ints <$> cs) ++ cs_walk_ints (stable_sort cs_before cs) 0).
Proof.
  intros Hot Hreads Hptr. unfold restack_ints.
  rewrite (owner_tree_children _ _ _ Hot). cbn [mbind option_bind].
  assert (mapM (child_state_of n w) (root <$> ts) = Some cs) as ->; [|done].
  rewrite <-Hptr. apply mapM_Some, Forall2_fmap_l, Forall_Forall2_diag. exact Hreads.
Qed.

Lemma Forall_concat_fmap {A B : Type} (P : B → Prop) (f : A → list B) (l : list A) :
  Forall P (concat (f <$> l)) ↔ Forall (λ x, Forall P (f x)) l.
Proof.
  induction l as [|x l IH]; [by split; constructor|].
  rewrite fmap_cons. cbn [concat]. by rewrite Forall_app, Forall_cons, IH.
Qed.

Lemma cs_walk_ints_nonzero l : ∀ T,
  cs_walk_ints (filter cs_nonzero l) T = cs_walk_ints l T.
Proof.
  induction l as [|c l IH]; intros T; [done|]. rewrite filter_cons.
  destruct (decide (cs_nonzero c)) as [Hnz|Hz]; cbn [cs_walk_ints].
  - rewrite !bool_decide_false by done. destruct (cs_enabled c); by rewrite IH.
  - apply dec_stable in Hz. by rewrite bool_decide_true by done.
Qed.

(** The sums of the loop do not depend on the offsets. *)
Lemma cs_walk_ints_walk l : ∀ T T',
  cs_walk_ints (cs_walk l T') T = cs_walk_ints l T.
Proof.
  induction l as [|c l IH]; intros T T'; [done|]. cbn [cs_walk].
  destruct (decide (cs_zero c)) as [Hz|Hnz].
  - rewrite bool_decide_true by done. cbn [cs_walk_ints].
    rewrite bool_decide_true by done. apply IH.
  - rewrite bool_decide_false by done. cbn [cs_walk_ints].
    assert (∀ c', cs_extents c' = cs_extents c → ¬ cs_zero c') as Hnz'.
    { intros c' He. unfold cs_zero. by rewrite He. }
    destruct (cs_dragging c), (cs_enabled c) eqn:Hen; cbn [negb];
      rewrite !bool_decide_false by (by apply Hnz'); cbn [cs_set_offset cs_enabled cs_extents];
      rewrite ?Hen; by rewrite IH.
Qed.

(** After the walk the comparator finds the plain children between the
    running totals, so that its sums fit when those of the walk do. *)
Lemma cs_walk_center_ints l : ∀ T,
  Forall cs_plain l → in_int_range T →
  Forall (λ c, Forall in_int_range (center_ints c)) l →
  Forall in_int_range (cs_walk_ints l T) →
  Forall (λ c, Forall in_int_range (center_ints c)) (cs_walk l T).
Proof.
  induction l as [|c l IH]; intros T Hplain HT Hl Hw; [constructor|].
  apply Forall_cons in Hplain as [Hc Hplain]. apply Forall_cons in Hl as [Hcl Hl].
  cbn [cs_walk cs_walk_ints] in *.
  destruct (decide (cs_zero c)) as [Hz|Hnz].
  - rewrite bool_decide_true in Hw |- * by done. constructor; [done|by apply IH].
  - rewrite bool_decide_false in Hw |- * by done.
    destruct (Hc Hnz) as (Hen & Hdr & Hh). rewrite Hen in Hw |- *. rewrite Hdr.
    cbn [negb]. apply Forall_app in Hw as [Hw3 Hw].
    apply Forall_cons in Hw3 as [_ [Hoff [HT' _]%Forall_cons]%Forall_cons].
    constructor; [|by apply IH].
    unfold center_ints in *. cbn [cs_set_offset cs_offset cs_extents].
    apply Forall_cons in Hcl as [_ [H1 [H2 [H12 _]%Forall_cons]%Forall_cons]%Forall_cons].
    pose proof (quot2_inside _ _ Hh) as Hq.
    repeat constructor; try done; unfold in_int_range in *; lia.
Qed.

(** C1, as the code has it. On a well-formed owner whose children of
    non-zero extent are all enabled, not dragged and at least 2 high
    ([min + 2 <= max]), and as long as no [int] of the call overflows, a
    second [restack_items] right after the first returns the state that
    the first returned: every offset stays.  No [int] of the second call
    overflows either. *)
Theorem restack_items_idempotent n o w ts :
  owner_tree o w ts → enough n ts →
  (∀ t it e, t ∈ root <$> ts → heap w !! t = Some it →
             item_v_extents n w t = Some e → ¬ (e.1 = 0 ∧ e.2 = 0) →
             enabled it = true ∧ dragging it = false ∧ e.1 + 2 ≤ e.2) →
  restack_in_range n o w →
  ∃ w', restack_items n o w = Some w' ∧
        restack_in_range n o w' ∧
        restack_items n o w' = Some w'.
Proof.
  intros Hot Hn Hcond Hrange.
  destruct (owner_tree_reads n o w ts Hot Hn) as (cs & Hreads & Hptr).
  pose proof (reads_plain n w ts cs Hreads Hptr Hcond) as Hplain.
  destruct (restack_twice_cs n o w ts cs Hot Hn Hreads Hptr Hplain)
    as (Hfirst & Hot' & cs1 & Hreads1 & Hptr1 & Hperm1 & Hsame & Hsecond).
  unfold restack_in_range in Hrange.
  rewrite (restack_ints_cs n o w ts cs Hot Hreads Hptr) in Hrange.
  apply Forall_app in Hrange as [Hkeys Hwalk]. apply Forall_concat_fmap in Hkeys.
  exists (write_offsets (cs_restack cs) w). split; [done|]. split; [|done].
  unfold restack_in_range.
  rewrite (restack_ints_cs n o _ ts cs1 Hot' Hreads1 Hptr1).
  apply Forall_app. split.
  - apply Forall_concat_fmap. rewrite Hperm1. unfold cs_restack.
    apply cs_walk_center_ints; [|by unfold in_int_range, INT_MIN, INT_MAX| |done].
    + by rewrite cs_sorted_Permutation.
    + by rewrite cs_sorted_Permutation.
  - rewrite <-cs_walk_ints_nonzero, <-Hsame, cs_walk_ints_nonzero.
    unfold cs_restack. by rewrite cs_walk_ints_walk.
Qed.

(** ** The example states *)

Lemma example_nested_tree : owner_tree OwnerView example_nested example_nested_forest.
Proof. solve_owner_tree. Qed.

Lemma example_disabled_tree : owner_tree OwnerView example_disabled example_flat_forest.
Proof. solve_owner_tree. Qed.

Lemma example_empty_group_tree :
  owner_tree OwnerView example_empty_group example_empty_group_forest.
Proof. solve_owner_tree. Qed.

Lemma example_nested_enough : enough 2 example_nested_forest.
Proof. compute_done. Qed.

(** C1 as stated does not hold: with a child that is being dragged, the
    second call moves the other child from 10 to 0. *)
Lemma restack_items_not_idempotent :
  ¬ (∀ n o w w1 w2,
       restack_items n o w = Some w1 → restack_items n o w1 = Some w2 →
       ∀ t, layout_v_offset <$> heap w2 !! t = layout_v_offset <$> heap w1 !! t).
Proof.
  intros H.
  pose (w1 := default example_dragged (restack_items 1 OwnerView example_dragged)).
  pose (w2 := default example_dragged (restack_items 1 OwnerView w1)).
  specialize (H 1%nat OwnerView example_dragged w1 w2 eq_refl eq_refl 1%positive).
  vm_compute in H. discriminate H.
Qed.

(** The same with a disabled child: its offset goes from 0 to 10. *)
Example restack_items_twice_disabled :
  ∃ w1 w2,
    restack_items 1 OwnerView example_disabled = Some w1 ∧
    restack_items 1 OwnerView w1 = Some w2 ∧
    layout_v_offset <$> heap w1 !! 2%positive = Some 0 ∧
    layout_v_offset <$> heap w2 !! 2%positive = Some 10.
Proof.
  eexists _, _. split; [vm_compute; reflexivity|].
  split; [vm_compute; reflexivity|]. split; vm_compute; reflexivity.
Qed.

(** The same with enabled children that are 1 high: after the first call
    the two centre lines are equal, and the second call visits the
    children in the order of the child list. *)
Example restack_items_twice_thin :
  ∃ w1 w2,
    restack_items 1 OwnerView example_thin = Some w1 ∧
    restack_items 1 OwnerView w1 = Some w2 ∧
    layout_v_offset <$> heap w1 !! 1%positive = Some 1 ∧
    layout_v_offset <$> heap w2 !! 1%positive = Some 0.
Proof.
  eexists _, _. split; [vm_compute; reflexivity|].
  split; [vm_compute; reflexivity|]. split; vm_compute; reflexivity.
Qed.

(** ** The theorems at the example states *)

Lemma restack_items_idempotent_witness :
  ∃ w', restack_items 2 OwnerView example_nested = Some w' ∧
        restack_in_range 2 OwnerView w' ∧
        restack_items 2 OwnerView w' = Some w'.
Proof.
  apply (restack_items_idempotent 2 OwnerView example_nested example_nested_forest
           example_nested_tree example_nested_enough).
  - intros t it e Ht Hit He _.
    apply elem_of_cons in Ht as [->|Ht];
      [|apply elem_of_cons in Ht as [->|Ht]; [|by apply elem_of_nil in Ht]];
      vm_compute in Hit; injection Hit as <-;
      vm_compute in He; injection He as <-; simpl; lia.
  - compute_done.
Defined.

Lemma restack_items_zero_extent_witness :
  ∃ w' w_abs w'',
    restack_items 2 OwnerView example_empty_group = Some w' ∧
    set_items OwnerView (filter (λ t, t ≠ 2%positive)
                           (root <$> example_empty_group_forest))
      example_empty_group = Some w_abs ∧
    restack_items 2 OwnerView w_abs = Some w'' ∧
    layout_v_offset <$> heap w' !! 2%positive
    = layout_v_offset <$> heap example_empty_group !! 2%positive ∧
    ∀ t, layout_v_offset <$> heap w'' !! t = layout_v_offset <$> heap w' !! t.
Proof.
  apply (restack_items_zero_extent 2 OwnerView example_empty_group
           example_empty_group_forest 2%positive example_empty_group_tree).
  - compute_done.
  - compute_done.
  - vm_compute. reflexivity.
Defined.

Lemma restack_items_disabled_witness :
  ∃ pre post w1 w2 w' total total',
    restack_order 1 OwnerView example_disabled = Some (pre ++ 2%positive :: post) ∧
    for_each (restack_step 1) pre (example_disabled, 0) = Some (w1, total) ∧
    restack_step 1 (w1, total) 2%positive = Some (w2, total) ∧
    layout_v_offset <$> heap w2 !! 2%positive = Some total ∧
    for_each (restack_step 1) post (w2, total) = Some (w', total') ∧
    restack_items 1 OwnerView example_disabled = Some w' ∧
    layout_v_offset <$> heap w' !! 2%positive = Some total.
Proof.
  apply (restack_items_disabled 1 OwnerView example_disabled example_flat_forest
           2%positive
           (example_trace "b" (0, 100) (Some OwnerView) false false 0) (0, 100)
           example_disabled_tree).
  - compute_done.
  - compute_done.
  - vm_compute. reflexivity.
  - vm_compute. reflexivity.
  - reflexivity.
  - reflexivity.
  - simpl. lia.
Defined.

(** The sums of a call on [example_tall] do not all fit an [int]: the
    running total reaches 2^31 at the second trace.  Such calls are
    outside the statements that ask for [restack_in_range]. *)
Example restack_in_range_tall :
  ¬ restack_in_range 1 OwnerView example_tall ∧
  restack_ints 1 OwnerView example_tall
  = Some [0; 0; 1073741824; 1073741824; 536870912;
          0; 0; 1073741824; 1073741824; 536870912;
          0; 0; 1073741824; 1073741824; 536870912;
          0; 0; 1073741824;
          0; 1073741824; 2147483648;
          0; 2147483648; 3221225472].
Proof. split; [compute_done|by vm_compute]. Qed.

(** ** Restoring: one numbered section *)

Lemma endGroup_beginGroup k s : endGroup (beginGroup k s) = s.
Proof.
  destruct s as [g v]. unfold endGroup, beginGroup. simpl.
  by rewrite removelast_last.
Qed.

Lemma make_shared_TraceGroup_fresh w :
  heap w !! (make_shared_TraceGroup w).1 = None ∧
  heap (make_shared_TraceGroup w).2 !! (make_shared_TraceGroup w).1
  = Some new_TraceGroup ∧
  (∀ q, q ≠ (make_shared_TraceGroup w).1 →
        heap (make_shared_TraceGroup w).2 !! q = heap w !! q) ∧
  view_items (make_shared_TraceGroup w).2 = view_items w.
Proof.
  unfold make_shared_TraceGroup. simpl. split_and!.
  - apply not_elem_of_dom. apply is_fresh.
  - by rewrite lookup_insert_eq.
  - intros q Hq. by rewrite lookup_insert_ne.
  - done.
Qed.

(** C10. A section with neither an ["items"] nor a ["trace"] key: the
    section returns with the state and the settings it was entered with,
    and the loop goes on with the next index. *)
Theorem restore_section_neither restore items o i settings w k :
  contains "items" (beginGroup (QString_number i) settings) = false →
  contains "trace" (beginGroup (QString_number i) settings) = false →
  restore_section restore items o i (settings, w) = Some (settings, w) ∧
  restore_loop (restore_section restore items o) (S k) i (settings, w)
  = restore_loop (restore_section restore items o) k (i + 1) (settings, w).
Proof.
  intros Hitems Htrace.
  assert (restore_section restore items o i (settings, w) = Some (settings, w)) as Hsec.
  { unfold restore_section. rewrite Hitems, Htrace. simpl.
    by rewrite endGroup_beginGroup. }
  split; [done|]. cbn [restore_loop]. by rewrite Hsec.
Qed.

Lemma restore_section_neither_witness :
  restore_section (restore_trace_tree 1 ∅) ∅ OwnerView 1
    (example_settings_empty_group, example_empty)
  = Some (example_settings_empty_group, example_empty) ∧
  restore_loop (restore_section (restore_trace_tree 1 ∅) ∅ OwnerView) 1 1
    (example_settings_empty_group, example_empty)
  = restore_loop (restore_section (restore_trace_tree 1 ∅) ∅ OwnerView) 0 (1 + 1)
      (example_settings_empty_group, example_empty).
Proof.
  apply (restore_section_neither (restore_trace_tree 1 ∅) ∅ OwnerView 1
           example_settings_empty_group example_empty 0).
  - vm_compute. reflexivity.
  - vm_compute. reflexivity.
Defined.

(** ** Saving *)

Lemma under_app p q k : q ≠ [] → under (p ++ q) k → under p k.
Proof.
  intros Hq (r & Hr & ->). exists (q ++ r). split; [|by rewrite app_assoc].
  by destruct q.
Qed.

Lemma under_key p key : under p (p ++ [key]).
Proof. exists [key]. by split. Qed.

Lemma under_section p i k : under (p ++ [QString_number i]) k → under p k.
Proof. by apply under_app. Qed.

Lemma under_sections_disjoint p (i j : nat) k :
  under (p ++ [QString_number (Z.of_nat i)]) k →
  under (p ++ [QString_number (Z.of_nat j)]) k → i = j.
Proof.
  intros (r1 & _ & ->) (r2 & _ & Heq).
  rewrite <-!app_assoc in Heq. apply app_inv_head in Heq. simpl in Heq.
  injection Heq as Heq _. unfold QString_number in Heq.
  apply (inj pretty) in Heq. lia.
Qed.

Lemma key_not_under_section p key i :
  ¬ under (p ++ [QString_number i]) (p ++ [key]).
Proof.
  intros (r & Hr & Heq). rewrite <-app_assoc in Heq. apply app_inv_head in Heq.
  simpl in Heq. injection Heq as _ Heq. by subst.
Qed.

Lemma forall_indexed_impl {A : Type} (P Q : nat → A → Prop) l : ∀ i,
  (∀ j x, (i ≤ j)%nat → x ∈ l → P j x → Q j x) →
  forall_indexed P i l → forall_indexed Q i l.
Proof.
  induction l as [|x l IH]; intros i HPQ; simpl; [done|].
  intros [Hx Hl]. split; [apply HPQ; [lia|left|done]|].
  apply IH; [|done]. intros j y Hj Hy. apply HPQ; [lia|by right].
Qed.



Lemma save_step_unfold child_save s i child :
  save_step child_save (s, i) child
  = (s' ← child_save child (beginGroup (QString_number i) s);
     Some (endGroup s', i + 1)).
Proof. done. Qed.





(** ** Restoring *)

Lemma add_child_item_heap o w x it l :
  heap w !! x = Some it → owner it = None → items_of o w = Some l →
  OwnerGroup x ≠ o →
  ∃ w', add_child_item o x w = Some w' ∧
        items_of o w' = Some (l ++ [x]) ∧
        heap w' !! x = Some (set_owner (Some o) it) ∧
        (∀ t, t ≠ x → OwnerGroup t ≠ o → heap w' !! t = heap w !! t) ∧
        (∀ t, is_Some (heap w !! t) → is_Some (heap w' !! t)) ∧
        (∀ g ito, o = OwnerGroup g → heap w !! g = Some ito →
                  heap w' !! g = Some (set_kind (TraceGroup (l ++ [x])) ito)) ∧
        (o ≠ OwnerView → view_items w' = view_items w).
Proof.
  intros Hx Hown Hl Hxo. unfold add_child_item. rewrite Hx. simpl.
  rewrite option_guard_True by done.
  rewrite (update_item_Some _ _ _ _ Hx). cbn [mbind option_bind].
  destruct o as [|g]; unfold items_of, set_items in *.
  - injection Hl as <-. eexists. split; [done|]. simpl. split_and!; try done.
    + by rewrite lookup_insert_eq.
    + intros t Ht _. by rewrite lookup_insert_ne.
    + intros t. destruct (decide (x = t)) as [->|].
      * rewrite lookup_insert_eq. eauto.
      * by rewrite lookup_insert_ne.
  - assert (x ≠ g) as Hxg by congruence.
    destruct (heap w !! g) as [ito|] eqn:Hg; [|done]. cbn [mbind option_bind] in Hl.
    destruct (kind ito) eqn:Hk; [done|]. injection Hl as ->.
    cbn [heap with_heap].
    rewrite lookup_insert_ne by done. rewrite Hg. cbn [mbind option_bind].
    rewrite Hk. cbn [mbind option_bind].
    eexists. split; [done|]. simpl. split_and!.
    + by rewrite lookup_insert_eq.
    + rewrite lookup_insert_ne by done. by rewrite lookup_insert_eq.
    + intros t Ht Htg. rewrite !lookup_insert_ne; [done|done|congruence].
    + intros t. destruct (decide (g = t)) as [->|]; [rewrite lookup_insert_eq; eauto|].
      rewrite lookup_insert_ne by done.
      destruct (decide (x = t)) as [->|]; [rewrite lookup_insert_eq; eauto|].
      by rewrite lookup_insert_ne.
    + intros g' ito' [= <-] Hg'. rewrite Hg in Hg'. injection Hg' as <-.
      by rewrite lookup_insert_eq.
    + done.
Qed.

Lemma kept_leaves_cons items tr ts :
  kept_leaves items (tr :: ts) = kept_leaves items [tr] ++ kept_leaves items ts.
Proof.
  unfold kept_leaves. simpl. destruct (prune items tr); simpl; [|done].
  by rewrite app_nil_r.
Qed.

Lemma kept_leaves_leaf items t name :
  kept_leaves items [Leaf t name] = option_list (items !! name).
Proof. unfold kept_leaves. simpl. by destruct (items !! name). Qed.

Lemma kept_leaves_node items g children :
  kept_leaves items [Node g children] = kept_leaves items children.
Proof.
  unfold kept_leaves. simpl. destruct (omap (prune items) children) eqn:Hl; simpl; [done|].
  by rewrite app_nil_r.
Qed.

Lemma loose_trace_not_owner w q o l :
  loose_trace w q → items_of o w = Some l → OwnerGroup q ≠ o.
Proof.
  intros (it & name & e & Hit & _ & Hk) Hl <-. simpl in Hl. rewrite Hit in Hl.
  simpl in Hl. by rewrite Hk in Hl.
Qed.

Lemma models_ptrs_Some w tr p : models w tr → p ∈ ptrs tr → is_Some (heap w !! p).
Proof.
  induction tr as [t name|g children IH] using tree_ind_strong; intros Hmod Hp.
  - inversion Hmod; subst. simpl in Hp. apply list_elem_of_singleton in Hp as ->. eauto.
  - inversion Hmod as [|? it ? Hit Hk Hch]; subst. simpl in Hp.
    apply elem_of_cons in Hp as [->|Hp]; [eauto|].
    apply list_elem_of_In, in_concat in Hp as (l & Hl & Hpl).
    apply in_map_iff in Hl as (c & <- & Hc). apply list_elem_of_In in Hc.
    rewrite Forall_forall in IH, Hch.
    apply (IH c Hc); [by apply Hch|by apply list_elem_of_In].
Qed.

Lemma forest_ptrs_Some w (ts : list tree) p :
  Forall (models w) ts → p ∈ concat (map ptrs ts) → is_Some (heap w !! p).
Proof.
  intros Hmod Hp. apply list_elem_of_In, in_concat in Hp as (l & Hl & Hpl).
  apply in_map_iff in Hl as (c & <- & Hc). apply list_elem_of_In in Hc.
  rewrite Forall_forall in Hmod.
  apply (models_ptrs_Some w c); [by apply Hmod|by apply list_elem_of_In].
Qed.

Lemma shape_depth_of_tree tr : shape_depth (shape_of_tree tr) = depth tr.
Proof.
  induction tr as [t name|g children IH] using tree_ind_strong; simpl; [done|].
  f_equal. rewrite map_map. f_equal. apply map_ext_in. intros c Hc.
  rewrite Forall_forall in IH. apply IH. by apply list_elem_of_In.
Qed.

Lemma max_list_omap_le {A : Type} (f : A → option shape) (d : A → nat) (l : list A) :
  (∀ x sh, x ∈ l → f x = Some sh → shape_depth sh ≤ d x)%nat →
  (max_list (map shape_depth (omap f l)) ≤ max_list (map d l))%nat.
Proof.
  induction l as [|x l IH]; intros Hf; simpl; [done|].
  assert (max_list (map shape_depth (omap f l)) ≤ max_list (map d l))%nat as IH'.
  { apply IH. intros y sh Hy. apply Hf. by right. }
  destruct (f x) as [sh|] eqn:Hfx; simpl.
  - pose proof (Hf x sh (list_elem_of_here _ _) Hfx).
    change (list_omap A shape f l) with (omap f l). lia.
  - change (list_omap A shape f l) with (omap f l). lia.
Qed.

Lemma prune_depth items tr sh :
  prune items tr = Some sh → (shape_depth sh ≤ depth tr)%nat.
Proof.
  revert sh. induction tr as [t name|g children IH] using tree_ind_strong;
    intros sh; simpl.
  - destruct (items !! name); simpl; [|done]. by intros [= <-].
  - destruct (omap (prune items) children) as [|sh0 l] eqn:Hl; [done|].
    intros [= <-]. cbn [shape_depth depth]. rewrite <-Hl.
    apply le_n_S. apply max_list_omap_le. intros c sh Hc Hsh.
    rewrite Forall_forall in IH. by apply (IH c Hc).
Qed.

Lemma restored_enough items n (ts ts' : list tree) :
  shape_of_tree <$> ts' = omap (prune items) ts →
  Forall (λ tr, (depth tr < n)%nat) ts → Forall (λ tr, (depth tr < n)%nat) ts'.
Proof.
  intros Hshape Hn. apply Forall_forall. intros tr' Htr'.
  assert (shape_of_tree tr' ∈ omap (prune items) ts) as Hin.
  { rewrite <-Hshape. apply list_elem_of_fmap. by exists tr'. }
  apply list_elem_of_omap in Hin as (tr & Htr & Hp).
  rewrite Forall_forall in Hn. specialize (Hn tr Htr).
  pose proof (prune_depth _ _ _ Hp) as Hd. rewrite shape_depth_of_tree in Hd. lia.
Qed.

Lemma set_kind_id it : set_kind (kind it) it = it.
Proof. by destruct it. Qed.

Lemma set_kind_id' it l : kind it = TraceGroup l → set_kind (TraceGroup l) it = it.
Proof. intros <-. apply set_kind_id. Qed.

Lemma restore_frame_refl K o w : restore_frame K o w w.
Proof.
  split_and!; [done..| |done]. intros g it l0 -> Hg Hk.
  exists l0. by rewrite <-Hk, set_kind_id.
Qed.

Lemma restore_frame_trans K1 K2 K o w w1 w2 :
  restore_frame K1 o w w1 → restore_frame K2 o w1 w2 →
  (∀ q, q ∈ K1 → q ∈ K) → (∀ q, q ∈ K2 → q ∈ K) →
  restore_frame K o w w2.
Proof.
  intros (Hf1 & Hd1 & Ho1 & Hv1) (Hf2 & Hd2 & Ho2 & Hv2) HK1 HK2. split_and!.
  - intros q it Hq HqK Hqo. apply Hf2; [|by auto..]. apply Hf1; by auto.
  - intros q Hq. by apply Hd2, Hd1.
  - intros g it l0 Ho Hg Hk. destruct (Ho1 g it l0 Ho Hg Hk) as (l1 & Hg1).
    destruct (Ho2 g _ l1 Ho Hg1 eq_refl) as (l2 & Hg2). exists l2. by rewrite Hg2.
  - intros Ho. rewrite Hv2, Hv1; done.
Qed.

Lemma contains_beginGroup key k s :
  contains key (beginGroup k s)
  = bool_decide (is_Some (values s !! ((group s ++ [k]) ++ [key]))).
Proof. done. Qed.

Lemma value_beginGroup key k s :
  value key (beginGroup k s) = default QInvalid (values s !! ((group s ++ [k]) ++ [key])).
Proof. done. Qed.

Lemma owner_not_in_forest o w facc p :
  owner_tree o w facc → p ∈ concat (map ptrs facc) → OwnerGroup p ≠ o.
Proof. intros (_ & _ & _ & Hg) Hp <-. by apply (Hg p). Qed.

(** A section that holds a leaf. *)
Lemma restore_section_leaf restore items o pfx t name (i : nat) s w facc :
  group s = pfx →
  stores_tree (values s) (pfx ++ [QString_number (Z.of_nat i)]) (Leaf t name) →
  owner_tree o w facc →
  Forall (loose_trace w) (kept_leaves items [Leaf t name]) →
  (∀ q, q ∈ kept_leaves items [Leaf t name] → q ∉ concat (map ptrs facc)) →
  ∃ w' fnew,
    restore_section restore items o (Z.of_nat i) (s, w) = Some (s, w') ∧
    owner_tree o w' (facc ++ fnew) ∧
    shape_of_tree <$> fnew = option_list (prune items (Leaf t name)) ∧
    restore_frame (kept_leaves items [Leaf t name]) o w w' ∧
    (∀ p, p ∈ concat (map ptrs fnew) →
          p ∈ kept_leaves items [Leaf t name] ∨ heap w !! p = None).
Proof.
  intros Hg [Hni Htr] Hot Hloose Hdisj. rewrite kept_leaves_leaf in *.
  unfold restore_section.
  rewrite !contains_beginGroup, value_beginGroup, Hg, Hni, Htr. simpl.
  destruct (items !! name) as [t'|] eqn:Hname; cbn [mbind option_bind option_list] in *.
  2:{ exists w, []. rewrite endGroup_beginGroup, app_nil_r.
      split_and!; [done..|apply restore_frame_refl|].
      by intros p ?%elem_of_nil. }
  apply Forall_cons in Hloose as [Ht' _].
  pose proof Hot as (Hitems & Hmod & Hnd & Hgo).
  pose proof (loose_trace_not_owner _ _ _ _ Ht' Hitems) as Hto.
  destruct Ht' as (it & name' & e & Hit & Hown & Hk).
  destruct (add_child_item_heap o w t' it _ Hit Hown Hitems Hto)
    as (w' & -> & Hitems' & Hit' & Hothers & Hdom & Hrec & Hview).
  cbn [mbind option_bind]. rewrite Hit'. cbn [mbind option_bind kind set_owner].
  rewrite Hk. cbn [mbind option_bind]. rewrite endGroup_beginGroup.
  assert (t' ∉ concat (map ptrs facc)) as Hnotin by (apply Hdisj; left).
  exists w', [Leaf t' name']. split_and!.
  - done.
  - split_and!.
    + by rewrite fmap_app.
    + apply Forall_app. split.
      * apply Forall_forall. intros tr Htr'. rewrite Forall_forall in Hmod.
        apply (models_agree w); [by apply Hmod|]. intros p Hp.
        assert (p ∈ concat (map ptrs facc)) as Hpin
          by (by apply (elem_of_concat_ptrs _ tr)).
        apply Hothers; [by intros ->|]. by eapply owner_not_in_forest.
      * constructor; [|constructor]. by econstructor.
    + rewrite concat_ptrs_app. simpl. apply NoDup_app. split_and!; [done| |].
      * intros p Hp [->|[]%elem_of_nil]%elem_of_cons. done.
      * apply NoDup_singleton.
    + intros g -> Hin. rewrite concat_ptrs_app in Hin. simpl in Hin.
      apply elem_of_app in Hin as [Hin|[->|[]%elem_of_nil]%elem_of_cons].
      * by apply (Hgo g).
      * done.
  - done.
  - split_and!.
    + intros q itq Hq Hqk Hqo. rewrite Hothers; [done| |done].
      intros ->. apply Hqk. left.
    + done.
    + intros g ito l0 Ho Hgl Hkl. eexists. by apply Hrec.
    + done.
  - simpl. intros p [->|[]%elem_of_nil]%elem_of_cons. left. left.
Qed.

Lemma loose_trace_agree w w' q :
  heap w' !! q = heap w !! q → loose_trace w q → loose_trace w' q.
Proof. intros Heq (it & name & e & Hit & ?). exists it, name, e. by rewrite Heq. Qed.

Lemma owner_tree_nil o w : items_of o w = Some [] → owner_tree o w [].
Proof.
  intros Hl. split_and!; [done|constructor|constructor|].
  by intros g _ ?%elem_of_nil.
Qed.

(** A section that holds a group. *)
Lemma restore_section_node n items (Hspec : restore_spec n items)
    o pfx g0 children (i : nat) s w facc :
  group s = pfx →
  stores_tree (values s) (pfx ++ [QString_number (Z.of_nat i)]) (Node g0 children) →
  (depth (Node g0 children) < n)%nat →
  owner_tree o w facc →
  Forall (loose_trace w) (kept_leaves items [Node g0 children]) →
  NoDup (kept_leaves items [Node g0 children]) →
  (∀ q, q ∈ kept_leaves items [Node g0 children] → q ∉ concat (map ptrs facc)) →
  ∃ w' fnew,
    restore_section (restore_trace_tree n items) items o (Z.of_nat i) (s, w)
    = Some (s, w') ∧
    owner_tree o w' (facc ++ fnew) ∧
    shape_of_tree <$> fnew = option_list (prune items (Node g0 children)) ∧
    restore_frame (kept_leaves items [Node g0 children]) o w w' ∧
    (∀ p, p ∈ concat (map ptrs fnew) →
          p ∈ kept_leaves items [Node g0 children] ∨ heap w !! p = None) ∧
    ∃ ch', child_items (OwnerGroup (make_shared_TraceGroup w).1) w'
           = Some (root <$> ch') ∧
           shape_of_tree <$> ch' = omap (prune items) children ∧
           fnew = (if decide (ch' = []) then []
                   else [Node (make_shared_TraceGroup w).1 ch']) ∧
           owner_of (make_shared_TraceGroup w).1 w'
           = (if decide (ch' = []) then None else Some o).
Proof.
  intros Hg Hst Hn Hot Hloose Hnd Hdisj. rewrite kept_leaves_node in *.
  set (K := kept_leaves items children) in *.
  pose proof Hot as (Hitems & Hmod & Hndf & Hgo).
  (* the new group *)
  destruct (make_shared_TraceGroup_fresh w) as (Hfresh & Hnew & Hsame_a & Hview_a).
  destruct (make_shared_TraceGroup w) as [g wa] eqn:Hmk. simpl in Hfresh, Hnew, Hsame_a, Hview_a.
  set (section := beginGroup (QString_number (Z.of_nat i)) s).
  assert (∀ q, is_Some (heap w !! q) → q ≠ g) as Hold.
  { intros q [itq Hq] ->. congruence. }
  assert (∀ q, q ∈ K → q ≠ g ∧ loose_trace wa q) as HK.
  { intros q Hq. rewrite Forall_forall in Hloose. pose proof (Hloose q Hq) as Hlq.
    assert (q ≠ g) as Hqg.
    { apply Hold. destruct Hlq as (itq & ? & ? & -> & _). eauto. }
    split; [done|]. apply (loose_trace_agree w); [by apply Hsame_a|done]. }
  (* the recursive call *)
  destruct (Hspec (OwnerGroup g) section wa children)
    as (wb & ch' & Hrestore & Hotb & Hshape & Hframe & Hptrs).
  { simpl in Hn. split; [lia|]. apply Forall_forall. intros c Hc.
    assert (depth c ≤ max_list (map depth children))%nat; [|lia].
    apply max_list_elem_of_le. apply list_elem_of_In, in_map. by apply list_elem_of_In. }
  { unfold section. simpl. rewrite Hg. exact Hst. }
  { simpl. by rewrite Hnew. }
  { apply Forall_forall. intros q Hq. by apply HK. }
  { done. }
  destruct Hframe as (Hfr1 & Hfr2 & Hfr3 & Hfr4).
  pose proof Hotb as (Hitemsb & Hmodb & Hndb & Hgb).
  (* what the call left alone *)
  assert (∀ q itq, heap w !! q = Some itq → q ∉ K → heap wb !! q = Some itq) as Hkeep.
  { intros q itq Hq HqK. apply Hfr1; [|done|].
    - rewrite Hsame_a; [done|]. apply Hold. eauto.
    - intros [= ->]. congruence. }
  assert (∀ q, q ∈ concat (map ptrs facc) → heap wb !! q = heap w !! q) as Hkeepf.
  { intros q Hq. destruct (forest_ptrs_Some w facc q Hmod Hq) as [itq Hitq].
    rewrite Hitq. apply Hkeep; [done|]. intros HqK. by apply (Hdisj q). }
  assert (∀ q, q ∈ K → OwnerGroup q ≠ o) as HKo.
  { intros q Hq. rewrite Forall_forall in Hloose.
    by apply (loose_trace_not_owner w q o _ (Hloose q Hq) Hitems). }
  assert (items_of o wb = Some (root <$> facc)) as Hitems_o.
  { destruct o as [|go]; simpl in *.
    - rewrite Hfr4 by done. by rewrite Hview_a.
    - destruct (heap w !! go) as [ito|] eqn:Hgo'; [|done].
      rewrite (Hkeep go ito Hgo'); [done|]. intros Hin. by apply (HKo go). }
  assert (∀ p, p ∈ concat (map ptrs ch') → p ≠ g ∧ OwnerGroup p ≠ o ∧
               p ∉ concat (map ptrs facc)) as Hch'.
  { intros p Hp. split_and!.
    - intros ->. by apply (Hgb g).
    - destruct (Hptrs p Hp) as [HpK|Hnone]; [by apply HKo|].
      intros <-. simpl in Hitems. destruct (heap w !! p) as [ito|] eqn:Hp'; [|done].
      rewrite Hsame_a in Hnone; [congruence|]. apply Hold. eauto.
    - intros Hpf. destruct (Hptrs p Hp) as [HpK|Hnone]; [by apply (Hdisj p)|].
      destruct (forest_ptrs_Some w facc p Hmod Hpf) as [itp Hitp].
      rewrite Hsame_a in Hnone; [congruence|]. apply Hold. eauto. }
  assert (Forall (models wb) facc) as Hmodfb.
  { apply Forall_forall. intros tr Htr. rewrite Forall_forall in Hmod.
    apply (models_agree w); [by apply Hmod|]. intros p Hp. apply Hkeepf.
    by apply (elem_of_concat_ptrs _ tr). }
  assert (restore_frame K o w wb) as Hframe_b.
  { split_and!.
    - intros q itq Hq HqK _. by apply Hkeep.
    - intros q Hq. apply Hfr2. rewrite Hsame_a; [done|]. by apply Hold.
    - intros go ito l0 -> Hgo' Hk0. exists l0. rewrite set_kind_id' by done.
      apply Hkeep; [done|]. intros Hin. by apply (HKo go).
    - intros _. rewrite Hfr4 by done. done. }
  unfold restore_section. fold section.
  assert (contains "items" section = true) as ->.
  { unfold section. rewrite contains_beginGroup, Hg. destruct Hst as [-> _].
    by apply bool_decide_eq_true_2. }
  rewrite Hmk, Hrestore. cbn [mbind option_bind]. unfold child_items.
  rewrite Hitemsb. cbn [mbind option_bind]. unfold section.
  destruct (decide (ch' = [])) as [->|Hne].
  - (* the group has no child and is dropped *)
    rewrite bool_decide_true by done. cbn [mbind option_bind].
    rewrite endGroup_beginGroup. exists wb, []. rewrite app_nil_r.
    split_and!; [done| | |done| |].
    + by split_and!.
    + cbn [prune]. by rewrite <-Hshape.
    + by intros p ?%elem_of_nil.
    + exists []. cbn [fst]. rewrite decide_True by done.
      split_and!; [done..|].
      destruct (Hfr3 g new_TraceGroup [] eq_refl Hnew eq_refl) as (lg & Hgb').
      unfold owner_of. by rewrite Hgb'.
  - (* the group has children and is attached *)
    rewrite bool_decide_false.
    2:{ intros Heq. apply fmap_nil_inv in Heq. done. }
    destruct (Hfr3 g new_TraceGroup [] eq_refl Hnew eq_refl) as (lg & Hgb').
    assert (lg = root <$> ch') as ->.
    { simpl in Hitemsb. rewrite Hgb' in Hitemsb. simpl in Hitemsb. congruence. }
    assert (OwnerGroup g ≠ o) as Hgo'.
    { intros <-. simpl in Hitems. rewrite Hfresh in Hitems. done. }
    destruct (add_child_item_heap o wb g _ _ Hgb' eq_refl Hitems_o Hgo')
      as (wc & -> & Hitems_c & Hgc & Hothers & Hdom & Hrec & Hview).
    cbn [mbind option_bind]. rewrite endGroup_beginGroup.
    exists wc, [Node g ch']. split_and!.
    + done.
    + split_and!.
      * by rewrite fmap_app.
      * apply Forall_app. split.
        -- apply Forall_forall. intros tr Htr. rewrite Forall_forall in Hmodfb.
           apply (models_agree wb); [by apply Hmodfb|]. intros p Hp.
           assert (p ∈ concat (map ptrs facc)) as Hpin
             by (by apply (elem_of_concat_ptrs _ tr)).
           apply Hothers.
           ++ apply Hold. by apply (forest_ptrs_Some w facc).
           ++ by eapply owner_not_in_forest.
        -- constructor; [|constructor]. econstructor; [exact Hgc|done|].
           apply Forall_forall. intros c Hc. rewrite Forall_forall in Hmodb.
           apply (models_agree wb); [by apply Hmodb|]. intros p Hp.
           destruct (Hch' p) as (? & ? & ?); [by apply (elem_of_concat_ptrs _ c)|].
           by apply Hothers.
      * rewrite concat_ptrs_app. simpl. rewrite app_nil_r.
        apply NoDup_app. split_and!; [done| |].
        -- intros p Hp [->|Hin]%elem_of_cons.
           ++ by apply (Hold g (forest_ptrs_Some w facc g Hmod Hp)).
           ++ by destruct (Hch' p Hin) as (_ & _ & ?).
        -- apply NoDup_cons. split; [|done]. by apply (Hgb g).
      * intros go -> Hin. rewrite concat_ptrs_app in Hin. simpl in Hin.
        rewrite app_nil_r in Hin.
        apply elem_of_app in Hin as [Hin|[->|Hin]%elem_of_cons].
        -- by apply (Hgo go).
        -- done.
        -- by destruct (Hch' go Hin) as (_ & ? & _).
    + cbn [prune]. destruct (omap (prune items) children) as [|sh l] eqn:Hl.
      * apply fmap_nil_inv in Hshape. done.
      * cbn [option_list]. rewrite list_fmap_singleton. cbn [shape_of_tree].
        change (map shape_of_tree ch') with (shape_of_tree <$> ch').
        by rewrite Hshape.
    + destruct Hframe_b as (Hb1 & Hb2 & Hb3 & Hb4). split_and!.
      * intros q itq Hq HqK Hqo. rewrite Hothers; [by apply Hb1| |done].
        apply Hold. eauto.
      * intros q Hq. by apply Hdom, Hb2.
      * intros go ito l0 -> Hgo'' Hk0.
        destruct (Hb3 go ito l0 eq_refl Hgo'' Hk0) as (l1 & Hl1).
        eexists. rewrite (Hrec go _ eq_refl Hl1). done.
      * intros Ho. rewrite Hview, Hb4; done.
    + intros p Hp. simpl in Hp. rewrite app_nil_r in Hp.
      apply elem_of_cons in Hp as [->|Hp]; [by right|].
      destruct (Hptrs p Hp) as [?|Hnone]; [by left|]. right.
      destruct (decide (p = g)) as [->|Hpg]; [done|]. by rewrite <-Hsame_a.
    + exists ch'. cbn [fst]. rewrite !decide_False by done.
      split_and!; [|done|done|].
      * unfold child_items, items_of. by rewrite Hgc.
      * unfold owner_of. by rewrite Hgc.
Qed.

Lemma restore_section_tree n items (Hspec : restore_spec n items)
    o pfx tr (i : nat) s w facc :
  group s = pfx →
  stores_tree (values s) (pfx ++ [QString_number (Z.of_nat i)]) tr →
  (depth tr < n)%nat →
  owner_tree o w facc →
  Forall (loose_trace w) (kept_leaves items [tr]) →
  NoDup (kept_leaves items [tr]) →
  (∀ q, q ∈ kept_leaves items [tr] → q ∉ concat (map ptrs facc)) →
  ∃ w' fnew,
    restore_section (restore_trace_tree n items) items o (Z.of_nat i) (s, w)
    = Some (s, w') ∧
    owner_tree o w' (facc ++ fnew) ∧
    shape_of_tree <$> fnew = option_list (prune items tr) ∧
    restore_frame (kept_leaves items [tr]) o w w' ∧
    (∀ p, p ∈ concat (map ptrs fnew) →
          p ∈ kept_leaves items [tr] ∨ heap w !! p = None).
Proof.
  destruct tr as [t name|g0 children]; intros.
  - by eapply restore_section_leaf.
  - destruct (restore_section_node n items Hspec o pfx g0 children i s w facc)
      as (w' & fnew & ? & ? & ? & ? & ? & _); [done..|].
    by exists w', fnew.
Qed.

Lemma omap_cons_option_list {A B : Type} (f : A → option B) x l :
  omap f (x :: l) = option_list (f x) ++ omap f l.
Proof. simpl. by destruct (f x). Qed.

(** The loop of [restore_trace_tree] over the sections from [i] on. *)
Lemma restore_loop_spec n items (Hspec : restore_spec n items) o pfx :
  ∀ ts (i : nat) s w facc,
    group s = pfx →
    stores_from (values s) pfx i ts →
    enough n ts →
    owner_tree o w facc →
    Forall (loose_trace w) (kept_leaves items ts) →
    NoDup (kept_leaves items ts) →
    (∀ q, q ∈ kept_leaves items ts → q ∉ concat (map ptrs facc)) →
    ∃ w' fnew,
      restore_loop (restore_section (restore_trace_tree n items) items o)
        (length ts) (Z.of_nat i) (s, w) = Some (s, w') ∧
      owner_tree o w' (facc ++ fnew) ∧
      shape_of_tree <$> fnew = omap (prune items) ts ∧
      restore_frame (kept_leaves items ts) o w w' ∧
      (∀ p, p ∈ concat (map ptrs fnew) →
            p ∈ kept_leaves items ts ∨ heap w !! p = None).
Proof.
  induction ts as [|tr ts IH]; intros i s w facc Hg Hst Hn Hot Hloose Hnd Hdisj.
  { exists w, []. rewrite app_nil_r. split_and!; [done..|apply restore_frame_refl|].
    by intros p ?%elem_of_nil. }
  destruct Hst as [Hst1 Hst2]. apply Forall_cons in Hn as [Hn1 Hn2].
  rewrite kept_leaves_cons in Hloose, Hnd, Hdisj.
  apply Forall_app in Hloose as [Hloose1 Hloose2].
  apply NoDup_app in Hnd as (Hnd1 & Hnd12 & Hnd2).
  destruct (restore_section_tree n items Hspec o pfx tr i s w facc)
    as (w1 & f1 & Hsec & Hot1 & Hshape1 & Hframe1 & Hptrs1); [done..| |].
  { intros q Hq. apply Hdisj, elem_of_app. by left. }
  pose proof Hframe1 as (Hf1 & Hd1 & _ & _).
  assert (∀ q, q ∈ kept_leaves items ts → heap w1 !! q = heap w !! q) as Hsame.
  { intros q Hq. rewrite Forall_forall in Hloose2. pose proof (Hloose2 q Hq) as Hlq.
    pose proof (loose_trace_not_owner w q o _ Hlq (proj1 Hot)) as Hqo.
    destruct Hlq as (itq & ? & ? & Hitq & _). rewrite Hitq.
    apply Hf1; [done| |done]. intros Hq1. by apply (Hnd12 q). }
  destruct (IH (S i) s w1 (facc ++ f1))
    as (w2 & f2 & Hloop & Hot2 & Hshape2 & Hframe2 & Hptrs2); [done..| | | |].
  { apply Forall_forall. intros q Hq. rewrite Forall_forall in Hloose2.
    apply (loose_trace_agree w); [by apply Hsame|by apply Hloose2]. }
  { done. }
  { intros q Hq Hin. rewrite concat_ptrs_app in Hin.
    apply elem_of_app in Hin as [Hin|Hin].
    - apply (Hdisj q); [|done]. apply elem_of_app. by right.
    - destruct (Hptrs1 q Hin) as [Hq1|Hnone]; [by apply (Hnd12 q)|].
      rewrite Forall_forall in Hloose2.
      destruct (Hloose2 q Hq) as (itq & ? & ? & Hitq & _). congruence. }
  exists w2, (f1 ++ f2). split_and!.
  - cbn [length restore_loop]. rewrite Hsec. cbn [mbind option_bind].
    replace (Z.of_nat i + 1) with (Z.of_nat (S i)) by lia. exact Hloop.
  - by rewrite app_assoc.
  - by rewrite fmap_app, omap_cons_option_list, Hshape1, Hshape2.
  - rewrite kept_leaves_cons.
    apply (restore_frame_trans _ _ _ _ _ _ _ Hframe1 Hframe2);
      intros q Hq; apply elem_of_app; [by left|by right].
  - intros p Hp. rewrite concat_ptrs_app in Hp. rewrite kept_leaves_cons.
    apply elem_of_app in Hp as [Hp|Hp].
    + destruct (Hptrs1 p Hp) as [?|?]; [left; apply elem_of_app; by left|by right].
    + destruct (Hptrs2 p Hp) as [?|Hnone]; [left; apply elem_of_app; by right|].
      right. destruct (heap w !! p) as [itp|] eqn:Hitp; [|done].
      destruct (Hd1 p) as [? Hsome]; [eauto|]. congruence.
Qed.

(** [restore_trace_tree] with a sufficient budget rebuilds what is left
    of the saved forest. *)
Lemma restore_spec_holds items : ∀ n, restore_spec n items.
Proof.
  induction n as [|n IH]; intros o s w ts [Hpos Hdepth] [Hcount Hstores]
    Hitems Hloose Hnd; [lia|].
  cbn [restore_trace_tree].
  assert (contains "items" s = true) as Hcontains.
  { unfold contains. rewrite Hcount. by apply bool_decide_eq_true_2. }
  rewrite option_guard_True by done.
  assert (toInt (value "items" (s, w).1) = Z.of_nat (length ts)) as ->.
  { unfold value. simpl. by rewrite Hcount. }
  rewrite Nat2Z.id.
  assert (enough n ts) as Hn.
  { eapply Forall_impl; [exact Hdepth|]. simpl. intros; lia. }
  destruct (restore_loop_spec n items IH o (group s) ts 0%nat s w [])
    as (w1 & fnew & Hloop & Hot1 & Hshape & Hframe & Hptrs);
    [done|done|done|by apply owner_tree_nil|done|done| |].
  { intros q _ ?%elem_of_nil. done. }
  simpl in Hot1. change (Z.of_nat 0) with 0 in Hloop. rewrite Hloop.
  cbn [mbind option_bind].
  pose proof (restored_enough items n ts fnew Hshape Hn) as Hn'.
  destruct (owner_tree_reads n o w1 fnew Hot1 Hn') as (cs & Hreads & Hptr).
  destruct (restack_items_cs n o w1 fnew cs Hot1 Hreads Hptr)
    as (_ & Hrestack & _ & Hmoved).
  rewrite Hrestack. cbn [mbind option_bind].
  eexists _, fnew. split_and!; [done| |done| |done].
  - exact (offsets_moved_owner_tree _ _ _ _ _ Hmoved Hot1).
  - destruct Hframe as (Hf1 & Hf2 & Hf3 & Hf4).
    assert (∀ q, q ∈ root <$> fnew → q ∈ concat (map ptrs fnew)) as Hroots.
    { intros q (tr & -> & Htr)%list_elem_of_fmap. by apply root_in_concat_ptrs. }
    split_and!.
    + intros q itq Hq HqK Hqo.
      rewrite (offsets_moved_lookup_out _ _ _ _ Hmoved); [by apply Hf1|].
      intros Hin. destruct (Hptrs q (Hroots q Hin)) as [?|?]; [done|congruence].
    + intros q Hq. apply (offsets_moved_is_Some _ _ _ _ Hmoved). by apply Hf2.
    + intros g itg l0 -> Hg Hk. destruct (Hf3 g itg l0 eq_refl Hg Hk) as (l & Hl).
      exists l. rewrite (offsets_moved_lookup_out _ _ _ _ Hmoved); [done|].
      intros Hin. destruct Hot1 as (_ & _ & _ & Hgo). by apply (Hgo g eq_refl), Hroots.
    + intros Ho. destruct Hmoved as (-> & _). by apply Hf4.
Qed.

(** ** Restoring: a section that holds a group *)

(** C9. A numbered section that holds a saved group has the key
    ["items"].  For such a section [restore_trace_tree] makes a new
    group, which is no item of the state so far and has no children, and
    restores the section into it: afterwards the children of the new
    group are what is left of the saved children (the leaves that the
    table lacks and the groups left empty pruned).  When nothing is left,
    the section returns all the same, the children of the owner are what
    they were, the new group is not among them and has no owner; when
    something is left, the new group is the last child of the owner and
    refers back to it. *)
Theorem restore_section_group n items o s w facc g0 children (i : nat) :
  let new_group := (make_shared_TraceGroup w).1 in
  stores_tree (values s) (group s ++ [QString_number (Z.of_nat i)])
    (Node g0 children) →
  (depth (Node g0 children) < n)%nat →
  owner_tree o w facc →
  Forall (loose_trace w) (kept_leaves items children) →
  NoDup (kept_leaves items children) →
  (∀ q, q ∈ kept_leaves items children → q ∉ concat (map ptrs facc)) →
  contains "items" (beginGroup (QString_number (Z.of_nat i)) s) = true ∧
  heap w !! new_group = None ∧
  child_items (OwnerGroup new_group) (make_shared_TraceGroup w).2 = Some [] ∧
  ∃ w' ch',
    restore_section (restore_trace_tree n items) items o (Z.of_nat i) (s, w)
    = Some (s, w') ∧
    child_items (OwnerGroup new_group) w' = Some (root <$> ch') ∧
    shape_of_tree <$> ch' = omap (prune items) children ∧
    (ch' = [] →
     child_items o w' = Some (root <$> facc) ∧
     (new_group ∉ root <$> facc) ∧
     owner_of new_group w' = None) ∧
    (ch' ≠ [] →
     child_items o w' = Some ((root <$> facc) ++ [new_group]) ∧
     owner_of new_group w' = Some o ∧
     owner_tree o w' (facc ++ [Node new_group ch'])).
Proof.
  intros new_group Hst Hd Hot Hloose Hnd Hdisj.
  destruct (make_shared_TraceGroup_fresh w) as (Hfresh & Hnew & _).
  fold new_group in Hfresh, Hnew.
  destruct (restore_section_node n items (restore_spec_holds items n) o (group s)
              g0 children i s w facc eq_refl Hst Hd Hot)
    as (w' & fnew & Hsec & Hot' & _ & _ & _ & ch' & Hch & Hshape & Hfnew & Hown);
    [by rewrite kept_leaves_node..|].
  fold new_group in Hch, Hfnew, Hown.
  split_and!.
  - rewrite contains_beginGroup. destruct Hst as [-> _].
    by apply bool_decide_eq_true_2.
  - done.
  - unfold child_items, items_of. by rewrite Hnew.
  - exists w', ch'. split_and!; [done..| |].
    + intros ->. rewrite decide_True in Hfnew by done.
      rewrite decide_True in Hown by done. subst fnew.
      rewrite app_nil_r in Hot'. destruct Hot' as (Hl & _). split_and!; [done| |done].
      intros Hin. destruct Hot as (_ & Hmod & _).
      assert (is_Some (heap w !! new_group)) as [? ?]; [|congruence].
      apply (forest_ptrs_Some w facc); [done|].
      apply list_elem_of_fmap in Hin as (tr & -> & Htr). by apply root_in_concat_ptrs.
    + intros Hne. rewrite decide_False in Hfnew by done.
      rewrite decide_False in Hown by done. subst fnew.
      split_and!; [|done|done].
      destruct Hot' as (Hl & _). unfold child_items. by rewrite Hl, fmap_app.
Qed.

Lemma restore_section_group_witness :
  contains "items" (beginGroup (QString_number (Z.of_nat 1)) example_nested_saved)
  = true ∧
  heap example_nested_cleared !! (make_shared_TraceGroup example_nested_cleared).1
  = None ∧
  child_items (OwnerGroup (make_shared_TraceGroup example_nested_cleared).1)
    (make_shared_TraceGroup example_nested_cleared).2 = Some [] ∧
  ∃ w' ch',
    restore_section (restore_trace_tree 2 example_nested_table) example_nested_table
      OwnerView (Z.of_nat 1) (example_nested_saved, example_nested_cleared)
    = Some (example_nested_saved, w') ∧
    child_items (OwnerGroup (make_shared_TraceGroup example_nested_cleared).1) w'
    = Some (root <$> ch') ∧
    shape_of_tree <$> ch' = omap (prune example_nested_table) [Leaf 3 "b"] ∧
    (ch' = [] →
     child_items OwnerView w' = Some (root <$> []) ∧
     ((make_shared_TraceGroup example_nested_cleared).1 ∉ root <$> []) ∧
     owner_of (make_shared_TraceGroup example_nested_cleared).1 w' = None) ∧
    (ch' ≠ [] →
     child_items OwnerView w'
     = Some ((root <$> []) ++ [(make_shared_TraceGroup example_nested_cleared).1]) ∧
     owner_of (make_shared_TraceGroup example_nested_cleared).1 w' = Some OwnerView ∧
     owner_tree OwnerView w'
       ([] ++ [Node (make_shared_TraceGroup example_nested_cleared).1 ch'])).
Proof.
  apply (restore_section_group 2 example_nested_table OwnerView example_nested_saved
           example_nested_cleared [] 2%positive [Leaf 3 "b"] 1).
  - split; [vm_compute; reflexivity|]. split; [|exact I].
    split; vm_compute; reflexivity.
  - simpl. lia.
  - apply owner_tree_nil. vm_compute. reflexivity.
  - repeat constructor; eexists _, _, _; split_and!; vm_compute; reflexivity.
  - compute_done.
  - intros q _ ?%elem_of_nil. done.
Defined.

(** The two cases, run.  At the section ["1"] of the saved
    [example_nested] the new group 4 gets the trace 3 and is attached to
    the view. *)
Example restore_section_group_attached :
  ∃ w',
    restore_section (restore_trace_tree 2 example_nested_table) example_nested_table
      OwnerView 1 (example_nested_saved, example_nested_cleared)
    = Some (example_nested_saved, w') ∧
    child_items OwnerView w' = Some [4%positive] ∧
    child_items (OwnerGroup 4) w' = Some [3%positive] ∧
    owner_of 4%positive w' = Some OwnerView.
Proof.
  eexists. split; [vm_compute; reflexivity|]. split_and!; vm_compute; reflexivity.
Qed.

(** At a section that holds a group without children the new group 1
    stays empty and is not attached. *)
Example restore_section_group_discarded :
  ∃ w',
    restore_section (restore_trace_tree 1 ∅) ∅ OwnerView 0
      (example_settings_empty_group, example_empty)
    = Some (example_settings_empty_group, w') ∧
    child_items OwnerView w' = Some [] ∧
    child_items (OwnerGroup 1) w' = Some [] ∧
    owner_of 1%positive w' = None.
Proof.
  eexists. split; [vm_compute; reflexivity|]. split_and!; vm_compute; reflexivity.
Qed.

(** ** Saving and restoring *)













(** The traces must be loose: while the old group 2 of [example_nested]
    still holds the trace 3, the assertion of [add_child_item] fails for
    it, and restoring does not return. *)
Example restore_needs_loose_traces :
  ∃ saved w0,
    save_trace_tree 3 OwnerView example_nested (mkSettings [] ∅) = Some saved ∧
    clear_child_items OwnerView example_nested = Some w0 ∧
    owner_of 3%positive w0 = Some (OwnerGroup 2) ∧
    restore_trace_tree 3 example_nested_table OwnerView (saved, w0) = None.
Proof.
  eexists _, _. split; [vm_compute; reflexivity|].
  split; [vm_compute; reflexivity|]. split; vm_compute; reflexivity.
Qed.

(** * Further properties of the code *)

(** ** The child list and the back-references *)

Lemma erase_first_None x l : x ∉ l → erase_first x l = None.
Proof.
  induction l as [|y l IH]; [done|]. intros [Hne Hl]%not_elem_of_cons. simpl.
  destruct (decide (y = x)); [congruence|]. by rewrite IH.
Qed.

Lemma erase_first_elem x l l' : erase_first x l = Some l' → x ∈ l.
Proof.
  intros H. destruct (decide (x ∈ l)) as [|Hn]; [done|].
  by rewrite (erase_first_None _ _ Hn) in H.
Qed.

Lemma set_items_other o o' l w w' :
  set_items o l w = Some w' → o' ≠ o → items_of o' w' = items_of o' w.
Proof.
  destruct o as [|g]; simpl.
  - intros [= <-] Hne. destruct o' as [|g']; [done|done].
  - destruct (heap w !! g) as [it|]; simpl; [|done].
    destruct (kind it); [done|]. intros [= <-] Hne.
    destruct o' as [|g']; simpl; [done|].
    rewrite lookup_insert_ne; [done|congruence].
Qed.

(** The invariant of an owner, in terms of what the callers read. *)
Lemma owner_invariant_alt o w :
  owner_invariant o w ↔
  ∃ l, items_of o w = Some l ∧ NoDup l ∧ ∀ x, x ∈ l ↔ owner_of x w = Some o.
Proof.
  unfold owner_invariant. destruct (items_of o w) as [l|]; [|by split; [|intros (? & ? & _)]].
  rewrite Forall_forall, map_Forall_lookup. split.
  - intros (Hnd & Hall & Hback). exists l. split_and!; [done..|].
    intros x. split; [apply Hall|].
    intros (it & Hit & Ho)%owner_of_Some. by eapply Hback.
  - intros (l' & [= <-] & Hnd & Hiff). split_and!; [done|..].
    + intros x Hx. by apply Hiff.
    + intros x it Hit Ho. apply Hiff, owner_of_Some. eauto.
Qed.

(** What a successful [add_child_item] found, and what it leaves. *)
Lemma add_child_item_inv o x w w' :
  add_child_item o x w = Some w' →
  ∃ it l, heap w !! x = Some it ∧ owner it = None ∧ items_of o w = Some l ∧
          items_of o w' = Some (l ++ [x]) ∧
          signals w' = signals w ++ [(o, true, true)] ∧
          owner_of x w' = Some o ∧
          (∀ t, t ≠ x → owner_of t w' = owner_of t w) ∧
          (∀ o', o' ≠ o → items_of o' w' = items_of o' w).
Proof.
  unfold add_child_item. intros H.
  destruct (heap w !! x) as [it|] eqn:Hx; simpl in H; [|done].
  case_guard as Hown; simpl in H; [|done].
  rewrite (update_item_Some _ _ _ _ Hx) in H. simpl in H.
  set (w1 := with_heap _ w) in H.
  assert (∀ o', items_of o' w1 = items_of o' w) as Hitems.
  { intros o'. unfold w1. by rewrite (items_of_insert_same_kind o' w x it). }
  rewrite Hitems in H.
  destruct (items_of o w) as [l|] eqn:Hl; simpl in H; [|done].
  destruct (set_items o (l ++ [x]) w1) as [w2|] eqn:Hset; simpl in H; [|done].
  injection H as <-.
  destruct (set_items_Some o w1 l (l ++ [x])) as (w2' & Hset' & Hl2 & Hs2 & Hown2 & _).
  { by rewrite Hitems. }
  rewrite Hset in Hset'. injection Hset' as <-.
  exists it, l. split_and!; [done..| | | | |].
  - by rewrite items_of_extents_changed.
  - simpl. by rewrite Hs2.
  - rewrite owner_of_extents_changed, Hown2. unfold owner_of, w1. simpl.
    by rewrite lookup_insert_eq.
  - intros t Ht. rewrite owner_of_extents_changed, Hown2. unfold owner_of, w1. simpl.
    by rewrite lookup_insert_ne.
  - intros o' Hne. rewrite items_of_extents_changed.
    by rewrite (set_items_other _ _ _ _ _ Hset Hne).
Qed.

(** The same for [remove_child_item]. *)
Lemma remove_child_item_inv o x w w' :
  remove_child_item o x w = Some w' →
  ∃ it l1 l2, heap w !! x = Some it ∧ owner it = Some o ∧
          items_of o w = Some (l1 ++ x :: l2) ∧ (x ∉ l1) ∧
          items_of o w' = Some (l1 ++ l2) ∧
          signals w' = signals w ++ [(o, true, true)] ∧
          owner_of x w' = None ∧ is_Some (heap w' !! x) ∧
          (∀ t, t ≠ x → owner_of t w' = owner_of t w) ∧
          (∀ o', o' ≠ o → items_of o' w' = items_of o' w).
Proof.
  unfold remove_child_item. intros H.
  destruct (heap w !! x) as [it|] eqn:Hx; simpl in H; [|done].
  case_guard as Hown; simpl in H; [|done].
  rewrite (update_item_Some _ _ _ _ Hx) in H. simpl in H.
  set (w1 := with_heap _ w) in H.
  assert (∀ o', items_of o' w1 = items_of o' w) as Hitems.
  { intros o'. unfold w1. by rewrite (items_of_insert_same_kind o' w x it). }
  rewrite Hitems in H.
  destruct (items_of o w) as [l|] eqn:Hl; simpl in H; [|done].
  destruct (erase_first x l) as [l'|] eqn:Herase; simpl in H; [|done].
  destruct (erase_first_split x l (erase_first_elem _ _ _ Herase))
    as (l1 & l2 & -> & Hl1 & Herase').
  rewrite Herase in Herase'. injection Herase' as ->.
  destruct (set_items o (l1 ++ l2) w1) as [w2|] eqn:Hset; simpl in H; [|done].
  injection H as <-.
  destruct (set_items_Some o w1 (l1 ++ x :: l2) (l1 ++ l2))
    as (w2' & Hset' & Hl2 & Hs2 & Hown2 & Hdom2 & _).
  { by rewrite Hitems. }
  rewrite Hset in Hset'. injection Hset' as <-.
  exists it, l1, l2. split_and!; [done..| | | | | |].
  - by rewrite items_of_extents_changed.
  - simpl. by rewrite Hs2.
  - rewrite owner_of_extents_changed, Hown2. unfold owner_of, w1. simpl.
    by rewrite lookup_insert_eq.
  - simpl. apply Hdom2. unfold w1. simpl. rewrite lookup_insert_eq. eauto.
  - intros t Ht. rewrite owner_of_extents_changed, Hown2. unfold owner_of, w1. simpl.
    by rewrite lookup_insert_ne.
  - intros o' Hne. rewrite items_of_extents_changed.
    by rewrite (set_items_other _ _ _ _ _ Hset Hne).
Qed.

Lemma clear_loop_inv o ts : ∀ w w',
  clear_loop o ts w = Some w' →
  NoDup ts ∧ Forall (λ x, owner_of x w = Some o) ts.
Proof.
  induction ts as [|t ts IH]; intros w w' H; simpl in H.
  { split; constructor. }
  destruct (heap w !! t) as [it|] eqn:Ht; simpl in H; [|done].
  case_guard as Hown; simpl in H; [|done].
  rewrite (update_item_Some _ _ _ _ Ht) in H. simpl in H.
  set (w1 := with_heap _ w) in H.
  destruct (IH _ _ H) as [Hnd Hall]. rewrite Forall_forall in Hall.
  assert (t ∉ ts) as Hnotin.
  { intros Hin. specialize (Hall _ Hin). unfold owner_of, w1 in Hall. simpl in Hall.
    by rewrite lookup_insert_eq in Hall. }
  split; [by constructor|]. constructor.
  - apply owner_of_Some. eauto.
  - apply Forall_forall. intros x Hx. rewrite <-(Hall x Hx).
    unfold owner_of, w1. simpl. rewrite lookup_insert_ne; [done|].
    intros ->. done.
Qed.

(** What a successful [clear_child_items] found, and what it leaves. *)
Lemma clear_child_items_inv o w w' :
  clear_child_items o w = Some w' →
  ∃ l, items_of o w = Some l ∧ NoDup l ∧ Forall (λ x, owner_of x w = Some o) l ∧
       items_of o w' = Some [] ∧ signals w' = signals w ∧
       (∀ x, x ∈ l → is_Some (heap w' !! x) ∧ owner_of x w' = None) ∧
       (∀ x, x ∉ l → owner_of x w' = owner_of x w) ∧
       (∀ o', o' ≠ o → items_of o' w' = items_of o' w).
Proof.
  unfold clear_child_items, trace_tree_child_items. intros H.
  destruct (items_of o w) as [l|] eqn:Hl; simpl in H; [|done].
  case_guard as Hlive; simpl in H; [|done].
  destruct (clear_loop o l w) as [w1|] eqn:Hloop; simpl in H; [|done].
  destruct (clear_loop_inv _ _ _ _ Hloop) as [Hnd Hall].
  destruct (clear_loop_spec o l w Hnd Hall) as (w1' & Hloop' & Hv & Hs & Hin & Hout).
  rewrite Hloop in Hloop'. injection Hloop' as <-.
  assert (∀ o' l', items_of o' w = Some l' → items_of o' w1 = Some l') as Hitems.
  { intros o' l'. apply (items_of_same_kinds o' w w1 l' Hv). intros p it Hp.
    destruct (decide (p ∈ l)) as [Hpin|Hpout].
    - destruct (Hin _ Hpin) as (it' & Hit' & ->). eexists; split; [done|].
      simpl. congruence.
    - rewrite (Hout _ Hpout). eauto. }
  assert (∀ o' l', items_of o' w1 = Some l' → items_of o' w = Some l') as Hitems'.
  { intros o' l'. apply (items_of_same_kinds o' w1 w l'); [done|]. intros p it Hp.
    destruct (decide (p ∈ l)) as [Hpin|Hpout].
    - destruct (Hin _ Hpin) as (it' & Hit' & Hw1). rewrite Hw1 in Hp.
      injection Hp as <-. eauto.
    - rewrite (Hout _ Hpout) in Hp. eauto. }
  destruct (set_items_Some o w1 l [] (Hitems _ _ Hl))
    as (w2 & Hset & Hl2 & Hs2 & Hown2 & Hdom2 & _).
  rewrite Hset in H. injection H as <-.
  exists l. split_and!; [done..| | | | |].
  - done.
  - congruence.
  - intros x Hx. destruct (Hin _ Hx) as (it & _ & Hw1). split.
    + apply Hdom2. eauto.
    + rewrite Hown2. unfold owner_of. by rewrite Hw1.
  - intros x Hx. rewrite Hown2. unfold owner_of. by rewrite (Hout _ Hx).
  - intros o' Hne. rewrite (set_items_other _ _ _ _ _ Hset Hne).
    destruct (items_of o' w) as [l'|] eqn:Hl'; [by apply Hitems|].
    destruct (items_of o' w1) as [l'|] eqn:Hl1'; [|done].
    apply Hitems' in Hl1'. congruence.
Qed.

(** X1. [clear_child_items] returns exactly when the owner lists no item
    twice and every listed item refers back to the owner: the assertion
    [t->owner() == this] fails on an item of another owner, and on the
    second occurrence of an item, whose owner the first has reset. *)
Theorem clear_child_items_returns_iff o w :
  is_Some (clear_child_items o w) ↔
  ∃ l, items_of o w = Some l ∧ NoDup l ∧ Forall (λ x, owner_of x w = Some o) l.
Proof.
  split.
  - intros [w' H]. destruct (clear_child_items_inv _ _ _ H) as (l & ? & ? & ? & _).
    by exists l.
  - intros (l & Hl & Hnd & Hall).
    unfold clear_child_items, trace_tree_child_items.
    rewrite Hl. simpl. rewrite option_guard_True; simpl.
    2:{ eapply Forall_impl; [exact Hall|]. intros x (it & -> & _)%owner_of_Some. eauto. }
    destruct (clear_loop_spec o l w Hnd Hall) as (w1 & -> & Hv & _ & Hin & Hout). simpl.
    assert (items_of o w1 = Some l) as Hl1.
    { apply (items_of_same_kinds o w w1 l Hv); [|done]. intros p it Hp.
      destruct (decide (p ∈ l)) as [Hpin|Hpout].
      - destruct (Hin _ Hpin) as (it' & Hit' & ->). eexists; split; [done|].
        simpl. congruence.
      - rewrite (Hout _ Hpout). eauto. }
    destruct (set_items_Some o w1 l [] Hl1) as (w2 & -> & _). eauto.
Qed.

(** X2. An item has one owner at most: once [add_child_item] has
    returned, a second [add_child_item] of the same item, to any owner,
    fails the assertion [!item->owner()]. *)
Theorem add_child_item_twice o o' x w w' :
  add_child_item o x w = Some w' → add_child_item o' x w' = None.
Proof.
  intros H. destruct (add_child_item_inv _ _ _ _ H) as (_ & _ & _ & _ & _ & _ & _ & Hx & _).
  apply owner_of_Some in Hx as (it' & Hit' & Hown).
  unfold add_child_item. rewrite Hit'. simpl.
  rewrite option_guard_False; [done|]. congruence.
Qed.

(** X3. Once [remove_child_item] has returned, the item refers to no
    owner, and a second [remove_child_item] of it, from any owner, fails
    the assertion [item->owner() == this]. *)
Theorem remove_child_item_twice o o' x w w' :
  remove_child_item o x w = Some w' →
  owner_of x w' = None ∧ remove_child_item o' x w' = None.
Proof.
  intros H.
  destruct (remove_child_item_inv _ _ _ _ H)
    as (_ & _ & _ & _ & _ & _ & _ & _ & _ & Hnone & [it' Hit'] & _).
  split; [done|]. unfold owner_of in Hnone. rewrite Hit' in Hnone. simpl in Hnone.
  unfold remove_child_item. rewrite Hit'. simpl.
  rewrite option_guard_False; [done|]. congruence.
Qed.

(** X4. [remove_child_item] on an item that refers to the owner, but
    that the owner's list does not hold, fails the second assertion
    ([find] returns [items_.end()]). *)
Theorem remove_child_item_unlisted o x w l :
  owner_of x w = Some o → items_of o w = Some l → x ∉ l →
  remove_child_item o x w = None.
Proof.
  intros (it & Hx & Hown)%owner_of_Some Hl Hnotin.
  unfold remove_child_item. rewrite Hx. simpl.
  rewrite option_guard_True by done.
  rewrite (update_item_Some _ _ _ _ Hx). simpl.
  rewrite (items_of_insert_same_kind o w x it) by done.
  rewrite Hl. simpl. by rewrite (erase_first_None _ _ Hnotin).
Qed.

(** X5. [add_child_item] keeps the invariant of the data model, for the
    owner that gets the item and for every other owner: no item listed
    twice, and an item is listed by an owner exactly when it refers back
    to it. *)
Theorem add_child_item_keeps_invariant o x w w' o' :
  add_child_item o x w = Some w' → owner_invariant o' w → owner_invariant o' w'.
Proof.
  intros H (l' & Hl' & Hnd & Hiff)%owner_invariant_alt. apply owner_invariant_alt.
  destruct (add_child_item_inv _ _ _ _ H)
    as (it & l & Hx & Hown & Hl & Hlw' & _ & Hxo & Hother & Hitems).
  assert (owner_of x w = None) as Hxnone by (unfold owner_of; by rewrite Hx).
  assert (x ∉ l') as Hxl'. { rewrite Hiff. congruence. }
  destruct (decide (o' = o)) as [->|Hne].
  - assert (l' = l) as -> by congruence.
    exists (l ++ [x]). split_and!; [done| |].
    + apply NoDup_app. split_and!; [done| |apply NoDup_singleton].
      intros y Hy Hyx. apply list_elem_of_singleton in Hyx as ->. done.
    + intros y. rewrite elem_of_app, list_elem_of_singleton.
      destruct (decide (y = x)) as [->|Hy]; [by split; [|right]|].
      rewrite Hother by done. rewrite <-Hiff. split; [by intros [?|?]|by left].
  - exists l'. split_and!; [by rewrite Hitems|done|].
    intros y. destruct (decide (y = x)) as [->|Hy].
    + split; [done|]. rewrite Hxo. congruence.
    + by rewrite Hother.
Qed.

(** X6. [remove_child_item] keeps the invariant of the data model, for
    the owner that gives the item up and for every other owner. *)
Theorem remove_child_item_keeps_invariant o x w w' o' :
  remove_child_item o x w = Some w' → owner_invariant o' w → owner_invariant o' w'.
Proof.
  intros H (l' & Hl' & Hnd & Hiff)%owner_invariant_alt. apply owner_invariant_alt.
  destruct (remove_child_item_inv _ _ _ _ H)
    as (it & l1 & l2 & Hx & Hown & Hl & Hl1 & Hlw' & _ & Hxo & _ & Hother & Hitems).
  assert (owner_of x w = Some o) as Hxw by (apply owner_of_Some; eauto).
  destruct (decide (o' = o)) as [->|Hne].
  - assert (l' = l1 ++ x :: l2) as -> by congruence.
    apply NoDup_app in Hnd as (Hnd1 & Hdisj & [Hx2 Hnd2]%NoDup_cons).
    exists (l1 ++ l2). split_and!; [done| |].
    + apply NoDup_app. split_and!; [done| |done].
      intros y Hy1 Hy2. apply (Hdisj y Hy1). by right.
    + intros y. destruct (decide (y = x)) as [->|Hy].
      * rewrite Hxo, elem_of_app. split; [by intros [?|?]|done].
      * rewrite Hother by done. rewrite <-Hiff.
        rewrite !elem_of_app, elem_of_cons. split; [intros [?|?]; auto|].
        intros [?|[?|?]]; auto; done.
  - exists l'. split_and!; [by rewrite Hitems|done|].
    intros y. destruct (decide (y = x)) as [->|Hy].
    + rewrite Hxo, Hiff, Hxw. split; [congruence|done].
    + by rewrite Hother.
Qed.

(** X7. [clear_child_items] keeps the invariant of the data model: when
    it holds for the owner that is cleared, it holds afterwards, with no
    item left that refers to the owner; and it holds afterwards for
    every other owner for which it held. *)
Theorem clear_child_items_keeps_invariant o w w' o' :
  clear_child_items o w = Some w' →
  owner_invariant o w → owner_invariant o' w → owner_invariant o' w'.
Proof.
  intros H (l0 & Hl0 & _ & Hiff0)%owner_invariant_alt
    (l' & Hl' & Hnd & Hiff)%owner_invariant_alt.
  apply owner_invariant_alt.
  destruct (clear_child_items_inv _ _ _ H)
    as (l & Hl & _ & _ & Hlw' & _ & Hin & Hout & Hitems).
  assert (l0 = l) as -> by congruence.
  destruct (decide (o' = o)) as [->|Hne].
  - exists []. split_and!; [done|constructor|].
    intros y. split; [by intros ?%elem_of_nil|]. intros Hy.
    destruct (decide (y ∈ l)) as [Hyl|Hyl].
    + destruct (Hin _ Hyl) as [_ Hnone]. congruence.
    + rewrite (Hout _ Hyl) in Hy. by apply Hiff0 in Hy.
  - exists l'. split_and!; [by rewrite Hitems|done|].
    intros y. destruct (decide (y ∈ l)) as [Hyl|Hyl].
    + destruct (Hin _ Hyl) as [_ Hnone]. rewrite Hnone, Hiff.
      apply Hiff0 in Hyl. rewrite Hyl. split; [congruence|done].
    + by rewrite (Hout _ Hyl).
Qed.

(** X8. An item that [remove_child_item] has taken from its owner can be
    given to any owner: [add_child_item] returns, the item is the last
    child of the new owner and refers to it. *)
Theorem remove_then_add_child_item o o' x w w1 l :
  remove_child_item o x w = Some w1 → items_of o' w1 = Some l →
  ∃ w2, add_child_item o' x w1 = Some w2 ∧
        child_items o' w2 = Some (l ++ [x]) ∧
        owner_of x w2 = Some o'.
Proof.
  intros H Hl.
  destruct (remove_child_item_inv _ _ _ _ H)
    as (_ & _ & _ & _ & _ & _ & _ & _ & _ & Hnone & [it' Hit'] & _).
  unfold owner_of in Hnone. rewrite Hit' in Hnone. simpl in Hnone.
  destruct (add_child_item_spec o' w1 x it' l Hit' Hnone Hl) as (w2 & ? & ? & ? & _).
  by exists w2.
Qed.

Lemma clear_child_items_returns_iff_witness :
  is_Some (clear_child_items OwnerView example_nested) ∧
  ¬ is_Some (clear_child_items OwnerView
               (default example_nested
                  (update_item 1%positive (set_owner None) example_nested))).
Proof.
  split.
  - apply (proj2 (clear_child_items_returns_iff OwnerView example_nested)).
    exists [1; 2]%positive. split_and!; [reflexivity|compute_done|compute_done].
  - intros (l & Hl & _ & Hall)%clear_child_items_returns_iff.
    vm_compute in Hl. injection Hl as <-.
    apply Forall_cons in Hall as [H1 _]. vm_compute in H1. discriminate H1.
Defined.

Lemma add_child_item_twice_witness :
  add_child_item (OwnerGroup 2) 4%positive
    (default example_loose (add_child_item OwnerView 4%positive example_loose))
  = None.
Proof.
  apply (add_child_item_twice OwnerView (OwnerGroup 2) 4%positive example_loose).
  vm_compute. reflexivity.
Defined.

Lemma remove_child_item_twice_witness :
  owner_of 1%positive
    (default example_nested (remove_child_item OwnerView 1%positive example_nested))
  = None ∧
  remove_child_item OwnerView 1%positive
    (default example_nested (remove_child_item OwnerView 1%positive example_nested))
  = None.
Proof.
  apply (remove_child_item_twice OwnerView OwnerView 1%positive example_nested).
  vm_compute. reflexivity.
Defined.

Lemma remove_child_item_unlisted_witness :
  remove_child_item OwnerView 1%positive example_unlisted = None.
Proof.
  apply (remove_child_item_unlisted OwnerView 1%positive example_unlisted []).
  - reflexivity.
  - reflexivity.
  - apply not_elem_of_nil.
Defined.

Lemma add_child_item_keeps_invariant_witness :
  owner_invariant OwnerView
    (default example_loose (add_child_item OwnerView 4%positive example_loose)) ∧
  owner_invariant (OwnerGroup 2)
    (default example_loose (add_child_item OwnerView 4%positive example_loose)).
Proof.
  split.
  - apply (add_child_item_keeps_invariant OwnerView 4%positive example_loose).
    + vm_compute. reflexivity.
    + compute_done.
  - apply (add_child_item_keeps_invariant OwnerView 4%positive example_loose).
    + vm_compute. reflexivity.
    + compute_done.
Defined.

Lemma remove_child_item_keeps_invariant_witness :
  owner_invariant OwnerView
    (default example_nested (remove_child_item OwnerView 1%positive example_nested)) ∧
  owner_invariant (OwnerGroup 2)
    (default example_nested (remove_child_item OwnerView 1%positive example_nested)).
Proof.
  split.
  - apply (remove_child_item_keeps_invariant OwnerView 1%positive example_nested).
    + vm_compute. reflexivity.
    + compute_done.
  - apply (remove_child_item_keeps_invariant OwnerView 1%positive example_nested).
    + vm_compute. reflexivity.
    + compute_done.
Defined.

Lemma clear_child_items_keeps_invariant_witness :
  owner_invariant OwnerView
    (default example_nested (clear_child_items OwnerView example_nested)) ∧
  owner_invariant (OwnerGroup 2)
    (default example_nested (clear_child_items OwnerView example_nested)).
Proof.
  split.
  - apply (clear_child_items_keeps_invariant OwnerView example_nested).
    + vm_compute. reflexivity.
    + compute_done.
    + compute_done.
  - apply (clear_child_items_keeps_invariant OwnerView example_nested).
    + vm_compute. reflexivity.
    + compute_done.
    + compute_done.
Defined.

Lemma remove_then_add_child_item_witness :
  ∃ w2, add_child_item (OwnerGroup 2) 1%positive
          (default example_nested (remove_child_item OwnerView 1%positive example_nested))
        = Some w2 ∧
        child_items (OwnerGroup 2) w2 = Some ([3%positive] ++ [1%positive]) ∧
        owner_of 1%positive w2 = Some (OwnerGroup 2).
Proof.
  apply (remove_then_add_child_item OwnerView (OwnerGroup 2) 1%positive example_nested).
  - vm_compute. reflexivity.
  - vm_compute. reflexivity.
Defined.

(** ** Flattening *)

Lemma sublist_concat_map {A B : Type} (f g : A → list B) (l : list A) :
  (∀ x, x ∈ l → f x `sublist_of` g x) →
  concat (map f l) `sublist_of` concat (map g l).
Proof.
  induction l as [|x l IH]; intros H; simpl; [done|].
  apply sublist_app; [apply H; left|]. apply IH. intros y Hy. apply H. by right.
Qed.

Lemma Forall_concat_map {A B : Type} (P : B → Prop) (f : A → list B) (l : list A) :
  (∀ x, x ∈ l → Forall P (f x)) → Forall P (concat (map f l)).
Proof.
  induction l as [|x l IH]; intros H; simpl; [constructor|].
  apply Forall_app. split; [apply H; left|]. apply IH. intros y Hy. apply H. by right.
Qed.

Lemma tree_leaves_sublist tr : tree_leaves tr `sublist_of` ptrs tr.
Proof.
  induction tr as [t name|g children IH] using tree_ind_strong; simpl; [done|].
  apply sublist_cons. apply sublist_concat_map. intros x Hx.
  rewrite Forall_forall in IH. by apply IH.
Qed.

Lemma tree_leaves_traces w tr : models w tr → Forall (is_trace w) (tree_leaves tr).
Proof.
  induction tr as [t name|g children IH] using tree_ind_strong; intros Hm; simpl.
  - inversion Hm; subst. repeat constructor. by eexists _, _, _.
  - inversion Hm as [|? ? ? _ _ Hch]; subst.
    apply Forall_concat_map. intros tr Htr.
    rewrite Forall_forall in IH, Hch. apply IH; [done|]. by apply Hch.
Qed.

Lemma leaf_items_step_lookup branch_leaves w leaves i it :
  heap w !! i = Some it →
  leaf_items_step branch_leaves w leaves i
  = match kind it with
    | TraceGroup _ => bl ← branch_leaves i; Some (leaves ++ bl)
    | Trace _ _ => Some (leaves ++ [i])
    end.
Proof. intros H. unfold leaf_items_step. by rewrite H. Qed.

Lemma leaf_items_loop n w (ts : list tree)
    (Hgroups : ∀ g children, Node g children ∈ ts →
       trace_tree_leaf_items n (OwnerGroup g) w
       = Some (concat (map tree_leaves children))) :
  Forall (models w) ts →
  ∀ acc,
    for_each (leaf_items_step (λ g, trace_tree_leaf_items n (OwnerGroup g) w) w)
      (root <$> ts) acc
    = Some (acc ++ concat (map tree_leaves ts)).
Proof.
  induction ts as [|tr ts IH]; intros Hm acc.
  { simpl. by rewrite app_nil_r. }
  apply Forall_cons in Hm as [Htr Hm].
  rewrite fmap_cons. cbn [for_each concat map].
  inversion Htr as [t it name e Hit Hk|g it children Hit Hk Hch]; subst;
    cbn [root]; rewrite (leaf_items_step_lookup _ _ _ _ _ Hit), Hk;
    cbn [mbind option_bind].
  - rewrite IH; [|intros; apply Hgroups; by right|done].
    cbn [tree_leaves]. by rewrite <-app_assoc.
  - rewrite (Hgroups g children) by left. cbn [mbind option_bind].
    rewrite IH; [|intros; apply Hgroups; by right|done].
    cbn [tree_leaves]. by rewrite <-app_assoc.
Qed.

Lemma leaf_items_forest w : ∀ n (ts : list tree) o,
  trace_tree_child_items o w = Some (root <$> ts) →
  Forall (models w) ts → (0 < n)%nat → enough n ts →
  trace_tree_leaf_items n o w = Some (concat (map tree_leaves ts)).
Proof.
  induction n as [|n IH]; intros ts o Hch Hm Hn Hen; [lia|].
  simpl. rewrite Hch. simpl.
  rewrite (leaf_items_loop n w ts); [done| |done].
  intros g children Hin.
  unfold enough in Hen. rewrite Forall_forall in Hen, Hm.
  pose proof (Hen _ Hin) as Hd. pose proof (Hm _ Hin) as Hg. simpl in Hd.
  inversion Hg as [|? it ? Hit Hk Hchm]; subst.
  apply IH.
  - by apply models_child_items.
  - done.
  - lia.
  - apply Forall_forall. intros c Hc.
    assert (depth c ≤ max_list (map depth children))%nat; [|lia].
    apply max_list_elem_of_le, (list_elem_of_fmap_2 depth). done.
Qed.

(** X9. [trace_tree_leaf_items] returns the traces below the owner from
    left to right, depth first: a trace among the children stands for
    itself, a group for the traces below it, and a group without traces
    for nothing.  Every item returned is a trace, and none is returned
    twice. *)
Theorem trace_tree_leaf_items_spec n o w ts :
  owner_tree o w ts → (0 < n)%nat → enough n ts →
  ∃ leaves,
    trace_tree_leaf_items n o w = Some leaves ∧
    leaves = concat (map tree_leaves ts) ∧
    NoDup leaves ∧ Forall (is_trace w) leaves.
Proof.
  intros Hot Hn Hen. pose proof (owner_tree_children _ _ _ Hot) as Hch.
  destruct Hot as (_ & Hm & Hnd & _).
  exists (concat (map tree_leaves ts)). split_and!; [|done| |].
  - by apply leaf_items_forest.
  - apply (sublist_NoDup _ (concat (map ptrs ts)) Hnd).
    apply sublist_concat_map. intros. apply tree_leaves_sublist.
  - apply Forall_concat_map. intros tr Htr.
    rewrite Forall_forall in Hm. by apply tree_leaves_traces, Hm.
Qed.

Lemma trace_tree_leaf_items_spec_witness :
  ∃ leaves,
    trace_tree_leaf_items 2 OwnerView example_nested = Some leaves ∧
    leaves = concat (map tree_leaves example_nested_forest) ∧
    NoDup leaves ∧ Forall (is_trace example_nested) leaves.
Proof.
  apply (trace_tree_leaf_items_spec 2 OwnerView example_nested example_nested_forest
           example_nested_tree); [lia|exact example_nested_enough].
Defined.

(** ** Vertical extents *)

Lemma v_extents_loop_ordered child w ts : ∀ b lo hi,
  (b = true → lo ≤ hi) →
  (∀ t, t ∈ ts → is_Some (heap w !! t) ∧ ∃ e, child t = Some e ∧ e.1 ≤ e.2) →
  ∃ b' lo' hi',
    for_each (v_extents_step child w) ts (b, (lo, hi)) = Some (b', (lo', hi')) ∧
    (b' = true → lo' ≤ hi').
Proof.
  induction ts as [|t ts IH]; intros b lo hi Hacc Hts; cbn [for_each].
  { by exists b, lo, hi. }
  destruct (Hts t) as ([it Hit] & e & He & Hle); [left|].
  rewrite (v_extents_step_lookup _ _ _ _ _ Hit).
  destruct (enabled it); cbn [negb mbind option_bind].
  - rewrite He. cbn [mbind option_bind]. apply IH.
    + intros _. simpl. lia.
    + intros t' Ht'. apply Hts. by right.
  - apply IH; [done|]. intros t' Ht'. apply Hts. by right.
Qed.

Lemma v_extents_with_ordered child o w l :
  trace_tree_child_items o w = Some l →
  (∀ t, t ∈ l → ∃ e, child t = Some e ∧ e.1 ≤ e.2) →
  ∃ r, v_extents_with child o w = Some r ∧ r.1 ≤ r.2.
Proof.
  intros Hl Hch. unfold v_extents_with. rewrite Hl. cbn [mbind option_bind].
  destruct (v_extents_loop_ordered child w l false INT_MAX INT_MIN)
    as (b' & lo' & hi' & -> & Hle); [done| |].
  { intros t Ht. split; [|by apply Hch].
    unfold trace_tree_child_items in Hl.
    destruct (items_of o w) as [l'|]; simpl in Hl; [|done].
    case_guard as Hlive; simpl in Hl; [|done]. injection Hl as ->.
    rewrite Forall_forall in Hlive. by apply Hlive. }
  cbn [mbind option_bind]. destruct b'; eexists; (split; [done|]); simpl; [auto|lia].
Qed.

Lemma item_v_extents_ordered w : ∀ n tr,
  models w tr → (depth tr < n)%nat →
  (∀ p it name e, p ∈ ptrs tr → heap w !! p = Some it → kind it = Trace name e →
                  e.1 ≤ e.2) →
  ∃ e, item_v_extents n w (root tr) = Some e ∧ e.1 ≤ e.2.
Proof.
  induction n as [|n IH]; intros tr Hm Hd Hleaf; [lia|].
  inversion Hm as [t it name e Hit Hk|g it children Hit Hk Hch]; subst;
    cbn [root item_v_extents]; rewrite Hit; cbn [mbind option_bind]; rewrite Hk.
  - exists e. split; [done|]. eapply (Hleaf t); [by left|done..].
  - apply (v_extents_with_ordered _ _ _ (root <$> children)).
    { by apply models_child_items. }
    intros t (c & -> & Hc)%list_elem_of_fmap.
    rewrite Forall_forall in Hch. apply IH.
    + by apply Hch.
    + simpl in Hd.
      assert (depth c ≤ max_list (map depth children))%nat; [|lia].
      apply max_list_elem_of_le, (list_elem_of_fmap_2 depth). done.
    + intros p it' name e Hp. apply Hleaf. simpl. right.
      by apply (elem_of_concat_ptrs children c).
Qed.

(** X10. Extents do not turn inside out: when no trace below the owner
    reports an upper bound below its lower bound, [v_extents] of the
    owner, and of every group on the way, returns a pair with
    [first <= second], whatever the offsets and the flags are, and also
    when no child is enabled. *)
Theorem v_extents_ordered n o w ts :
  owner_tree o w ts → enough n ts →
  (∀ p it name e, p ∈ concat (map ptrs ts) → heap w !! p = Some it →
                  kind it = Trace name e → e.1 ≤ e.2) →
  ∃ r, v_extents n o w = Some r ∧ r.1 ≤ r.2.
Proof.
  intros Hot Hen Hleaf. unfold v_extents.
  apply (v_extents_with_ordered _ _ _ (root <$> ts)).
  { by apply owner_tree_children. }
  destruct Hot as (_ & Hm & _). unfold enough in Hen.
  rewrite Forall_forall in Hm, Hen.
  intros t (c & -> & Hc)%list_elem_of_fmap.
  apply item_v_extents_ordered; [by apply Hm|by apply Hen|].
  intros p it name e Hp. apply Hleaf. by apply (elem_of_concat_ptrs ts c).
Qed.

Lemma v_extents_ordered_witness :
  ∃ r, v_extents 2 OwnerView example_nested = Some r ∧ r.1 ≤ r.2.
Proof.
  apply (v_extents_ordered 2 OwnerView example_nested example_nested_forest
           example_nested_tree example_nested_enough).
  intros p it name e Hp Hit Hk.
  repeat (apply elem_of_cons in Hp as [->|Hp]);
    [..|by apply elem_of_nil in Hp];
    vm_compute in Hit; injection Hit as <-; simpl in Hk;
    try discriminate Hk; injection Hk as _ <-; simpl; lia.
Defined.

(** ** Restacking *)

(** X11. [restack_items] writes the offsets of the children of the
    owner and nothing else: the list of the owner is in the order it was
    (the vector that is sorted is a copy), no notification is sent, every
    item is what it was up to its offset, the offset of an item that is
    not a child of the owner (the items inside a child group among them)
    is what it was, and so is the extent that each child reports. *)
Theorem restack_items_frame n o w ts :
  owner_tree o w ts → enough n ts →
  ∃ w', restack_items n o w = Some w' ∧
        offsets_moved (root <$> ts) w w' ∧
        child_items o w' = child_items o w ∧
        owner_tree o w' ts ∧
        (∀ t, t ∈ root <$> ts → item_v_extents n w' t = item_v_extents n w t).
Proof.
  intros Hot Hen.
  destruct (owner_tree_reads n o w ts Hot Hen) as (cs & Hreads & Hptrs).
  destruct (restack_items_cs n o w ts cs Hot Hreads Hptrs) as (_ & Hrun & _ & Hmoved).
  exists (write_offsets (cs_restack cs) w). split_and!; [done|done|..].
  - unfold child_items. by eapply offsets_moved_items_of.
  - by eapply offsets_moved_owner_tree.
  - intros t Ht. by eapply owner_tree_extents_stable.
Qed.

Lemma restack_items_frame_witness :
  ∃ w', restack_items 2 OwnerView example_nested = Some w' ∧
        offsets_moved (root <$> example_nested_forest) example_nested w' ∧
        child_items OwnerView w' = child_items OwnerView example_nested ∧
        owner_tree OwnerView w' example_nested_forest ∧
        (∀ t, t ∈ root <$> example_nested_forest →
              item_v_extents 2 w' t = item_v_extents 2 example_nested t).
Proof.
  exact (restack_items_frame 2 OwnerView example_nested example_nested_forest
           example_nested_tree example_nested_enough).
Defined.

Lemma cs_walk_app l1 : ∀ l2 T,
  cs_walk (l1 ++ l2) T = cs_walk l1 T ++ cs_walk l2 (cs_total l1 T).
Proof.
  induction l1 as [|c l1 IH]; intros l2 T; [done|].
  rewrite <-app_comm_cons, cs_walk_cons, IH, (cs_walk_cons c l1), (cs_total_cons c l1).
  by rewrite <-app_assoc.
Qed.

Lemma cs_walk_dragging_in l : ∀ T c,
  c ∈ l → cs_dragging c = true → c ∈ cs_walk l T.
Proof.
  induction l as [|c0 l IH]; intros T c Hc Hdr; [by apply elem_of_nil in Hc|].
  apply elem_of_cons in Hc as [->|Hc]; simpl.
  - case_bool_decide; [left|]. rewrite Hdr. simpl. left.
  - case_bool_decide; right; by apply IH.
Qed.

Lemma reads_elem n w cs t :
  reads n w cs → t ∈ cs_ptr <$> cs →
  ∃ c, c ∈ cs ∧ cs_ptr c = t ∧ child_state_of n w t = Some c.
Proof.
  intros Hreads (c & -> & Hc)%list_elem_of_fmap. exists c. split_and!; [done..|].
  unfold reads in Hreads. rewrite Forall_forall in Hreads. by apply Hreads.
Qed.

(** X12. A child that is being dragged keeps its offset: [restack_items]
    does not call [set_layout_v_offset] on it. *)
Theorem restack_items_dragging n o w ts d it :
  owner_tree o w ts → enough n ts → d ∈ root <$> ts →
  heap w !! d = Some it → dragging it = true →
  ∃ w', restack_items n o w = Some w' ∧
        layout_v_offset <$> heap w' !! d = Some (layout_v_offset it).
Proof.
  intros Hot Hen Hd Hit Hdr.
  destruct (owner_tree_reads n o w ts Hot Hen) as (cs & Hreads & Hptrs).
  destruct (restack_items_cs n o w ts cs Hot Hreads Hptrs) as (_ & Hrun & Hreads' & _).
  exists (write_offsets (cs_restack cs) w). split; [done|].
  rewrite <-Hptrs in Hd.
  destruct (reads_elem _ _ _ _ Hreads Hd) as (c & Hc & <- & Hcs).
  apply child_state_of_Some in Hcs as (it0 & e & Hit0 & He & Hceq).
  assert (it0 = it) as -> by congruence.
  assert (cs_dragging c = true) as Hcdr by (by rewrite Hceq).
  assert (c ∈ cs_restack cs) as Hc'.
  { apply cs_walk_dragging_in; [|done]. by rewrite cs_sorted_Permutation. }
  unfold reads in Hreads'. rewrite Forall_forall in Hreads'.
  apply Hreads', child_state_of_Some in Hc' as (it' & e' & -> & _ & Hceq').
  simpl. f_equal. rewrite Hceq in Hceq'. by injection Hceq'.
Qed.

Lemma example_dragged_tree : owner_tree OwnerView example_dragged example_flat_forest.
Proof. solve_owner_tree. Qed.

Lemma restack_items_dragging_witness :
  ∃ w', restack_items 1 OwnerView example_dragged = Some w' ∧
        layout_v_offset <$> heap w' !! 2%positive = Some 50.
Proof.
  apply (restack_items_dragging 1 OwnerView example_dragged example_flat_forest
           2%positive (example_trace "b" (0, 10) (Some OwnerView) true true 50)
           example_dragged_tree).
  - compute_done.
  - compute_done.
  - reflexivity.
  - reflexivity.
Defined.

Lemma rooms_cons n w t l : rooms n w (t :: l) = room n w t + rooms n w l.
Proof. done. Qed.

Lemma cs_total_rooms n w l : ∀ T,
  reads n w l → cs_total l T = T + rooms n w (cs_ptr <$> l).
Proof.
  induction l as [|c l IH]; intros T Hreads; [simpl; lia|].
  apply Forall_cons in Hreads as [Hc Hreads].
  rewrite fmap_cons, rooms_cons. cbn [cs_total]. unfold room. rewrite Hc. cbv beta iota.
  destruct (decide (cs_zero c)) as [Hz|Hz].
  { rewrite !bool_decide_true by done. rewrite (IH _ Hreads). lia. }
  rewrite !bool_decide_false by done.
  destruct (cs_enabled c); rewrite (IH _ Hreads); lia.
Qed.

Lemma rooms_Permutation n w l1 l2 : l1 ≡ₚ l2 → rooms n w l1 = rooms n w l2.
Proof.
  unfold rooms. induction 1 as [|x l1 l2 _ IH|x y l|l1 l2 l3 _ IH1 _ IH2]; simpl;
    [done|by rewrite IH|lia|congruence].
Qed.

(** X13. The offsets that [restack_items] assigns, in closed form: a
    child that takes part (extents not (0, 0), not being dragged) is put
    below the room that the children visited before it take, that is the
    sum of the heights of those that are enabled and have extents other
    than (0, 0); an enabled child has its upper edge there
    ([offset + extents.first] is that sum), a disabled child its
    origin. *)
Theorem restack_items_offsets n o w ts :
  owner_tree o w ts → enough n ts →
  ∃ order w',
    restack_order n o w = Some order ∧ restack_items n o w = Some w' ∧
    ∀ pre d post it e,
      order = pre ++ d :: post →
      heap w !! d = Some it → item_v_extents n w d = Some e →
      ¬ (e.1 = 0 ∧ e.2 = 0) → dragging it = false →
      layout_v_offset <$> heap w' !! d
      = Some (if enabled it then rooms n w pre - e.1 else rooms n w pre).
Proof.
  intros Hot Hen.
  destruct (owner_tree_reads n o w ts Hot Hen) as (cs & Hreads & Hptrs).
  destruct (restack_items_cs n o w ts cs Hot Hreads Hptrs) as (_ & Hrun & Hreads' & _).
  set (w' := write_offsets (cs_restack cs) w) in *. clearbody w'.
  exists (cs_ptr <$> stable_sort cs_before cs), w'.
  split; [by eapply restack_order_cs|]. split; [done|].
  intros pre d post it e Horder Hit He Hnz Hdr.
  apply fmap_app_inv in Horder as (lpre & lrest & -> & Hrest & Hsorted).
  symmetry in Hrest. apply fmap_cons_inv in Hrest as (c & lpost & -> & -> & ->).
  assert (reads n w (lpre ++ c :: lpost)) as Hrs.
  { rewrite <-Hsorted. eapply reads_Permutation; [|done].
    symmetry. apply cs_sorted_Permutation. }
  unfold reads in Hrs. apply Forall_app in Hrs as [Hrpre Hrc].
  apply Forall_cons in Hrc as [Hc _].
  apply child_state_of_Some in Hc as (it0 & e0 & Hit0 & He0 & Hceq).
  assert (it0 = it) as -> by congruence. assert (e0 = e) as -> by congruence.
  unfold cs_restack in Hreads'. rewrite Hsorted, cs_walk_app in Hreads'.
  unfold reads in Hreads'. apply Forall_app in Hreads' as [_ Hrc'].
  rewrite (cs_total_rooms n w lpre 0 Hrpre), Z.add_0_l in Hrc'.
  simpl in Hrc'. rewrite bool_decide_false in Hrc'.
  2:{ unfold cs_zero. by rewrite Hceq. }
  assert (cs_dragging c = false) as Hcdr by (by rewrite Hceq). rewrite Hcdr in Hrc'.
  simpl in Hrc'. apply Forall_cons in Hrc' as [Hc' _]. simpl in Hc'.
  apply child_state_of_Some in Hc' as (it' & e' & Hit' & _ & Hceq').
  rewrite Hit'. simpl. f_equal.
  apply (f_equal cs_offset) in Hceq'. simpl in Hceq'. rewrite <-Hceq'.
  rewrite Hceq. simpl. destruct (enabled it); lia.
Qed.

Lemma restack_items_offsets_witness :
  ∃ order w',
    restack_order 2 OwnerView example_nested = Some order ∧
    restack_items 2 OwnerView example_nested = Some w' ∧
    ∀ pre d post it e,
      order = pre ++ d :: post →
      heap example_nested !! d = Some it → item_v_extents 2 example_nested d = Some e →
      ¬ (e.1 = 0 ∧ e.2 = 0) → dragging it = false →
      layout_v_offset <$> heap w' !! d
      = Some (if enabled it then rooms 2 example_nested pre - e.1
              else rooms 2 example_nested pre).
Proof.
  exact (restack_items_offsets 2 OwnerView example_nested example_nested_forest
           example_nested_tree example_nested_enough).
Defined.

Lemma cs_total_disabled l : ∀ T,
  Forall (λ c, cs_enabled c ≠ true) l → cs_total l T = T.
Proof.
  induction l as [|c l IH]; intros T Hl; [done|].
  apply Forall_cons in Hl as [Hc Hl]. cbn [cs_total].
  destruct (cs_enabled c); [done|]. case_bool_decide; by apply IH.
Qed.

Lemma cs_walk_enabled_cons c l T :
  cs_enabled c = true → cs_dragging c = false → cs_nonzero c →
  cs_walk (c :: l) T
  = cs_set_offset (T + - (cs_extents c).1) c
    :: cs_walk l (T + - (cs_extents c).1 + (cs_extents c).2) ∧
  cs_total (c :: l) T = cs_total l (T + - (cs_extents c).1 + (cs_extents c).2).
Proof.
  intros Hen Hdr Hnz. cbn [cs_walk cs_total].
  rewrite !bool_decide_false by done. by rewrite Hen, Hdr.
Qed.

Lemma cs_walk_disabled_cons c l T :
  cs_enabled c = false →
  ∃ c', cs_walk (c :: l) T = c' :: cs_walk l T ∧ cs_enabled c' = false ∧
        cs_total (c :: l) T = cs_total l T.
Proof.
  intros Hen. cbn [cs_walk cs_total]. rewrite Hen.
  case_bool_decide; [by exists c|].
  destruct (cs_dragging c); simpl; eexists; split_and!; done.
Qed.

(** The walk puts the enabled children one below the other, from the
    running total on. *)
Lemma cs_walk_tiles l : ∀ T,
  Forall cs_stacked l →
  T ≤ cs_total l T ∧
  Forall (λ c', cs_enabled c' = true → T ≤ cs_top c' ∧ cs_bottom c' ≤ cs_total l T)
    (cs_walk l T) ∧
  StronglySorted
    (λ a b, cs_enabled a = true → cs_enabled b = true → cs_bottom a ≤ cs_top b)
    (cs_walk l T) ∧
  (Exists (λ c, cs_enabled c = true) l →
   Exists (λ c', cs_enabled c' = true ∧ cs_top c' = T) (cs_walk l T) ∧
   Exists (λ c', cs_enabled c' = true ∧ cs_bottom c' = cs_total l T) (cs_walk l T)).
Proof.
  induction l as [|c l IH]; intros T Hst.
  { simpl. split_and!; [lia|constructor|constructor|]. by intros ?%Exists_nil. }
  apply Forall_cons in Hst as [Hc Hl].
  destruct (cs_enabled c) eqn:Hen.
  - destruct (Hc Hen) as (Hdr & Hnz & Hle).
    destruct (cs_walk_enabled_cons c l T Hen Hdr Hnz) as [-> ->].
    set (T' := T + - (cs_extents c).1 + (cs_extents c).2).
    destruct (IH T' Hl) as (Hmono & Hall & Hsorted & Hex).
    assert (T ≤ T') as HT by (unfold T'; lia).
    split_and!.
    + lia.
    + constructor.
      * intros _. unfold cs_top, cs_bottom. simpl. unfold T' in *. lia.
      * eapply Forall_impl; [exact Hall|]. simpl. intros c' Hc' Hen'.
        specialize (Hc' Hen'). lia.
    + constructor; [done|].
      eapply Forall_impl; [exact Hall|]. simpl. intros c' Hc' _ Hen'.
      specialize (Hc' Hen'). unfold cs_bottom at 1. simpl. unfold T' in Hc'. lia.
    + intros _. split.
      * apply Exists_cons_hd. split; [done|]. unfold cs_top. simpl. lia.
      * destruct (decide (Exists (λ c, cs_enabled c = true) l)) as [Hsome|Hnone].
        { apply Exists_cons_tl. by apply Hex. }
        apply Exists_cons_hd. split; [done|].
        rewrite (cs_total_disabled l T') by (by apply not_Exists_Forall; [apply _|]).
        unfold cs_bottom. simpl. unfold T' in *. lia.
  - destruct (cs_walk_disabled_cons c l T Hen) as (c' & -> & Hen' & ->).
    destruct (IH T Hl) as (Hmono & Hall & Hsorted & Hex).
    split_and!.
    + done.
    + constructor; [|done]. intros ?. congruence.
    + constructor; [done|]. apply Forall_forall. intros b _ ?. congruence.
    + intros [?|Hsome]%Exists_cons; [congruence|].
      destruct (Hex Hsome). split; by apply Exists_cons_tl.
Qed.

Lemma reads_stacked n w ts cs :
  reads n w cs → cs_ptr <$> cs = root <$> ts →
  (∀ t it e, t ∈ root <$> ts → heap w !! t = Some it →
             item_v_extents n w t = Some e → enabled it = true →
             dragging it = false ∧ ¬ (e.1 = 0 ∧ e.2 = 0) ∧ e.1 ≤ e.2) →
  Forall cs_stacked cs.
Proof.
  intros Hreads Hptr Hcond. apply Forall_forall. intros c Hc.
  unfold reads in Hreads. rewrite Forall_forall in Hreads.
  pose proof (Hreads c Hc) as (it & e & Hit & He & Heq)%child_state_of_Some.
  intros Hen. rewrite Heq in Hen |- *. simpl in *.
  apply (Hcond (cs_ptr c) it e); [|done..].
  rewrite <-Hptr. apply list_elem_of_fmap. by exists c.
Qed.

Lemma child_state_translated n w c :
  child_state_of n w (cs_ptr c) = Some c →
  translated_extents n w (cs_ptr c) = Some (cs_top c, cs_bottom c) ∧
  (is_enabled w (cs_ptr c) ↔ cs_enabled c = true).
Proof.
  intros (it & e & Hit & He & Heq)%child_state_of_Some.
  unfold translated_extents, is_enabled. rewrite Hit, He. simpl.
  rewrite Heq. unfold cs_top, cs_bottom. simpl. split.
  - do 2 f_equal; lia.
  - split; congruence.
Qed.

Lemma StronglySorted_either {A : Type} (R : A → A → Prop) l x y :
  StronglySorted R l → x ∈ l → y ∈ l → x ≠ y → R x y ∨ R y x.
Proof.
  induction 1 as [|z l Hl IH Hz]; intros Hx Hy Hne; [by apply elem_of_nil in Hx|].
  rewrite Forall_forall in Hz.
  apply elem_of_cons in Hx as [->|Hx]; apply elem_of_cons in Hy as [->|Hy].
  - done.
  - left. by apply Hz.
  - right. by apply Hz.
  - by apply IH.
Qed.

Lemma offsets_moved_is_enabled R w w' t :
  offsets_moved R w w' → is_enabled w' t ↔ is_enabled w t.
Proof.
  intros Hmoved. unfold is_enabled.
  destruct (heap w !! t) as [it|] eqn:Hit.
  - destruct (offsets_moved_lookup _ _ _ _ _ Hmoved Hit) as (v & -> & _). done.
  - destruct Hmoved as (_ & _ & Hh). specialize (Hh t). rewrite Hit in Hh.
    by rewrite Hh.
Qed.

Lemma cs_walk_ints_enabled_cons c l T :
  cs_enabled c = true → cs_nonzero c →
  cs_walk_ints (c :: l) T
  = [ - (cs_extents c).1; T + - (cs_extents c).1;
      T + - (cs_extents c).1 + (cs_extents c).2 ]
    ++ cs_walk_ints l (T + - (cs_extents c).1 + (cs_extents c).2).
Proof.
  intros Hen Hnz. cbn [cs_walk_ints]. rewrite bool_decide_false by done.
  by rewrite Hen.
Qed.

Lemma cs_walk_ints_disabled_cons c l T :
  cs_enabled c = false → cs_walk_ints (c :: l) T = cs_walk_ints l T.
Proof. intros Hen. cbn [cs_walk_ints]. rewrite Hen. by case_bool_decide. Qed.

(** When the sums of the walk fit an [int], so do the edges of the
    enabled children at their new offsets. *)
Lemma cs_walk_edges_in_range l : ∀ T,
  Forall cs_stacked l → in_int_range T →
  Forall in_int_range (cs_walk_ints l T) →
  Forall (λ c', cs_enabled c' = true →
                in_int_range (cs_top c') ∧ in_int_range (cs_bottom c'))
    (cs_walk l T).
Proof.
  induction l as [|c l IH]; intros T Hst HT Hw; [constructor|].
  apply Forall_cons in Hst as [Hc Hl].
  destruct (cs_enabled c) eqn:Hen.
  - destruct (Hc Hen) as (Hdr & Hnz & Hle).
    destruct (cs_walk_enabled_cons c l T Hen Hdr Hnz) as [-> _].
    rewrite (cs_walk_ints_enabled_cons c l T Hen Hnz) in Hw.
    apply Forall_app in Hw as [Hw3 Hw].
    apply Forall_cons in Hw3 as [_ [_ [HT' _]%Forall_cons]%Forall_cons].
    constructor; [|by apply IH].
    intros _. unfold cs_top, cs_bottom. simpl.
    unfold in_int_range in *. split; lia.
  - destruct (cs_walk_disabled_cons c l T Hen) as (c' & -> & Hen' & _).
    rewrite (cs_walk_ints_disabled_cons c l T Hen) in Hw.
    constructor; [intros ?; congruence|by apply IH].
Qed.

(** X14. After [restack_items] the enabled children do not overlap.
    When every enabled child is placed (it is not being dragged and its
    extents are not (0, 0)) and reports extents that are not inside out,
    and no [int] of the call overflows, then of any two enabled children
    one ends where the other begins, or above it. *)
Theorem restack_items_no_overlap n o w ts :
  owner_tree o w ts → enough n ts →
  (∀ t it e, t ∈ root <$> ts → heap w !! t = Some it →
             item_v_extents n w t = Some e → enabled it = true →
             dragging it = false ∧ ¬ (e.1 = 0 ∧ e.2 = 0) ∧ e.1 ≤ e.2) →
  restack_in_range n o w →
  ∃ w', restack_items n o w = Some w' ∧
        ∀ a b, a ∈ root <$> ts → b ∈ root <$> ts → a ≠ b →
               is_enabled w a → is_enabled w b →
               ∃ ea eb, translated_extents n w' a = Some ea ∧
                        translated_extents n w' b = Some eb ∧
                        in_int_range ea.1 ∧ in_int_range ea.2 ∧
                        in_int_range eb.1 ∧ in_int_range eb.2 ∧
                        (ea.2 ≤ eb.1 ∨ eb.2 ≤ ea.1).
Proof.
  intros Hot Hen Hcond Hrange.
  destruct (owner_tree_reads n o w ts Hot Hen) as (cs & Hreads & Hptrs).
  unfold restack_in_range in Hrange.
  rewrite (restack_ints_cs n o w ts cs Hot Hreads Hptrs) in Hrange.
  apply Forall_app in Hrange as [_ Hwalk].
  destruct (restack_items_cs n o w ts cs Hot Hreads Hptrs)
    as (_ & Hrun & Hreads' & Hmoved).
  assert (Forall cs_stacked (stable_sort cs_before cs)) as Hst.
  { rewrite cs_sorted_Permutation. by eapply reads_stacked. }
  destruct (cs_walk_tiles _ 0 Hst) as (_ & _ & Hsorted & _).
  pose proof (cs_walk_edges_in_range _ 0 Hst ltac:(done) Hwalk) as Hedges.
  fold (cs_restack cs) in Hsorted, Hedges. rewrite Forall_forall in Hedges.
  assert (cs_ptr <$> cs_restack cs ≡ₚ root <$> ts) as Hperm.
  { unfold cs_restack. by rewrite cs_walk_ptrs, cs_sorted_Permutation, Hptrs. }
  set (w' := write_offsets (cs_restack cs) w) in *. clearbody w'.
  exists w'. split; [done|]. intros a b Ha Hb Hne Hena Henb.
  rewrite <-Hperm in Ha, Hb.
  destruct (reads_elem _ _ _ _ Hreads' Ha) as (ca & Hca & <- & Hcsa).
  destruct (reads_elem _ _ _ _ Hreads' Hb) as (cb & Hcb & <- & Hcsb).
  destruct (child_state_translated _ _ _ Hcsa) as [Hta Hea].
  destruct (child_state_translated _ _ _ Hcsb) as [Htb Heb].
  exists (cs_top ca, cs_bottom ca), (cs_top cb, cs_bottom cb).
  split; [done|]. split; [done|]. simpl.
  apply (offsets_moved_is_enabled _ _ _ _ Hmoved), Hea in Hena.
  apply (offsets_moved_is_enabled _ _ _ _ Hmoved), Heb in Henb.
  destruct (Hedges _ Hca Hena) as [Ra1 Ra2]. destruct (Hedges _ Hcb Henb) as [Rb1 Rb2].
  split_and!; [done..|].
  destruct (StronglySorted_either _ _ ca cb Hsorted Hca Hcb) as [H|H].
  - intros ->. done.
  - left. by apply H.
  - right. by apply H.
Qed.

Lemma restack_items_no_overlap_witness :
  ∃ w', restack_items 2 OwnerView example_nested = Some w' ∧
        ∀ a b, a ∈ root <$> example_nested_forest → b ∈ root <$> example_nested_forest →
               a ≠ b → is_enabled example_nested a → is_enabled example_nested b →
               ∃ ea eb, translated_extents 2 w' a = Some ea ∧
                        translated_extents 2 w' b = Some eb ∧
                        in_int_range ea.1 ∧ in_int_range ea.2 ∧
                        in_int_range eb.1 ∧ in_int_range eb.2 ∧
                        (ea.2 ≤ eb.1 ∨ eb.2 ≤ ea.1).
Proof.
  apply (restack_items_no_overlap 2 OwnerView example_nested example_nested_forest
           example_nested_tree example_nested_enough).
  - intros t it e Ht Hit He _.
    apply elem_of_cons in Ht as [->|Ht];
      [|apply elem_of_cons in Ht as [->|Ht]; [|by apply elem_of_nil in Ht]];
      vm_compute in Hit; injection Hit as <-;
      vm_compute in He; injection He as <-; simpl; lia.
  - compute_done.
Defined.

Lemma mapM_elem_of {A B : Type} (f : A → option B) l k :
  mapM f l = Some k → ∀ y, y ∈ k ↔ ∃ x, x ∈ l ∧ f x = Some y.
Proof.
  rewrite mapM_Some. induction 1 as [|x y' l k Hxy _ IH]; intros y.
  - split; [by intros ?%elem_of_nil|]. by intros (? & ?%elem_of_nil & _).
  - rewrite elem_of_cons, IH. split.
    + intros [->|(x' & ? & ?)]; [exists x; split; [left|done]|].
      exists x'. split; [by right|done].
    + intros (x' & [->|?]%elem_of_cons & Hx'); [left; congruence|].
      right. by exists x'.
Qed.

(** X15. The extent of the owner after [restack_items].  When every
    enabled child is placed (it is not being dragged and its extents are
    not (0, 0)) and reports extents that are not inside out, and some
    child is enabled, then [v_extents] of the owner begins at 0 and ends
    at the sum of the heights of the enabled children: they fill the
    extent of the owner without a gap. *)
Theorem restack_items_v_extents n o w ts :
  owner_tree o w ts → enough n ts →
  (∀ t it e, t ∈ root <$> ts → heap w !! t = Some it →
             item_v_extents n w t = Some e → enabled it = true →
             dragging it = false ∧ ¬ (e.1 = 0 ∧ e.2 = 0) ∧ e.1 ≤ e.2) →
  (∃ t, t ∈ root <$> ts ∧ is_enabled w t) →
  ∃ w', restack_items n o w = Some w' ∧
        v_extents n o w' = Some (0, rooms n w (root <$> ts)).
Proof.
  intros Hot Hen Hcond (t0 & Ht0 & Hen0).
  destruct (owner_tree_reads n o w ts Hot Hen) as (cs & Hreads & Hptrs).
  destruct (restack_items_cs n o w ts cs Hot Hreads Hptrs)
    as (_ & Hrun & Hreads' & Hmoved).
  assert (Forall cs_stacked (stable_sort cs_before cs)) as Hst.
  { rewrite cs_sorted_Permutation. by eapply reads_stacked. }
  assert (reads n w (stable_sort cs_before cs)) as Hrs.
  { eapply reads_Permutation; [|done]. symmetry. apply cs_sorted_Permutation. }
  destruct (cs_walk_tiles _ 0 Hst) as (Hmono & Hall & _ & Hex).
  rewrite (cs_total_rooms n w _ 0 Hrs), Z.add_0_l in Hmono, Hall, Hex.
  rewrite (rooms_Permutation n w _ (root <$> ts)) in Hmono, Hall, Hex
    by (by rewrite cs_sorted_Permutation, Hptrs).
  fold (cs_restack cs) in Hall, Hex.
  assert (cs_ptr <$> cs_restack cs ≡ₚ root <$> ts) as Hperm.
  { unfold cs_restack. by rewrite cs_walk_ptrs, cs_sorted_Permutation, Hptrs. }
  pose proof (offsets_moved_owner_tree _ _ _ _ _ Hmoved Hot) as Hot'.
  set (total := rooms n w (root <$> ts)) in *.
  set (w' := write_offsets (cs_restack cs) w) in *. clearbody w'.
  exists w'. split; [done|].
  (* the enabled children, as [v_extents] reads them *)
  assert (∀ t, t ∈ root <$> ts →
            ∃ c, c ∈ cs_restack cs ∧ cs_ptr c = t ∧
                 translated_extents n w' t = Some (cs_top c, cs_bottom c) ∧
                 (is_enabled w' t ↔ cs_enabled c = true)) as Hchild.
  { intros t Ht. rewrite <-Hperm in Ht.
    destruct (reads_elem _ _ _ _ Hreads' Ht) as (c & Hc & <- & Hcs).
    destruct (child_state_translated _ _ _ Hcs) as [Htr Hiff]. by exists c. }
  assert (is_Some (mapM (translated_extents n w')
                     (filter (is_enabled w') (root <$> ts)))) as [tex Htex].
  { apply mapM_is_Some, Forall_forall. intros t [_ Ht]%list_elem_of_filter.
    destruct (Hchild t Ht) as (c & _ & _ & Htr & _). simpl. rewrite Htr. eauto. }
  pose proof (mapM_elem_of _ _ _ Htex) as Helem.
  assert (∀ y, y ∈ tex ↔ ∃ c, c ∈ cs_restack cs ∧ cs_enabled c = true ∧
                              y = (cs_top c, cs_bottom c)) as Htex_iff.
  { intros y. rewrite Helem. split.
    - intros (t & [Hent Ht]%list_elem_of_filter & Hy).
      destruct (Hchild t Ht) as (c & Hc & _ & Htr & Hiff).
      exists c. split_and!; [done|by apply Hiff|congruence].
    - intros (c & Hc & Hcen & ->).
      assert (cs_ptr c ∈ root <$> ts) as Ht.
      { rewrite <-Hperm. apply list_elem_of_fmap. by exists c. }
      unfold reads in Hreads'. rewrite Forall_forall in Hreads'.
      destruct (child_state_translated _ _ _ (Hreads' c Hc)) as [Htr Hiff].
      exists (cs_ptr c). split; [|done].
      apply list_elem_of_filter. split; [by apply Hiff|done]. }
  assert (Exists (λ c, cs_enabled c = true) (stable_sort cs_before cs)) as Hsome.
  { rewrite <-Hptrs in Ht0.
    destruct (reads_elem _ _ _ _ Hreads Ht0) as (c0 & Hc0 & <- & Hcs0).
    apply Exists_exists. exists c0. split; [by rewrite cs_sorted_Permutation|].
    by apply (child_state_translated _ _ _ Hcs0). }
  destruct (Hex Hsome) as [Hfirst Hlast].
  apply Exists_exists in Hfirst as (cf & Hcf & Hcfen & Hcftop).
  apply Exists_exists in Hlast as (cl & Hcl & Hclen & Hclbot).
  rewrite Forall_forall in Hall.
  unfold v_extents, v_extents_with.
  rewrite (owner_tree_children _ _ _ Hot'). cbn [mbind option_bind].
  rewrite (v_extents_loop _ w' (root <$> ts) tex false (INT_MAX, INT_MIN)).
  2:{ apply Forall_forall. intros t Ht. destruct (Hchild t Ht) as (c & _ & _ & Htr & _).
      unfold translated_extents in Htr. by destruct (heap w' !! t). }
  2:{ exact Htex. }
  cbn [mbind option_bind orb]. rewrite bool_decide_true.
  2:{ intros ->. apply (not_elem_of_nil (cs_top cf, cs_bottom cf)).
      apply Htex_iff. by exists cf. }
  f_equal.
  destruct (fold_extents_bounds tex (INT_MAX, INT_MIN)) as (_ & Hbound & Hlo & Hhi).
  set (r := fold_extents tex (INT_MAX, INT_MIN)) in *. clearbody r.
  assert ((cs_top cf, cs_bottom cf) ∈ tex) as Hf by (apply Htex_iff; by exists cf).
  assert ((cs_top cl, cs_bottom cl) ∈ tex) as Hl by (apply Htex_iff; by exists cl).
  pose proof (Hbound _ Hf) as [Hf1 _]. pose proof (Hbound _ Hl) as [_ Hl2].
  pose proof (Hall _ Hcf Hcfen) as [_ Hfb]. pose proof (Hall _ Hcl Hclen) as [Hlt _].
  simpl in *.
  assert (r.1 = 0) as Hr1.
  { destruct Hlo as [Hlo|(e & (c & Hc & Hcen & ->)%Htex_iff & Hlo)].
    - unfold INT_MAX in Hlo. lia.
    - destruct (Hall _ Hc Hcen). simpl in Hlo. lia. }
  assert (r.2 = total) as Hr2.
  { destruct Hhi as [Hhi|(e & (c & Hc & Hcen & ->)%Htex_iff & Hhi)].
    - unfold INT_MIN in Hhi. unfold cs_top, cs_bottom in *. lia.
    - destruct (Hall _ Hc Hcen). simpl in Hhi. lia. }
  destruct r. simpl in *. congruence.
Qed.

Lemma restack_items_v_extents_witness :
  ∃ w', restack_items 2 OwnerView example_nested = Some w' ∧
        v_extents 2 OwnerView w'
        = Some (0, rooms 2 example_nested (root <$> example_nested_forest)).
Proof.
  apply (restack_items_v_extents 2 OwnerView example_nested example_nested_forest
           example_nested_tree example_nested_enough).
  - intros t it e Ht Hit He _.
    apply elem_of_cons in Ht as [->|Ht];
      [|apply elem_of_cons in Ht as [->|Ht]; [|by apply elem_of_nil in Ht]];
      vm_compute in Hit; injection Hit as <-;
      vm_compute in He; injection He as <-; simpl; lia.
  - exists 1%positive. split; [left|reflexivity].
Defined.

(** ** Saving, whatever the store holds *)

(** What a save into the current section leaves alone: the cursor, the
    keys outside of the section, and the presence of every key. *)
Lemma save_loop_frame child_save pfx (ts : list tree)
    (Hchild : ∀ tr s, tr ∈ ts →
       ∃ s', child_save (root tr) s = Some s' ∧ group s' = group s ∧
             (∀ k, ¬ under (group s) k → values s' !! k = values s !! k) ∧
             (∀ k, is_Some (values s !! k) → is_Some (values s' !! k))) :
  ∀ (i : nat) s,
    group s = pfx →
    ∃ s', for_each (save_step child_save) (root <$> ts) (s, Z.of_nat i)
          = Some (s', Z.of_nat (i + length ts)) ∧
          group s' = pfx ∧
          (∀ k, ¬ under pfx k → values s' !! k = values s !! k) ∧
          (∀ k, is_Some (values s !! k) → is_Some (values s' !! k)).
Proof.
  induction ts as [|tr ts IH]; intros i s Hg.
  { exists s. simpl. rewrite Nat.add_0_r. by split_and!. }
  destruct (Hchild tr (beginGroup (QString_number (Z.of_nat i)) s))
    as (s1 & Hsave & Hg1 & Hout1 & Hkeep1); [left|].
  simpl in Hg1, Hout1, Hkeep1. rewrite Hg in Hg1, Hout1.
  destruct (IH (λ tr' s' Htr', Hchild tr' s' (list_elem_of_further _ _ _ Htr'))
              (S i) (endGroup s1)) as (s' & Hloop & Hg' & Hout' & Hkeep').
  { unfold endGroup. simpl. rewrite Hg1. by rewrite removelast_last. }
  exists s'. split_and!.
  - rewrite fmap_cons. cbn [for_each]. rewrite save_step_unfold.
    rewrite Hsave. cbn [mbind option_bind].
    replace (Z.of_nat i + 1) with (Z.of_nat (S i)) by lia.
    rewrite Hloop. do 2 f_equal. simpl. lia.
  - done.
  - intros k Hk. rewrite Hout' by done. simpl. apply Hout1.
    intros Hk'. apply Hk. by eapply under_section.
  - intros k Hk. apply Hkeep'. simpl. by apply Hkeep1.
Qed.

Lemma save_with_frame child_save o w (ts : list tree) s
    (Hchild : ∀ tr s, tr ∈ ts →
       ∃ s', child_save (root tr) s = Some s' ∧ group s' = group s ∧
             (∀ k, ¬ under (group s) k → values s' !! k = values s !! k) ∧
             (∀ k, is_Some (values s !! k) → is_Some (values s' !! k))) :
  trace_tree_child_items o w = Some (root <$> ts) →
  ∃ s', save_trace_tree_with child_save o w s = Some s' ∧ group s' = group s ∧
        values s' !! (group s ++ ["items"]) = Some (QInt (Z.of_nat (length ts))) ∧
        (∀ k, ¬ under (group s) k → values s' !! k = values s !! k) ∧
        (∀ k, is_Some (values s !! k) → is_Some (values s' !! k)).
Proof.
  intros Hts. unfold save_trace_tree_with. rewrite Hts. simpl.
  destruct (save_loop_frame child_save (group s) ts Hchild 0%nat s eq_refl)
    as (s1 & Hloop & Hg1 & Hout & Hkeep).
  change 0 with (Z.of_nat 0). rewrite Hloop. simpl.
  eexists. split; [done|]. unfold setValue. simpl. rewrite Hg1.
  split_and!; [done|by rewrite lookup_insert_eq|..].
  - intros k Hk. rewrite lookup_insert_ne; [by apply Hout|].
    intros <-. apply Hk, under_key.
  - intros k Hk. destruct (decide (group s ++ ["items"] = k)) as [<-|Hne].
    + rewrite lookup_insert_eq. eauto.
    + rewrite lookup_insert_ne by done. by apply Hkeep.
Qed.

Lemma item_save_frame w tr : ∀ n s,
  models w tr → (depth tr < n)%nat →
  ∃ s', item_save_trace_tree n w (root tr) s = Some s' ∧ group s' = group s ∧
        (∀ k, ¬ under (group s) k → values s' !! k = values s !! k) ∧
        (∀ k, is_Some (values s !! k) → is_Some (values s' !! k)).
Proof.
  induction tr as [t name|g children IH] using tree_ind_strong;
    intros [|n] s Hmod Hn; simpl in Hn; try lia.
  - inversion Hmod as [? it ? e Hit Hk|]; subst. simpl. rewrite Hit. simpl.
    rewrite Hk. eexists. split; [done|]. unfold setValue. simpl.
    split_and!; [done|..].
    + intros k Hk'. rewrite lookup_insert_ne; [done|]. intros <-.
      apply Hk', under_key.
    + intros k Hk'. destruct (decide (group s ++ ["trace"] = k)) as [<-|Hne].
      * rewrite lookup_insert_eq. eauto.
      * by rewrite lookup_insert_ne.
  - pose proof (models_child_items _ _ _ Hmod) as Hl.
    inversion Hmod as [|? it ? Hit Hk Hch]; subst. simpl. rewrite Hit. simpl.
    rewrite Hk.
    destruct (save_with_frame (item_save_trace_tree n w) (OwnerGroup g) w children s)
      as (s' & ? & ? & _ & ? & ?); [|done|by exists s'].
    intros c s0 Hc. rewrite Forall_forall in IH, Hch.
    apply (IH c Hc n s0); [by apply Hch|].
    assert (depth c ≤ max_list (map depth children))%nat; [|lia].
    apply max_list_elem_of_le, (list_elem_of_fmap_2 depth). done.
Qed.

(** X16. [save_trace_tree] works on a store that already holds keys, and
    it only adds and overwrites: it returns with the group cursor where
    it was, ["items"] of the current group holds the number of children
    of the owner, every key outside of the current group has the value it
    had, and no key is removed, so that what an earlier, larger tree left
    in the group stays there. *)
Theorem save_trace_tree_frame n o w ts s :
  owner_tree o w ts → enough n ts →
  ∃ s', save_trace_tree n o w s = Some s' ∧ group s' = group s ∧
        value "items" s' = QInt (Z.of_nat (length ts)) ∧
        (∀ k, ¬ under (group s) k → values s' !! k = values s !! k) ∧
        (∀ k, is_Some (values s !! k) → is_Some (values s' !! k)).
Proof.
  intros Hot Hn. unfold save_trace_tree.
  destruct (save_with_frame (item_save_trace_tree n w) o w ts s)
    as (s' & Hsave & Hg & Hitems & Hout & Hkeep).
  { intros tr s0 Htr. destruct Hot as (_ & Hmod & _).
    unfold enough in Hn. rewrite Forall_forall in Hmod, Hn.
    apply item_save_frame; [by apply Hmod|by apply Hn]. }
  { by apply owner_tree_children. }
  exists s'. split_and!; [done..| |done|done].
  unfold value. by rewrite Hg, Hitems.
Qed.

Lemma save_trace_tree_frame_witness :
  ∃ s', save_trace_tree 2 OwnerView example_nested example_settings_empty_group
        = Some s' ∧
        group s' = group example_settings_empty_group ∧
        value "items" s' = QInt (Z.of_nat (length example_nested_forest)) ∧
        (∀ k, ¬ under (group example_settings_empty_group) k →
              values s' !! k = values example_settings_empty_group !! k) ∧
        (∀ k, is_Some (values example_settings_empty_group !! k) →
              is_Some (values s' !! k)).
Proof.
  exact (save_trace_tree_frame 2 OwnerView example_nested example_nested_forest
           example_settings_empty_group example_nested_tree example_nested_enough).
Defined.

(** ** What is saved *)

Lemma save_with_agree child child' o o' w w' l s :
  trace_tree_child_items o w = Some l →
  trace_tree_child_items o' w' = Some l →
  (∀ t s0, t ∈ l → child' t s0 = child t s0) →
  save_trace_tree_with child' o' w' s = save_trace_tree_with child o w s.
Proof.
  intros Hl Hl' Hsame. unfold save_trace_tree_with. rewrite Hl, Hl'.
  cbn [mbind option_bind]. f_equal.
  apply for_each_ext. intros [s0 i] t Ht. rewrite !save_step_unfold.
  by rewrite Hsame.
Qed.

Lemma item_save_agree w w' tr :
  models w tr → models w' tr →
  ∀ n s, item_save_trace_tree n w' (root tr) s = item_save_trace_tree n w (root tr) s.
Proof.
  induction tr as [t name|g children IH] using tree_ind_strong;
    intros Hm Hm' [|n] s; [done| |done|].
  - inversion Hm as [? it ? e Hit Hk|]; subst.
    inversion Hm' as [? it' ? e' Hit' Hk'|]; subst.
    simpl. rewrite Hit, Hit'. simpl. by rewrite Hk, Hk'.
  - pose proof (models_child_items _ _ _ Hm) as Hl.
    pose proof (models_child_items _ _ _ Hm') as Hl'.
    inversion Hm as [|? it ? Hit Hk Hch]; subst.
    inversion Hm' as [|? it' ? Hit' Hk' Hch']; subst.
    simpl. rewrite Hit, Hit'. simpl. rewrite Hk, Hk'.
    apply (save_with_agree _ _ _ _ _ _ _ _ Hl Hl').
    intros t s0 (c & -> & Hc)%list_elem_of_fmap.
    rewrite Forall_forall in IH, Hch, Hch'.
    apply IH; [done|by apply Hch|by apply Hch'].
Qed.

(** X17. [save_trace_tree] stores the nesting of the groups and the
    names of the traces, and nothing else: two states in which the owner
    has the same tree give the same store, whatever the offsets, the
    flags, the extents and the back-references of the items are. *)
Theorem save_trace_tree_names_only n o w w' ts s :
  owner_tree o w ts → owner_tree o w' ts →
  save_trace_tree n o w' s = save_trace_tree n o w s.
Proof.
  intros Hot Hot'. unfold save_trace_tree.
  apply (save_with_agree _ _ _ _ _ _ (root <$> ts)); [by apply owner_tree_children..|].
  destruct Hot as (_ & Hm & _), Hot' as (_ & Hm' & _).
  rewrite Forall_forall in Hm, Hm'.
  intros t s0 (c & -> & Hc)%list_elem_of_fmap.
  apply item_save_agree; [by apply Hm|by apply Hm'].
Qed.

Lemma save_trace_tree_names_only_witness :
  save_trace_tree 2 OwnerView
    (default example_nested (restack_items 2 OwnerView example_nested))
    (mkSettings [] ∅)
  = save_trace_tree 2 OwnerView example_nested (mkSettings [] ∅).
Proof.
  apply (save_trace_tree_names_only 2 OwnerView example_nested
           (default example_nested (restack_items 2 OwnerView example_nested))
           example_nested_forest (mkSettings [] ∅) example_nested_tree).
  solve_owner_tree.
Defined.

(** ** Saving twice *)

Lemma has_tree_agree vals vals' tr : ∀ p,
  (∀ k, under p k → vals' !! k = vals !! k) →
  has_tree vals p tr → has_tree vals' p tr.
Proof.
  induction tr as [t name|g children IH] using tree_ind_strong; intros p Hsame; simpl.
  - intros H. by rewrite Hsame by apply under_key.
  - intros [H1 H2]. split; [by rewrite Hsame by apply under_key|].
    revert H2. apply forall_indexed_impl. intros j c _ Hc.
    rewrite Forall_forall in IH. apply (IH c Hc).
    intros k Hk. apply Hsame. by eapply under_section.
Qed.

Lemma has_from_agree vals vals' p ts : ∀ i,
  (∀ k j, (i ≤ j)%nat → under (p ++ [QString_number (Z.of_nat j)]) k →
          vals' !! k = vals !! k) →
  has_from vals p i ts → has_from vals' p i ts.
Proof.
  intros i Hsame. unfold has_from. apply forall_indexed_impl.
  intros j c Hj _. apply has_tree_agree. intros k Hk. by apply (Hsame k j).
Qed.

Lemma save_loop_has child_save pfx (ts : list tree)
    (Hchild : ∀ tr s, tr ∈ ts →
       ∃ s', child_save (root tr) s = Some s' ∧ group s' = group s ∧
             has_tree (values s') (group s) tr ∧
             (∀ k, ¬ under (group s) k → values s' !! k = values s !! k)) :
  ∀ (i : nat) s,
    group s = pfx →
    ∃ s', for_each (save_step child_save) (root <$> ts) (s, Z.of_nat i)
          = Some (s', Z.of_nat (i + length ts)) ∧
          group s' = pfx ∧
          has_from (values s') pfx i ts ∧
          (∀ k, (∀ j, (i ≤ j)%nat → ¬ under (pfx ++ [QString_number (Z.of_nat j)]) k) →
                values s' !! k = values s !! k).
Proof.
  induction ts as [|tr ts IH]; intros i s Hg.
  { exists s. simpl. rewrite Nat.add_0_r. by split_and!. }
  destruct (Hchild tr (beginGroup (QString_number (Z.of_nat i)) s))
    as (s1 & Hsave & Hg1 & Hst & Hout1); [left|].
  simpl in Hg1, Hst, Hout1. rewrite Hg in Hg1, Hst, Hout1.
  destruct (IH (λ tr' s' Htr', Hchild tr' s' (list_elem_of_further _ _ _ Htr'))
              (S i) (endGroup s1)) as (s' & Hloop & Hg' & Hst' & Hout').
  { unfold endGroup. simpl. rewrite Hg1. by rewrite removelast_last. }
  exists s'. split_and!.
  - rewrite fmap_cons. cbn [for_each]. rewrite save_step_unfold.
    rewrite Hsave. cbn [mbind option_bind].
    replace (Z.of_nat i + 1) with (Z.of_nat (S i)) by lia.
    rewrite Hloop. do 2 f_equal. simpl. lia.
  - done.
  - split; [|done]. apply (has_tree_agree (values s1)); [|done].
    intros k Hk. rewrite Hout'; [done|].
    intros j Hj Hk'. pose proof (under_sections_disjoint _ _ _ _ Hk Hk'). lia.
  - intros k Hk. rewrite Hout'; [|intros j Hj; apply Hk; lia].
    simpl. apply Hout1. apply Hk. lia.
Qed.

Lemma save_with_has child_save o w (ts : list tree) s
    (Hchild : ∀ tr s, tr ∈ ts →
       ∃ s', child_save (root tr) s = Some s' ∧ group s' = group s ∧
             has_tree (values s') (group s) tr ∧
             (∀ k, ¬ under (group s) k → values s' !! k = values s !! k)) :
  trace_tree_child_items o w = Some (root <$> ts) →
  ∃ s', save_trace_tree_with child_save o w s = Some s' ∧ group s' = group s ∧
        has_forest (values s') (group s) ts ∧
        (∀ k, ¬ under (group s) k → values s' !! k = values s !! k).
Proof.
  intros Hts. unfold save_trace_tree_with. rewrite Hts. simpl.
  destruct (save_loop_has child_save (group s) ts Hchild 0%nat s eq_refl)
    as (s1 & Hloop & Hg1 & Hst & Hout).
  change 0 with (Z.of_nat 0). rewrite Hloop. simpl.
  eexists. split; [done|]. unfold setValue. simpl. rewrite Hg1.
  split; [done|]. split.
  - split; [by rewrite lookup_insert_eq|].
    apply (has_from_agree (values s1)); [|done]. intros k j _ Hk.
    rewrite lookup_insert_ne; [done|]. intros <-.
    by apply key_not_under_section in Hk.
  - intros k Hk. rewrite lookup_insert_ne.
    + apply Hout. intros j _ Hk'. apply Hk. by eapply under_section.
    + intros <-. apply Hk. apply under_key.
Qed.

Lemma item_save_has w tr : ∀ n s,
  models w tr → (depth tr < n)%nat →
  ∃ s', item_save_trace_tree n w (root tr) s = Some s' ∧ group s' = group s ∧
        has_tree (values s') (group s) tr ∧
        (∀ k, ¬ under (group s) k → values s' !! k = values s !! k).
Proof.
  induction tr as [t name|g children IH] using tree_ind_strong;
    intros [|n] s Hmod Hn; simpl in Hn; try lia.
  - inversion Hmod as [? it ? e Hit Hk|]; subst. simpl. rewrite Hit. simpl.
    rewrite Hk. eexists. split; [done|]. unfold setValue. simpl.
    split_and!; [done|by rewrite lookup_insert_eq|].
    intros k Hk'. rewrite lookup_insert_ne; [done|]. intros <-.
    apply Hk', under_key.
  - pose proof (models_child_items _ _ _ Hmod) as Hl.
    inversion Hmod as [|? it ? Hit Hk Hch]; subst. simpl. rewrite Hit. simpl.
    rewrite Hk.
    apply (save_with_has (item_save_trace_tree n w) (OwnerGroup g) w children s);
      [|done].
    intros c s0 Hc. rewrite Forall_forall in IH, Hch.
    apply (IH c Hc n s0); [by apply Hch|].
    assert (depth c ≤ max_list (map depth children))%nat; [|lia].
    apply max_list_elem_of_le, (list_elem_of_fmap_2 depth). done.
Qed.

Lemma setValue_id key v s :
  values s !! (group s ++ [key]) = Some v → setValue key v s = s.
Proof. intros H. destruct s. unfold setValue. simpl in *. by rewrite insert_id. Qed.

Lemma save_loop_fixed child_save (ts : list tree)
    (Hchild : ∀ tr s, tr ∈ ts → has_tree (values s) (group s) tr →
                      child_save (root tr) s = Some s) :
  ∀ (i : nat) s,
    has_from (values s) (group s) i ts →
    for_each (save_step child_save) (root <$> ts) (s, Z.of_nat i)
    = Some (s, Z.of_nat (i + length ts)).
Proof.
  induction ts as [|tr ts IH]; intros i s Hhas.
  { simpl. by rewrite Nat.add_0_r. }
  destruct Hhas as [Htr Hts].
  rewrite fmap_cons. cbn [for_each]. rewrite save_step_unfold.
  rewrite (Hchild tr) by (done || left). cbn [mbind option_bind].
  rewrite endGroup_beginGroup.
  replace (Z.of_nat i + 1) with (Z.of_nat (S i)) by lia.
  rewrite IH; [do 2 f_equal; simpl; lia| |done].
  intros tr' s' Htr'. apply Hchild. by right.
Qed.

Lemma save_with_fixed child_save o w (ts : list tree) s
    (Hchild : ∀ tr s, tr ∈ ts → has_tree (values s) (group s) tr →
                      child_save (root tr) s = Some s) :
  trace_tree_child_items o w = Some (root <$> ts) →
  has_forest (values s) (group s) ts →
  save_trace_tree_with child_save o w s = Some s.
Proof.
  intros Hts [Hitems Hfrom]. unfold save_trace_tree_with. rewrite Hts. simpl.
  change 0 with (Z.of_nat 0). rewrite (save_loop_fixed _ _ Hchild) by done.
  simpl. by rewrite setValue_id.
Qed.

Lemma item_save_fixed w tr : ∀ n s,
  models w tr → (depth tr < n)%nat → has_tree (values s) (group s) tr →
  item_save_trace_tree n w (root tr) s = Some s.
Proof.
  induction tr as [t name|g children IH] using tree_ind_strong;
    intros [|n] s Hmod Hn Hhas; simpl in Hn; try lia.
  - inversion Hmod as [? it ? e Hit Hk|]; subst. simpl. rewrite Hit. simpl.
    rewrite Hk. by rewrite setValue_id.
  - pose proof (models_child_items _ _ _ Hmod) as Hl.
    inversion Hmod as [|? it ? Hit Hk Hch]; subst. simpl. rewrite Hit. simpl.
    rewrite Hk.
    apply (save_with_fixed (item_save_trace_tree n w) (OwnerGroup g) w children s);
      [|done|done].
    intros c s0 Hc Hc0. rewrite Forall_forall in IH, Hch.
    apply (IH c Hc n s0); [by apply Hch| |done].
    assert (depth c ≤ max_list (map depth children))%nat; [|lia].
    apply max_list_elem_of_le, (list_elem_of_fmap_2 depth). done.
Qed.

(** X18. Saving twice is saving once: [save_trace_tree] on the store
    that [save_trace_tree] has just written, for the same tree and in
    the same group, returns the store as it is.  This holds whatever the
    store held before the first call. *)
Theorem save_trace_tree_idempotent n o w ts s :
  owner_tree o w ts → enough n ts →
  ∃ s', save_trace_tree n o w s = Some s' ∧ save_trace_tree n o w s' = Some s'.
Proof.
  intros Hot Hn. pose proof (owner_tree_children _ _ _ Hot) as Hch.
  destruct Hot as (_ & Hmod & _). unfold enough in Hn.
  rewrite Forall_forall in Hmod, Hn. unfold save_trace_tree.
  destruct (save_with_has (item_save_trace_tree n w) o w ts s)
    as (s' & Hsave & Hg & Hhas & _); [|done|].
  { intros tr s0 Htr. apply item_save_has; [by apply Hmod|by apply Hn]. }
  exists s'. split; [done|].
  apply (save_with_fixed _ _ _ ts); [|done|by rewrite Hg].
  intros tr s0 Htr Hhas0. apply item_save_fixed; [by apply Hmod|by apply Hn|done].
Qed.

Lemma save_trace_tree_idempotent_witness :
  ∃ s', save_trace_tree 2 OwnerView example_nested example_settings_empty_group
        = Some s' ∧
        save_trace_tree 2 OwnerView example_nested s' = Some s'.
Proof.
  exact (save_trace_tree_idempotent 2 OwnerView example_nested example_nested_forest
           example_settings_empty_group example_nested_tree example_nested_enough).
Defined.

(** ** Restoring *)

Lemma restore_section_settings restore items o i s w s' w' :
  (∀ o1 st r, restore o1 st = Some r → r.1 = st.1) →
  restore_section restore items o i (s, w) = Some (s', w') → s' = s.
Proof.
  intros Hrestore H. unfold restore_section in H.
  set (sec := beginGroup (QString_number i) s) in H.
  assert (endGroup sec = s) as Hend by apply endGroup_beginGroup.
  destruct (contains "items" sec).
  - destruct (make_shared_TraceGroup w) as [g w1].
    destruct (restore (OwnerGroup g) (sec, w1)) as [[s2 w2]|] eqn:Hr;
      cbn [mbind option_bind] in H; [|done].
    apply Hrestore in Hr. simpl in Hr. subst s2.
    destruct (child_items (OwnerGroup g) w2) as [l|]; cbn [mbind option_bind] in H;
      [|done].
    destruct (if bool_decide (l = []) then Some w2 else add_child_item o g w2)
      as [w3|]; cbn [mbind option_bind] in H; [|done].
    injection H as <- _. done.
  - destruct (contains "trace" sec); [|by injection H as <- _].
    destruct (items !! toString (value "trace" sec)) as [t|];
      [|by injection H as <- _].
    destruct (add_child_item o t w) as [w1|]; cbn [mbind option_bind] in H; [|done].
    destruct (heap w1 !! t) as [it|]; cbn [mbind option_bind] in H; [|done].
    destruct (kind it).
    + cbn [mbind option_bind] in H. by injection H as <- _.
    + destruct (restore (OwnerGroup t) (sec, w1)) as [[s2 w2]|] eqn:Hr;
        cbn [mbind option_bind] in H; [|done].
      apply Hrestore in Hr. simpl in Hr. subst s2. by injection H as <- _.
Qed.

Lemma restore_loop_settings body k :
  (∀ i st r, body i st = Some r → r.1 = st.1) →
  ∀ i st r, restore_loop body k i st = Some r → r.1 = st.1.
Proof.
  intros Hbody. induction k as [|k IH]; intros i st r H; simpl in H.
  { by injection H as <-. }
  destruct (body i st) as [st1|] eqn:Hb; cbn [mbind option_bind] in H; [|done].
  apply Hbody in Hb. apply IH in H. congruence.
Qed.

Lemma restore_trace_tree_settings n items : ∀ o st r,
  restore_trace_tree n items o st = Some r → r.1 = st.1.
Proof.
  induction n as [|n IH]; intros o st r H; [done|]. cbn [restore_trace_tree] in H.
  case_guard; cbn [mbind option_bind] in H; [|done].
  destruct (restore_loop _ _ _ st) as [[s1 w1]|] eqn:Hloop;
    cbn [mbind option_bind] in H; [|done].
  destruct (restack_items n o w1) as [w2|]; cbn [mbind option_bind] in H; [|done].
  injection H as <-. simpl.
  apply restore_loop_settings in Hloop; [done|].
  intros i [s0 w0] [s0' w0'] Hsec. simpl.
  by apply (restore_section_settings _ _ _ _ _ _ _ _ (IH) Hsec).
Qed.

(** X19. [restore_trace_tree] only reads the settings: whenever it
    returns, the store holds what it held and the group cursor is where
    it was, every [beginGroup] having met its [endGroup]. *)
Theorem restore_trace_tree_reads_settings n items o s w s' w' :
  restore_trace_tree n items o (s, w) = Some (s', w') → s' = s.
Proof. intros H. by apply restore_trace_tree_settings in H. Qed.

Lemma restore_trace_tree_reads_settings_witness :
  (default (mkSettings [] ∅, example_empty)
     (restore_trace_tree 3 example_nested_table OwnerView
        (default (mkSettings [] ∅)
           (save_trace_tree 3 OwnerView example_nested (mkSettings [] ∅)),
         example_nested_cleared))).1
  = default (mkSettings [] ∅)
      (save_trace_tree 3 OwnerView example_nested (mkSettings [] ∅)).
Proof.
  apply (restore_trace_tree_reads_settings 3 example_nested_table OwnerView
           (default (mkSettings [] ∅)
              (save_trace_tree 3 OwnerView example_nested (mkSettings [] ∅)))
           example_nested_cleared _
           (default (mkSettings [] ∅, example_empty)
              (restore_trace_tree 3 example_nested_table OwnerView
                 (default (mkSettings [] ∅)
                    (save_trace_tree 3 OwnerView example_nested (mkSettings [] ∅)),
                  example_nested_cleared))).2).
  vm_compute. reflexivity.
Defined.

(** X20. A section that names a trace (it has the key ["trace"] and not
    the key ["items"]).  When the table has no item for the name, the
    section is skipped and the state is what it was.  When the table has
    a trace for it that no owner holds, the trace becomes the last child
    of the owner and refers back to it. *)
Theorem restore_section_trace restore items o i s w :
  let section := beginGroup (QString_number i) s in
  let name := toString (value "trace" section) in
  contains "items" section = false → contains "trace" section = true →
  (items !! name = None →
   restore_section restore items o i (s, w) = Some (s, w)) ∧
  (∀ t l, items !! name = Some t → loose_trace w t → items_of o w = Some l →
     ∃ w', restore_section restore items o i (s, w) = Some (s, w') ∧
           child_items o w' = Some (l ++ [t]) ∧
           owner_of t w' = Some o).
Proof.
  intros section name Hitems Htrace. split.
  - intros Hname. unfold restore_section. fold section.
    rewrite Hitems, Htrace. fold name. rewrite Hname. cbn [mbind option_bind].
    unfold section. by rewrite endGroup_beginGroup.
  - intros t l Hname (it & nm & e & Hit & Hown & Hk) Hl.
    assert (OwnerGroup t ≠ o) as Hto.
    { eapply loose_trace_not_owner; [|done]. by exists it, nm, e. }
    destruct (add_child_item_heap o w t it l Hit Hown Hl Hto)
      as (w' & Hadd & Hl' & Hit' & _).
    exists w'. unfold restore_section. fold section.
    rewrite Hitems, Htrace. fold name. rewrite Hname, Hadd. cbn [mbind option_bind].
    rewrite Hit'. cbn [mbind option_bind]. simpl. rewrite Hk.
    cbn [mbind option_bind]. unfold section. rewrite endGroup_beginGroup.
    split_and!; [done|done|]. unfold owner_of. by rewrite Hit'.
Qed.

(** X21. A section that names a trace which the table has, while an
    owner still holds that trace: [add_child_item] fails its assertion,
    and so does the restore of the section.  The caller has to detach
    the traces of the table first. *)
Theorem restore_section_owned_trace restore items o i s w t o' :
  let section := beginGroup (QString_number i) s in
  contains "items" section = false → contains "trace" section = true →
  items !! toString (value "trace" section) = Some t →
  owner_of t w = Some o' →
  restore_section restore items o i (s, w) = None.
Proof.
  intros section Hitems Htrace Hname (it & Hit & Hown)%owner_of_Some.
  unfold restore_section. fold section. rewrite Hitems, Htrace, Hname.
  unfold add_child_item. rewrite Hit. cbn [mbind option_bind].
  rewrite option_guard_False; [done|]. congruence.
Qed.

Lemma restore_section_trace_witness :
  ∃ w', restore_section (restore_trace_tree 2 example_nested_table)
          example_nested_table OwnerView 0
          (example_nested_saved, example_nested_cleared)
        = Some (example_nested_saved, w') ∧
        child_items OwnerView w' = Some ([] ++ [1%positive]) ∧
        owner_of 1%positive w' = Some OwnerView.
Proof.
  refine (proj2 (restore_section_trace (restore_trace_tree 2 example_nested_table)
                   example_nested_table OwnerView 0 example_nested_saved
                   example_nested_cleared _ _) 1%positive [] _ _ _).
  - vm_compute. reflexivity.
  - vm_compute. reflexivity.
  - vm_compute. reflexivity.
  - eexists _, _, _. split_and!; vm_compute; reflexivity.
  - vm_compute. reflexivity.
Defined.

Lemma restore_section_owned_trace_witness :
  restore_section (restore_trace_tree 2 example_nested_table)
    example_nested_table OwnerView 0 (example_nested_saved, example_nested)
  = None.
Proof.
  apply (restore_section_owned_trace (restore_trace_tree 2 example_nested_table)
           example_nested_table OwnerView 0 example_nested_saved example_nested
           1%positive OwnerView).
  - vm_compute. reflexivity.
  - vm_compute. reflexivity.
  - vm_compute. reflexivity.
  - vm_compute. reflexivity.
Defined.

(** X22. [restore_trace_tree] does not clear the owner: the children
    that the owner has stay in front, in their order, and what the
    section holds is restored behind them, with the leaves that the
    table lacks and the groups left empty pruned. *)
Theorem restore_trace_tree_appends n items o s w ts facc :
  enough_to_restore n ts → enough_to_restore n facc →
  stores_forest (values s) (group s) ts →
  owner_tree o w facc →
  Forall (loose_trace w) (kept_leaves items ts) →
  NoDup (kept_leaves items ts) →
  (∀ q, q ∈ kept_leaves items ts → q ∉ concat (map ptrs facc)) →
  ∃ w' fnew,
    restore_trace_tree n items o (s, w) = Some (s, w') ∧
    owner_tree o w' (facc ++ fnew) ∧
    child_items o w' = Some ((root <$> facc) ++ (root <$> fnew)) ∧
    shape_of_tree <$> fnew = omap (prune items) ts.
Proof.
  intros [Hpos Hdepth] [_ Hdepth'] [Hcount Hstores] Hot Hloose Hnd Hdisj.
  destruct n as [|n]; [lia|]. cbn [restore_trace_tree].
  assert (contains "items" s = true) as Hcontains.
  { unfold contains. rewrite Hcount. by apply bool_decide_eq_true_2. }
  rewrite option_guard_True by done.
  assert (toInt (value "items" (s, w).1) = Z.of_nat (length ts)) as ->.
  { unfold value. simpl. by rewrite Hcount. }
  rewrite Nat2Z.id.
  assert (enough n ts) as Hn.
  { eapply Forall_impl; [exact Hdepth|]. simpl. intros; lia. }
  assert (enough n facc) as Hnacc.
  { eapply Forall_impl; [exact Hdepth'|]. simpl. intros; lia. }
  destruct (restore_loop_spec n items (restore_spec_holds items n) o (group s) ts
              0%nat s w facc)
    as (w1 & fnew & Hloop & Hot1 & Hshape & _); [done..|].
  change (Z.of_nat 0) with 0 in Hloop. rewrite Hloop. cbn [mbind option_bind].
  pose proof (restored_enough items n ts fnew Hshape Hn) as Hn'.
  assert (enough n (facc ++ fnew)) as Hnall by (by apply Forall_app).
  destruct (owner_tree_reads n o w1 _ Hot1 Hnall) as (cs & Hreads & Hptr).
  destruct (restack_items_cs n o w1 _ cs Hot1 Hreads Hptr)
    as (_ & Hrestack & _ & Hmoved).
  rewrite Hrestack. cbn [mbind option_bind].
  pose proof (offsets_moved_owner_tree _ _ _ _ _ Hmoved Hot1) as Hot'.
  eexists _, fnew. split_and!; [done|done| |done].
  destruct Hot' as (Hl & _). unfold child_items. by rewrite Hl, fmap_app.
Qed.

Lemma restore_trace_tree_appends_witness :
  ∃ w' fnew,
    restore_trace_tree 3 example_loose_table OwnerView
      (example_settings_trace, example_loose)
    = Some (example_settings_trace, w') ∧
    owner_tree OwnerView w' (example_nested_forest ++ fnew) ∧
    child_items OwnerView w'
    = Some ((root <$> example_nested_forest) ++ (root <$> fnew)) ∧
    shape_of_tree <$> fnew = omap (prune example_loose_table) [Leaf 4 "c"].
Proof.
  apply (restore_trace_tree_appends 3 example_loose_table OwnerView
           example_settings_trace example_loose [Leaf 4 "c"] example_nested_forest).
  - split; [lia|]. repeat constructor; simpl; lia.
  - split; [lia|]. repeat constructor; simpl; lia.
  - split; [reflexivity|]. split; [|exact I]. split; reflexivity.
  - solve_owner_tree.
  - repeat constructor; eexists _, _, _; split_and!; vm_compute; reflexivity.
  - compute_done.
  - intros q Hq. change (q ∈ [4%positive]) in Hq.
    apply list_elem_of_singleton in Hq as ->. compute_done.
Defined.




(** ** Notifications and the order of the children *)

Lemma for_each_preserves {A S : Type} (P : S → Prop) (body : S → A → option S) l :
  (∀ s x s', body s x = Some s' → P s → P s') →
  ∀ s s', for_each body l s = Some s' → P s → P s'.
Proof.
  intros Hbody. induction l as [|x l IH]; intros s s' H Hs; simpl in H.
  { by injection H as <-. }
  destruct (body s x) as [s1|] eqn:Hb; cbn [mbind option_bind] in H; [|done].
  eapply IH; [done|]. by eapply Hbody.
Qed.

Lemma restack_step_signals n sig st r st' :
  restack_step n st r = Some st' → signals st.1 = sig → signals st'.1 = sig.
Proof.
  destruct st as [w T]. unfold restack_step. intros H Hsig.
  destruct (heap w !! r) as [it|] eqn:Hit; cbn [mbind option_bind] in H; [|done].
  destruct (item_v_extents n w r) as [e|]; cbn [mbind option_bind] in H; [|done].
  case_bool_decide; [by injection H as <-|].
  destruct (dragging it); cbn [negb mbind option_bind] in H.
  - by injection H as <-.
  - rewrite (update_item_Some _ _ _ _ Hit) in H. cbn [mbind option_bind] in H.
    by injection H as <-.
Qed.

(** X24. Who notifies.  [add_child_item] and [remove_child_item] each
    call [extents_changed(true, true)] of the owner once, as the last
    thing they do; [clear_child_items] and [restack_items] send no
    notification, whatever they change. *)
Theorem extents_changed_notifications n o x w w' :
  (add_child_item o x w = Some w' → signals w' = signals w ++ [(o, true, true)]) ∧
  (remove_child_item o x w = Some w' → signals w' = signals w ++ [(o, true, true)]) ∧
  (clear_child_items o w = Some w' → signals w' = signals w) ∧
  (restack_items n o w = Some w' → signals w' = signals w).
Proof.
  split_and!.
  - intros H. by destruct (add_child_item_inv _ _ _ _ H) as (? & ? & _ & _ & _ & _ & ? & _).
  - intros H.
    by destruct (remove_child_item_inv _ _ _ _ H)
      as (? & ? & ? & _ & _ & _ & _ & _ & ? & _).
  - intros H. by destruct (clear_child_items_inv _ _ _ H) as (? & _ & _ & _ & _ & ? & _).
  - unfold restack_items. intros H.
    destruct (restack_order n o w) as [order|]; cbn [mbind option_bind] in H; [|done].
    destruct (for_each (restack_step n) order (w, 0)) as [[w1 T]|] eqn:Hloop;
      cbn [mbind option_bind] in H; [|done].
    injection H as <-.
    apply (for_each_preserves (λ st, signals st.1 = signals w) _ _
             (λ s r s', restack_step_signals n (signals w) s r s') _ _ Hloop).
    done.
Qed.

Lemma extents_changed_notifications_witness :
  signals (default example_loose (add_child_item OwnerView 4%positive example_loose))
  = signals example_loose ++ [(OwnerView, true, true)] ∧
  signals (default example_loose (remove_child_item OwnerView 1%positive example_loose))
  = signals example_loose ++ [(OwnerView, true, true)] ∧
  signals (default example_loose (clear_child_items OwnerView example_loose))
  = signals example_loose ∧
  signals (default example_loose (restack_items 2 OwnerView example_loose))
  = signals example_loose.
Proof.
  split_and!.
  - refine (proj1 (extents_changed_notifications 2 OwnerView 4%positive
                     example_loose _) _).
    vm_compute. reflexivity.
  - refine (proj1 (proj2 (extents_changed_notifications 2 OwnerView 1%positive
                            example_loose _)) _).
    vm_compute. reflexivity.
  - refine (proj1 (proj2 (proj2 (extents_changed_notifications 2 OwnerView 1%positive
                                   example_loose _))) _).
    vm_compute. reflexivity.
  - refine (proj2 (proj2 (proj2 (extents_changed_notifications 2 OwnerView 1%positive
                                   example_loose _))) _).
    vm_compute. reflexivity.
Defined.

(** X25. The order of the children.  [add_child_item] puts the item
    behind the children that the owner has; [remove_child_item] takes
    out the first entry that is the item and leaves the others in their
    order, also when the item is listed more than once. *)
Theorem child_items_order o x w w' :
  (add_child_item o x w = Some w' →
   ∃ l, child_items o w = Some l ∧ child_items o w' = Some (l ++ [x])) ∧
  (remove_child_item o x w = Some w' →
   ∃ l1 l2, child_items o w = Some (l1 ++ x :: l2) ∧ (x ∉ l1) ∧
            child_items o w' = Some (l1 ++ l2)).
Proof.
  unfold child_items. split.
  - intros H. destruct (add_child_item_inv _ _ _ _ H) as (_ & l & _ & _ & ? & ? & _).
    by exists l.
  - intros H.
    destruct (remove_child_item_inv _ _ _ _ H)
      as (_ & l1 & l2 & _ & _ & ? & ? & ? & _).
    by exists l1, l2.
Qed.

Lemma child_items_order_witness :
  (∃ l, child_items OwnerView example_loose = Some l ∧
        child_items OwnerView
          (default example_loose (add_child_item OwnerView 4%positive example_loose))
        = Some (l ++ [4%positive])) ∧
  (∃ l1 l2, child_items OwnerView example_loose = Some (l1 ++ 1%positive :: l2) ∧
            (1%positive ∉ l1) ∧
            child_items OwnerView
              (default example_loose
                 (remove_child_item OwnerView 1%positive example_loose))
            = Some (l1 ++ l2)).
Proof.
  split.
  - refine (proj1 (child_items_order OwnerView 4%positive example_loose _) _).
    vm_compute. reflexivity.
  - refine (proj2 (child_items_order OwnerView 1%positive example_loose _) _).
    vm_compute. reflexivity.
Defined.

(** ** The tree stays well formed *)

Lemma models_same_kinds w w' tr :
  models w tr →
  (∀ p it, p ∈ ptrs tr → heap w !! p = Some it →
           ∃ it', heap w' !! p = Some it' ∧ kind it' = kind it) →
  models w' tr.
Proof.
  induction tr as [t name|g children IH] using tree_ind_strong; intros Hm Hsame.
  - inversion Hm as [? it ? e Hit Hk|]; subst.
    destruct (Hsame t it) as (it' & Hit' & Hk'); [by left|done|].
    eapply models_leaf; [done|]. by rewrite Hk'.
  - inversion Hm as [|? it ? Hit Hk Hch]; subst.
    destruct (Hsame g it) as (it' & Hit' & Hk'); [by left|done|].
    eapply models_node; [done|by rewrite Hk'|].
    rewrite Forall_forall in IH, Hch |- *. intros c Hc.
    apply IH; [done|by apply Hch|]. intros p itp Hp.
    apply Hsame. simpl. right. by apply (elem_of_concat_ptrs children c).
Qed.

Lemma remove_child_item_heap o w x it l1 l2 :
  heap w !! x = Some it → owner it = Some o →
  items_of o w = Some (l1 ++ x :: l2) → x ∉ l1 → OwnerGroup x ≠ o →
  ∃ w', remove_child_item o x w = Some w' ∧
        items_of o w' = Some (l1 ++ l2) ∧
        heap w' !! x = Some (set_owner None it) ∧
        (∀ t, t ≠ x → OwnerGroup t ≠ o → heap w' !! t = heap w !! t) ∧
        (∀ g ito, o = OwnerGroup g → heap w !! g = Some ito →
                  heap w' !! g = Some (set_kind (TraceGroup (l1 ++ l2)) ito)) ∧
        view_items w' = match o with OwnerView => l1 ++ l2 | _ => view_items w end ∧
        signals w' = signals w ++ [(o, true, true)].
Proof.
  intros Hx Hown Hl Hl1 Hxo. unfold remove_child_item. rewrite Hx. simpl.
  rewrite option_guard_True by done.
  rewrite (update_item_Some _ _ _ _ Hx). cbn [mbind option_bind].
  assert (erase_first x (l1 ++ x :: l2) = Some (l1 ++ l2)) as Herase.
  { clear -Hl1. induction l1 as [|y l1 IH]; simpl.
    - by rewrite decide_True.
    - apply not_elem_of_cons in Hl1 as [Hne Hl1].
      rewrite decide_False by done. by rewrite IH. }
  destruct o as [|g]; unfold items_of, set_items in *.
  - injection Hl as Hl. cbn [view_items with_heap]. rewrite Hl.
    cbn [mbind option_bind]. rewrite Herase. cbn [mbind option_bind].
    eexists. split; [done|]. simpl. split_and!; [done|..|done|done].
    + by rewrite lookup_insert_eq.
    + intros t Ht _. by rewrite lookup_insert_ne.
    + intros g ito [=].
  - assert (x ≠ g) as Hxg by congruence.
    destruct (heap w !! g) as [ito|] eqn:Hg; [|done]. cbn [mbind option_bind] in Hl.
    destruct (kind ito) eqn:Hk; [done|]. injection Hl as ->.
    cbn [heap with_heap].
    rewrite lookup_insert_ne by done. rewrite Hg. cbn [mbind option_bind].
    rewrite Hk. cbn [mbind option_bind]. rewrite Herase. cbn [mbind option_bind].
    eexists. split; [done|]. simpl. split_and!; [..|done|done].
    + by rewrite lookup_insert_eq.
    + rewrite lookup_insert_ne by done. by rewrite lookup_insert_eq.
    + intros t Ht Htg. rewrite !lookup_insert_ne; [done|done|congruence].
    + intros g' ito' [= <-] Hg'. rewrite Hg in Hg'. injection Hg' as <-.
      by rewrite lookup_insert_eq.
Qed.

(** X26. [add_child_item] keeps the tree well formed.  For a well-formed
    owner and a well-formed subtree that no owner holds, that shares no
    item with the tree of the owner and that does not contain the owner:
    [add_child_item] of its root returns, and the tree of the owner is
    the old one with the subtree behind it. *)
Theorem add_child_item_keeps_tree o w ts tr it :
  owner_tree o w ts → models w tr →
  heap w !! root tr = Some it → owner it = None →
  NoDup (ptrs tr) →
  (∀ p, p ∈ ptrs tr → (p ∉ concat (map ptrs ts)) ∧ OwnerGroup p ≠ o) →
  ∃ w', add_child_item o (root tr) w = Some w' ∧ owner_tree o w' (ts ++ [tr]).
Proof.
  intros Hot Htr Hit Hown Hndtr Hdisj.
  pose proof Hot as (Hitems & Hmod & Hnd & Hgo).
  assert (root tr ∈ ptrs tr) as Hroot by (rewrite ptrs_root_below; left).
  destruct (Hdisj _ Hroot) as [Hrts Hro].
  destruct (add_child_item_heap o w (root tr) it _ Hit Hown Hitems Hro)
    as (w' & Hadd & Hitems' & Hit' & Hothers & _).
  exists w'. split; [done|]. split_and!.
  - by rewrite fmap_app.
  - apply Forall_app. split.
    + rewrite Forall_forall in Hmod |- *. intros c Hc.
      apply (models_agree w); [by apply Hmod|]. intros p Hp.
      assert (p ∈ concat (map ptrs ts)) as Hpin by (by apply (elem_of_concat_ptrs _ c)).
      apply Hothers; [|by eapply owner_not_in_forest].
      intros ->. done.
    + constructor; [|constructor]. apply (models_same_kinds w); [done|].
      intros p itp Hp Hitp. destruct (decide (p = root tr)) as [->|Hne].
      * rewrite Hit'. eexists. split; [done|]. simpl. congruence.
      * rewrite Hothers; [eauto|done|]. by apply Hdisj.
  - rewrite concat_ptrs_app. simpl. rewrite app_nil_r.
    apply NoDup_app. split_and!; [done| |done].
    intros p Hp Hp'. by destruct (Hdisj p Hp').
  - intros g -> Hin. rewrite concat_ptrs_app in Hin. simpl in Hin.
    rewrite app_nil_r in Hin. apply elem_of_app in Hin as [Hin|Hin].
    + by apply (Hgo g).
    + by destruct (Hdisj g Hin).
Qed.

Lemma add_child_item_keeps_tree_witness :
  ∃ w', add_child_item OwnerView (root (Leaf 4 "c")) example_loose = Some w' ∧
        owner_tree OwnerView w' (example_nested_forest ++ [Leaf 4 "c"]).
Proof.
  apply (add_child_item_keeps_tree OwnerView example_loose example_nested_forest
           (Leaf 4 "c") (example_trace "c" (-5, 10) None true false 0)).
  - solve_owner_tree.
  - solve_models.
  - reflexivity.
  - reflexivity.
  - compute_done.
  - intros p Hp. change (p ∈ [4%positive]) in Hp.
    apply list_elem_of_singleton in Hp as ->. split; [compute_done|done].
Defined.

(** X27. [remove_child_item] keeps the tree well formed.  For a
    well-formed owner and a child that refers back to it:
    [remove_child_item] returns, the tree of the owner is the old one
    without the subtree of the child, the child refers to no owner, and
    the subtree below the child is what it was. *)
Theorem remove_child_item_keeps_tree o w ts1 tr ts2 :
  owner_tree o w (ts1 ++ tr :: ts2) → owner_of (root tr) w = Some o →
  ∃ w', remove_child_item o (root tr) w = Some w' ∧
        owner_tree o w' (ts1 ++ ts2) ∧
        models w' tr ∧ owner_of (root tr) w' = None.
Proof.
  intros Hot (it & Hit & Hown)%owner_of_Some.
  pose proof Hot as (Hitems & Hmod & Hnd & Hgo).
  rewrite fmap_app, fmap_cons in Hitems.
  pose proof (forest_roots_NoDup _ Hnd) as Hndr.
  rewrite fmap_app, fmap_cons in Hndr.
  apply NoDup_app in Hndr as (_ & Hr1 & [Hr2 _]%NoDup_cons).
  assert (root tr ∉ root <$> ts1) as Hx1.
  { intros Hin. apply (Hr1 _ Hin). left. }
  assert (∀ p, p ∈ ptrs tr → OwnerGroup p ≠ o) as Htro.
  { intros p Hp. apply (owner_not_in_forest _ _ _ _ Hot).
    apply (elem_of_concat_ptrs _ tr); [|done].
    apply elem_of_app. right. left. }
  assert (root tr ∈ ptrs tr) as Hroot by (rewrite ptrs_root_below; left).
  destruct (remove_child_item_heap o w (root tr) it _ _ Hit Hown Hitems Hx1
              (Htro _ Hroot))
    as (w' & Hrem & Hitems' & Hit' & Hothers & _).
  rewrite concat_ptrs_app in Hnd. simpl in Hnd.
  apply NoDup_app in Hnd as (Hnd1 & Hd1 & (Hndtr & Hd2 & Hnd2)%NoDup_app).
  apply Forall_app in Hmod as [Hmod1 [Hmodtr Hmod2]%Forall_cons].
  exists w'. split; [done|]. split_and!.
  - split_and!.
    + by rewrite fmap_app.
    + apply Forall_app. split.
      * rewrite Forall_forall in Hmod1 |- *. intros c Hc.
        apply (models_agree w); [by apply Hmod1|]. intros p Hp.
        assert (p ∈ concat (map ptrs ts1)) as Hpin
          by (by apply (elem_of_concat_ptrs _ c)).
        apply Hothers.
        -- intros ->. apply (Hd1 _ Hpin). apply elem_of_app. by left.
        -- apply (owner_not_in_forest _ _ _ _ Hot).
           rewrite concat_ptrs_app. apply elem_of_app. by left.
      * rewrite Forall_forall in Hmod2 |- *. intros c Hc.
        apply (models_agree w); [by apply Hmod2|]. intros p Hp.
        assert (p ∈ concat (map ptrs ts2)) as Hpin
          by (by apply (elem_of_concat_ptrs _ c)).
        apply Hothers.
        -- intros ->. by apply (Hd2 _ Hroot).
        -- apply (owner_not_in_forest _ _ _ _ Hot).
           rewrite concat_ptrs_app. apply elem_of_app. right. simpl.
           apply elem_of_app. by right.
    + rewrite concat_ptrs_app. apply NoDup_app. split_and!; [done| |done].
      intros p Hp Hp'. apply (Hd1 _ Hp). apply elem_of_app. by right.
    + intros g -> Hin. apply (Hgo g eq_refl).
      rewrite concat_ptrs_app in Hin |- *. simpl.
      apply elem_of_app in Hin as [Hin|Hin]; apply elem_of_app; [by left|].
      right. apply elem_of_app. by right.
  - apply (models_same_kinds w); [done|].
    intros p itp Hp Hitp. destruct (decide (p = root tr)) as [->|Hne].
    + rewrite Hit'. eexists. split; [done|]. simpl. congruence.
    + rewrite Hothers; [eauto|done|]. by apply Htro.
  - unfold owner_of. by rewrite Hit'.
Qed.

Lemma remove_child_item_keeps_tree_witness :
  ∃ w', remove_child_item OwnerView (root (Node 2 [Leaf 3 "b"])) example_nested
        = Some w' ∧
        owner_tree OwnerView w' ([Leaf 1 "a"] ++ []) ∧
        models w' (Node 2 [Leaf 3 "b"]) ∧
        owner_of (root (Node 2 [Leaf 3 "b"])) w' = None.
Proof.
  apply (remove_child_item_keeps_tree OwnerView example_nested
           [Leaf 1 "a"] (Node 2 [Leaf 3 "b"]) []).
  - exact example_nested_tree.
  - reflexivity.
Defined.

(** X28. [remove_child_item] undoes [add_child_item].  For an item
    without owner that the owner does not list and that is not the owner
    itself: after [add_child_item] and [remove_child_item] of the item
    every item and every child list is exactly what it was; two
    notifications have been sent. *)
Theorem add_then_remove_child_item o x w it l :
  heap w !! x = Some it → owner it = None → items_of o w = Some l →
  x ∉ l → OwnerGroup x ≠ o →
  ∃ w1 w2,
    add_child_item o x w = Some w1 ∧ remove_child_item o x w1 = Some w2 ∧
    heap w2 = heap w ∧ view_items w2 = view_items w ∧
    signals w2 = signals w ++ [(o, true, true); (o, true, true)].
Proof.
  intros Hx Hown Hl Hxl Hxo.
  destruct (add_child_item_heap o w x it l Hx Hown Hl Hxo)
    as (w1 & Hadd & Hl1 & Hx1 & Hothers1 & _ & Hrec1 & Hview1).
  destruct (add_child_item_inv _ _ _ _ Hadd) as (_ & _ & _ & _ & _ & _ & Hsig1 & _).
  destruct (remove_child_item_heap o w1 x (set_owner (Some o) it) l [])
    as (w2 & Hrem & Hl2 & Hx2 & Hothers2 & Hrec2 & Hview2 & Hsig2);
    [done|done|done|done|done|].
  rewrite app_nil_r in Hl2, Hrec2, Hview2.
  exists w1, w2. split_and!; [done|done|..].
  - apply map_eq. intros t. destruct (decide (t = x)) as [->|Htx].
    + rewrite Hx2, Hx. f_equal. destruct it. simpl in *. by subst.
    + destruct (decide (OwnerGroup t = o)) as [<-|Hto].
      * simpl in Hl. destruct (heap w !! t) as [ito|] eqn:Ht; [|done].
        simpl in Hl. destruct (kind ito) eqn:Hk; [done|]. injection Hl as ->.
        rewrite (Hrec2 t _ eq_refl (Hrec1 t ito eq_refl Ht)).
        f_equal. destruct ito. simpl in *. by subst.
      * by rewrite Hothers2, Hothers1.
  - destruct o as [|g].
    + rewrite Hview2. simpl in Hl. congruence.
    + rewrite Hview2. by apply Hview1.
  - rewrite Hsig2, Hsig1. by rewrite <-app_assoc.
Qed.

Lemma add_then_remove_child_item_witness :
  ∃ w1 w2,
    add_child_item OwnerView 4%positive example_loose = Some w1 ∧
    remove_child_item OwnerView 4%positive w1 = Some w2 ∧
    heap w2 = heap example_loose ∧ view_items w2 = view_items example_loose ∧
    signals w2
    = signals example_loose ++ [(OwnerView, true, true); (OwnerView, true, true)].
Proof.
  apply (add_then_remove_child_item OwnerView 4%positive example_loose
           (example_trace "c" (-5, 10) None true false 0) [1; 2]%positive).
  - reflexivity.
  - reflexivity.
  - reflexivity.
  - compute_done.
  - done.
Defined.

(** ** The order of the visit and the offsets it gives *)

Lemma room_heap n w t :
  room n w t
  = match heap w !! t, item_v_extents n w t with
    | Some it, Some e =>
        if bool_decide (e.1 = 0 ∧ e.2 = 0) then 0
        else if enabled it then e.2 - e.1 else 0
    | _, _ => 0
    end.
Proof.
  unfold room, child_state_of. destruct (heap w !! t) as [it|]; [|done].
  destruct (item_v_extents n w t) as [e|]; [|done]. simpl.
  destruct (decide (e.1 = 0 ∧ e.2 = 0)) as [Hz|Hnz].
  - rewrite (bool_decide_true (cs_zero _)) by done. by rewrite bool_decide_true by done.
  - rewrite (bool_decide_false (cs_zero _)) by done. by rewrite bool_decide_false by done.
Qed.

Lemma rooms_heap n w l :
  rooms n w l
  = foldr (λ t acc,
            match heap w !! t, item_v_extents n w t with
            | Some it, Some e =>
                if bool_decide (e.1 = 0 ∧ e.2 = 0) then 0
                else if enabled it then e.2 - e.1 else 0
            | _, _ => 0
            end + acc) 0 l.
Proof.
  induction l as [|t l IH]; [done|]. rewrite rooms_cons, IH. simpl.
  by rewrite room_heap.
Qed.

(** When the sums of the walk fit an [int], so does every offset that
    a child has afterwards. *)
Lemma cs_walk_offsets_in_range l : ∀ T,
  in_int_range T →
  Forall (λ c, Forall in_int_range (center_ints c)) l →
  Forall in_int_range (cs_walk_ints l T) →
  Forall (λ c', in_int_range (cs_offset c')) (cs_walk l T).
Proof.
  induction l as [|c l IH]; intros T HT Hl Hw; [constructor|].
  apply Forall_cons in Hl as [Hc Hl].
  assert (in_int_range (cs_offset c)) as Hoff.
  { unfold center_ints in Hc. by apply Forall_cons in Hc as [? _]. }
  cbn [cs_walk cs_walk_ints] in *.
  destruct (decide (cs_zero c)) as [Hz|Hnz].
  { rewrite bool_decide_true in Hw by done. rewrite bool_decide_true by done.
    constructor; [done|by apply IH]. }
  rewrite bool_decide_false in Hw by done. rewrite bool_decide_false by done.
  destruct (cs_enabled c) eqn:Hen.
  - apply Forall_app in Hw as [Hw3 Hw].
    apply Forall_cons in Hw3 as [_ [HT1 [HT2 _]%Forall_cons]%Forall_cons].
    constructor; [|by apply IH].
    by destruct (cs_dragging c).
  - constructor; [|by apply IH].
    by destruct (cs_dragging c).
Qed.

(** The offset of each child after the call, from the children that are
    visited before it. *)
Lemma restack_offsets_closed n o w ts cs pre d post it e :
  owner_tree o w ts → reads n w cs → cs_ptr <$> cs = root <$> ts →
  cs_ptr <$> stable_sort cs_before cs = pre ++ d :: post →
  heap w !! d = Some it → item_v_extents n w d = Some e →
  ∃ it', heap (write_offsets (cs_restack cs) w) !! d = Some it' ∧
         (∃ c', c' ∈ cs_restack cs ∧ cs_offset c' = layout_v_offset it') ∧
         layout_v_offset it'
         = if bool_decide (e.1 = 0 ∧ e.2 = 0) then layout_v_offset it
           else if dragging it then layout_v_offset it
           else if enabled it then rooms n w pre - e.1
           else rooms n w pre.
Proof.
  intros Hot Hreads Hptrs Horder Hit He.
  destruct (restack_items_cs n o w ts cs Hot Hreads Hptrs) as (_ & _ & Hreads' & _).
  set (w' := write_offsets (cs_restack cs) w) in *. clearbody w'.
  apply fmap_app_inv in Horder as (lpre & lrest & -> & Hrest & Hsorted).
  symmetry in Hrest. apply fmap_cons_inv in Hrest as (c & lpost & -> & -> & ->).
  assert (reads n w (lpre ++ c :: lpost)) as Hrs.
  { rewrite <-Hsorted. eapply reads_Permutation; [|done].
    symmetry. apply cs_sorted_Permutation. }
  unfold reads in Hrs. apply Forall_app in Hrs as [Hrpre Hrc].
  apply Forall_cons in Hrc as [Hc _].
  apply child_state_of_Some in Hc as (it0 & e0 & Hit0 & He0 & Hceq).
  assert (it0 = it) as -> by congruence. assert (e0 = e) as -> by congruence.
  unfold cs_restack in *. rewrite Hsorted, cs_walk_app in *.
  unfold reads in Hreads'. apply Forall_app in Hreads' as [_ Hrc'].
  rewrite (cs_total_rooms n w lpre 0 Hrpre), Z.add_0_l in *.
  rewrite (cs_walk_cons c lpost) in *.
  apply Forall_app in Hrc' as [Hc' _].
  assert (∀ c', cs_walk [c] (rooms n w (cs_ptr <$> lpre)) = [c'] →
                cs_ptr c' = cs_ptr c →
                ∃ it', heap w' !! cs_ptr c = Some it' ∧
                       (∃ c'', c'' ∈ cs_walk lpre 0 ++
                                       cs_walk [c] (rooms n w (cs_ptr <$> lpre)) ++
                                       cs_walk lpost (cs_total [c] (rooms n w (cs_ptr <$> lpre))) ∧
                               cs_offset c'' = layout_v_offset it') ∧
                       layout_v_offset it' = cs_offset c') as Hone.
  { intros c' Heq Hp. rewrite Heq in *. apply Forall_cons in Hc' as [Hc' _].
    rewrite Hp in Hc'.
    apply child_state_of_Some in Hc' as (it' & e' & Hit' & _ & Hceq').
    exists it'. split; [done|].
    apply (f_equal cs_offset) in Hceq'. simpl in Hceq'.
    split; [|done]. exists c'. split; [|done].
    apply elem_of_app. right. apply elem_of_app. left. by apply list_elem_of_singleton. }
  assert (cs_extents c = e) as Hext by (by rewrite Hceq).
  assert (cs_offset c = layout_v_offset it) as Hoff by (by rewrite Hceq).
  assert (cs_dragging c = dragging it) as Hdr by (by rewrite Hceq).
  assert (cs_enabled c = enabled it) as Hen by (by rewrite Hceq).
  destruct (decide (e.1 = 0 ∧ e.2 = 0)) as [Hz|Hnz].
  { rewrite (bool_decide_true (_ ∧ _)) by done.
    rewrite <-Hoff. apply Hone; [|done]. cbn [cs_walk].
    rewrite bool_decide_true; [done|]. unfold cs_zero. by rewrite Hext. }
  rewrite (bool_decide_false (_ ∧ _)) by done.
  assert (¬ cs_zero c) as Hnz' by (unfold cs_zero; by rewrite Hext).
  destruct (dragging it) eqn:Hd.
  { rewrite <-Hoff. apply Hone; [|done]. cbn [cs_walk].
    rewrite bool_decide_false by done. by rewrite Hdr. }
  destruct (enabled it) eqn:Hena.
  - destruct (Hone (cs_set_offset (rooms n w (cs_ptr <$> lpre) + - (cs_extents c).1) c))
      as (it' & ? & ? & Hv); [| done |].
    { cbn [cs_walk]. rewrite bool_decide_false by done. by rewrite Hdr, Hen. }
    exists it'. split_and!; [done..|]. rewrite Hv. simpl. rewrite Hext. lia.
  - destruct (Hone (cs_set_offset (rooms n w (cs_ptr <$> lpre)) c))
      as (it' & ? & ? & Hv); [| done |].
    { cbn [cs_walk]. rewrite bool_decide_false by done. by rewrite Hdr, Hen. }
    exists it'. split_and!; [done..|]. by rewrite Hv.
Qed.

(** C5. [restack_items] visits the direct children in ascending order
    of the key [layout_v_offset + (extents.first + extents.second) / 2],
    read in the state at the start of the call, with the [/] of [int]
    (towards zero); children with the same key are visited in the
    order of the child list. The offsets that the call assigns are
    those of the walk over that order: the running total starts at 0
    and grows by [second - first] at every enabled child whose extents
    are not (0, 0); such a child that is not being dragged gets the
    total before it minus [first] when it is enabled, and the total
    itself when it is disabled; a child with extents (0, 0) or that is
    being dragged keeps its offset. This is for a call none of whose
    [int] sums overflows; then every key and every offset assigned fits
    an [int]. *)
Theorem restack_items_sorted n o w ts :
  owner_tree o w ts → enough n ts → restack_in_range n o w →
  let key := λ t,
    it ← heap w !! t; e ← item_v_extents n w t;
    Some (layout_v_offset it + (e.1 + e.2) `quot` 2) in
  let height := λ t,
    match heap w !! t, item_v_extents n w t with
    | Some it, Some e =>
        if bool_decide (e.1 = 0 ∧ e.2 = 0) then 0
        else if enabled it then e.2 - e.1 else 0
    | _, _ => 0
    end in
  ∃ order w',
    restack_order n o w = Some order ∧
    order ≡ₚ root <$> ts ∧
    Forall (λ t, ∃ k, key t = Some k ∧ in_int_range k) order ∧
    StronglySorted (λ a b, ∃ ka kb, key a = Some ka ∧ key b = Some kb ∧ ka ≤ kb) order ∧
    (∀ k, filter (λ t, key t = Some k) order
          = filter (λ t, key t = Some k) (root <$> ts)) ∧
    restack_items n o w = Some w' ∧
    offsets_moved (root <$> ts) w w' ∧
    ∀ pre d post it e,
      order = pre ++ d :: post →
      heap w !! d = Some it → item_v_extents n w d = Some e →
      let total := foldr (λ t acc, height t + acc) 0 pre in
      ∃ it', heap w' !! d = Some it' ∧
             in_int_range (layout_v_offset it') ∧
             layout_v_offset it'
             = if bool_decide (e.1 = 0 ∧ e.2 = 0) then layout_v_offset it
               else if dragging it then layout_v_offset it
               else if enabled it then total - e.1
               else total.
Proof.
  intros Hot Hen Hrange key height.
  destruct (owner_tree_reads n o w ts Hot Hen) as (cs & Hreads & Hptrs).
  destruct (restack_order_sorted n o w ts cs Hot Hreads Hptrs)
    as (Horder & Hperm & Hsorted & Hstable).
  destruct (restack_items_cs n o w ts cs Hot Hreads Hptrs) as (_ & Hrun & _ & Hmoved).
  unfold restack_in_range in Hrange.
  rewrite (restack_ints_cs n o w ts cs Hot Hreads Hptrs) in Hrange.
  apply Forall_app in Hrange as [Hcenter Hwalk].
  apply Forall_concat_fmap in Hcenter.
  exists (cs_ptr <$> stable_sort cs_before cs), (write_offsets (cs_restack cs) w).
  split_and!; [done|done| |exact Hsorted|exact Hstable|done|done|].
  - apply Forall_fmap, Forall_forall. intros c Hc. simpl.
    rewrite cs_sorted_Permutation in Hc.
    rewrite Forall_forall in Hcenter. specialize (Hcenter c Hc).
    unfold reads in Hreads. rewrite Forall_forall in Hreads.
    apply Hreads, child_state_of_Some in Hc as (it & e & Hit & He & Hceq).
    exists (cs_center c). split.
    + unfold key. rewrite Hit. simpl. rewrite He. simpl. by rewrite Hceq.
    + unfold center_ints in Hcenter.
      by apply Forall_cons in Hcenter
        as [_ [_ [_ [_ [? _]%Forall_cons]%Forall_cons]%Forall_cons]%Forall_cons].
  - intros pre d post it e Hsplit Hit He total.
    destruct (restack_offsets_closed n o w ts cs pre d post it e)
      as (it' & Hit' & (c' & Hc' & Hoff) & Hv); [done..|].
    exists it'. split; [done|]. split.
    + rewrite <-Hoff.
      assert (Forall (λ c', in_int_range (cs_offset c')) (cs_restack cs)) as Hall.
      { apply cs_walk_offsets_in_range; [done| |done].
        by rewrite cs_sorted_Permutation. }
      rewrite Forall_forall in Hall. by apply Hall.
    + rewrite Hv. unfold total, height. by rewrite rooms_heap.
Qed.

Lemma example_reorder_tree :
  owner_tree OwnerView example_reorder example_reorder_forest.
Proof. solve_owner_tree. Qed.

Lemma restack_items_sorted_witness :
  let w := example_reorder in
  let key := λ t,
    it ← heap w !! t; e ← item_v_extents 1 w t;
    Some (layout_v_offset it + (e.1 + e.2) `quot` 2) in
  let height := λ t,
    match heap w !! t, item_v_extents 1 w t with
    | Some it, Some e =>
        if bool_decide (e.1 = 0 ∧ e.2 = 0) then 0
        else if enabled it then e.2 - e.1 else 0
    | _, _ => 0
    end in
  ∃ order w',
    restack_order 1 OwnerView w = Some order ∧
    order ≡ₚ root <$> example_reorder_forest ∧
    Forall (λ t, ∃ k, key t = Some k ∧ in_int_range k) order ∧
    StronglySorted (λ a b, ∃ ka kb, key a = Some ka ∧ key b = Some kb ∧ ka ≤ kb) order ∧
    (∀ k, filter (λ t, key t = Some k) order
          = filter (λ t, key t = Some k) (root <$> example_reorder_forest)) ∧
    restack_items 1 OwnerView w = Some w' ∧
    offsets_moved (root <$> example_reorder_forest) w w' ∧
    ∀ pre d post it e,
      order = pre ++ d :: post →
      heap w !! d = Some it → item_v_extents 1 w d = Some e →
      let total := foldr (λ t acc, height t + acc) 0 pre in
      ∃ it', heap w' !! d = Some it' ∧
             in_int_range (layout_v_offset it') ∧
             layout_v_offset it'
             = if bool_decide (e.1 = 0 ∧ e.2 = 0) then layout_v_offset it
               else if dragging it then layout_v_offset it
               else if enabled it then total - e.1
               else total.
Proof.
  apply (restack_items_sorted 1 OwnerView example_reorder example_reorder_forest).
  - exact example_reorder_tree.
  - compute_done.
  - compute_done.
Defined.

(** The children a, b, c of [example_reorder] have the keys 105, 5 and
    5: the extents of c are (-17, 6), and (-17 + 6) / 2 is -5, not -6.
    So b and c tie and keep their order, a goes last, and the offsets
    are 0 for b, 10 + 17 for c and 33 for a. *)
Example restack_items_reorders :
  mapM (center_line 1 example_reorder) [1; 2; 3]%positive = Some [105; 5; 5] ∧
  restack_order 1 OwnerView example_reorder = Some [2; 3; 1]%positive ∧
  ∃ w', restack_items 1 OwnerView example_reorder = Some w' ∧
        (λ t, layout_v_offset <$> heap w' !! t) <$> [1; 2; 3]%positive
        = [Some 33; Some 0; Some 27].
Proof.
  split; [by vm_compute|]. split; [by vm_compute|].
  eexists. split; [by vm_compute|]. by vm_compute.
Qed.
